(** * yolotext: the dataset conversion pipeline of [main.go]

    A shallow embedding of the conversion core of the program
    (recompression under a size budget, annotation conversion, label-file
    editing, shuffling and splitting, the bounded worker loop) and the
    properties stated about it.

    Conventions of the embedding.
    - Go [int] values are [Z]; where the program adds two of them the 64-bit
      wrap-around is written out ([wrap64]).
    - Go [float64] values are kept behind the interface [Float64].  Two
      implementations are given: [ieee_float64], the binary64 arithmetic of
      the machine (Rocq's primitive floats), and [exact_float64], rational
      arithmetic without rounding.  Everything the program computes is
      defined once, for any implementation.
    - Go strings and byte slices are [string] (sequences of 8-bit
      characters); the file system is a finite map from paths to contents.
    - Library routines whose code is not part of the repository (the JPEG
      encoder, the image decoders, the JSON decoder, [fmt.Sprintf],
      [strings.TrimSpace], the [path/filepath] helpers and the swap
      sequence of [rand.Shuffle]) are parameters of the definitions. *)

From Stdlib Require Import ZArith QArith Qabs Qround Uint63 Floats.
From Stdlib Require Import String Ascii DecimalString List Permutation Sorted Lia Lqa.
From Equations Require Import Equations.
From stdpp Require Import base gmap strings list.

Local Open Scope Z_scope.

(** ** Machine integers *)

Definition MinInt64 : Z := - 2 ^ 63.
Definition MaxInt64 : Z := 2 ^ 63 - 1.

(** Two's-complement wrap-around of a 64-bit signed sum. *)
Definition wrap64 (z : Z) : Z := (z + 2 ^ 63) mod 2 ^ 64 - 2 ^ 63.

(** ** The [float64] interface *)

Class Float64 (F : Type) : Type := {
  f_add : F -> F -> F;
  f_sub : F -> F -> F;
  f_mul : F -> F -> F;
  f_div : F -> F -> F;
  f_ltb : F -> F -> bool;          (* x < y *)
  f_of_int : Z -> F;               (* float64(n) *)
  f_to_int : F -> Z;               (* int(x) *)
  f_MaxFloat64 : F;                (* math.MaxFloat64 *)
  f_neg_MaxFloat64 : F             (* -math.MaxFloat64 *)
}.

(** *** IEEE 754 binary64 *)

Definition ieee_MaxFloat64 : float := 0x1.fffffffffffffp1023%float.

(** [float64(n)]: the integer rounded to the nearest binary64 value, by
    the machine's conversion where the magnitude fits a 63-bit word. *)
Definition ieee_of_int (z : Z) : float :=
  if (0 <=? z) && (z <? 2 ^ 63) then PrimFloat.of_uint63 (Uint63.of_Z z)
  else if (- 2 ^ 63 <? z) && (z <? 0)
       then PrimFloat.opp (PrimFloat.of_uint63 (Uint63.of_Z (- z)))
       else SF2Prim (binary_normalize prec emax z 0 false).

(** [int(x)]: truncation toward zero.  For a NaN, an infinity or a value
    outside the range of [int] the Go specification leaves the result to
    the implementation; amd64 yields the smallest integer. *)
Definition ieee_to_int (x : float) : Z :=
  match Prim2SF x with
  | S754_zero _ => 0
  | S754_finite s m e =>
      let mag := if 0 <=? e then Z.pos m * 2 ^ e else Z.pos m / 2 ^ (- e) in
      let v := if s then - mag else mag in
      if (MinInt64 <=? v) && (v <=? MaxInt64) then v else MinInt64
  | _ => MinInt64
  end.

#[export] Instance ieee_float64 : Float64 float := {|
  f_add := PrimFloat.add;
  f_sub := PrimFloat.sub;
  f_mul := PrimFloat.mul;
  f_div := PrimFloat.div;
  f_ltb := PrimFloat.ltb;
  f_of_int := ieee_of_int;
  f_to_int := ieee_to_int;
  f_MaxFloat64 := ieee_MaxFloat64;
  f_neg_MaxFloat64 := PrimFloat.opp ieee_MaxFloat64
|}.

(** *** Exact rational arithmetic (no rounding, no overflow) *)

Definition exact_MaxFloat64 : Q := inject_Z (2 ^ 1024 - 2 ^ 971).

Definition exact_ltb (x y : Q) : bool := negb (Qle_bool y x).

(** Truncation toward zero. *)
Definition exact_to_int (x : Q) : Z := Z.quot (Qnum x) (Z.pos (Qden x)).

#[export] Instance exact_float64 : Float64 Q := {|
  f_add := Qplus;
  f_sub := Qminus;
  f_mul := Qmult;
  f_div := Qdiv;
  f_ltb := exact_ltb;
  f_of_int := inject_Z;
  f_to_int := exact_to_int;
  f_MaxFloat64 := exact_MaxFloat64;
  f_neg_MaxFloat64 := Qopp exact_MaxFloat64
|}.

(** ** Errors and the file system *)

Inductive error : Set :=
  | ErrEncode      (* jpeg.Encode refused the image *)
  | ErrIO          (* a file could not be opened, created or written *)
  | ErrSyntax.     (* json.Unmarshal rejected the bytes *)

(** Files by path, and the paths that cannot be created or written. *)
Record FileSystem : Type := mkFS {
  fs_files : gmap string string;
  fs_locked : gset string
}.

Definition os_ReadFile (fs : FileSystem) (name : string) : option string :=
  fs_files fs !! name.

Definition os_Stat (fs : FileSystem) (name : string) : bool :=
  bool_decide (is_Some (fs_files fs !! name)).

Definition os_WriteFile (fs : FileSystem) (name data : string)
  : option error * FileSystem :=
  if decide (name ∈ fs_locked fs) then (Some ErrIO, fs)
  else (None, mkFS (<[name := data]> (fs_files fs)) (fs_locked fs)).

(** [os.Create]: the file exists and is empty afterwards. *)
Definition os_Create (fs : FileSystem) (name : string)
  : option error * FileSystem :=
  os_WriteFile fs name "".

Definition file_at (fs : FileSystem) (name : string) : option string :=
  fs_files fs !! name.

(** ** 1. SmartCompress *)

Section Compress.
Context {Image : Type}.
(** [jpeg.Encode] into a buffer: the bytes, or an error. *)
Variable jpeg_Encode : Image -> Z -> option string.

Definition minQuality : Z := 20.

(** The [for quality >= minQuality] loop together with the code after it. *)
Equations? SmartCompress_from (img : Image) (outPath : string) (maxKB : Z)
  (fs : FileSystem) (quality : Z) : option error * FileSystem
  by wf (Z.to_nat (quality - minQuality + 5)) lt :=
SmartCompress_from img outPath maxKB fs quality with Z_le_dec minQuality quality => {
  | left _ with jpeg_Encode img quality => {
      | None => (Some ErrEncode, fs);
      | Some buf with Z.quot (Z.of_nat (String.length buf)) 1024 <=? maxKB => {
          | true => os_WriteFile fs outPath buf;
          | false => SmartCompress_from img outPath maxKB fs (quality - 5) } };
  | right _ with os_Create fs outPath => {
      | (Some err, fs') => (Some err, fs');
      | (None, fs') with jpeg_Encode img minQuality => {
          | None => (Some ErrEncode, fs');
          | Some buf => os_WriteFile fs' outPath buf } } }.
Proof. unfold minQuality in *. lia. Qed.

Definition SmartCompress (img : Image) (outPath : string) (maxKB : Z)
  (fs : FileSystem) : option error * FileSystem :=
  SmartCompress_from img outPath maxKB fs 95.

End Compress.

(** ** 2. ConvertJsonToYolo *)

(** The two shape kinds of an annotation document, as [json.Unmarshal]
    fills them. *)
Record LabelMeShape (F : Type) : Type := mkShape {
  Label : string;
  Points : list (list F)
}.

Record LabelMeRect (F : Type) : Type := mkRect {
  Name : string;
  X1 : F;
  Y1 : F;
  X2 : F;
  Y2 : F
}.

Record LabelMeJSON (F : Type) : Type := mkJSON {
  Shapes : list (LabelMeShape F);
  Labels : list (LabelMeRect F)
}.

Arguments mkShape {F} _ _.
Arguments Label {F} _.
Arguments Points {F} _.
Arguments mkRect {F} _ _ _ _ _.
Arguments Name {F} _.
Arguments X1 {F} _.
Arguments Y1 {F} _.
Arguments X2 {F} _.
Arguments Y2 {F} _.
Arguments mkJSON {F} _ _.
Arguments Shapes {F} _.
Arguments Labels {F} _.

Section Convert.
Context {F : Type} {FA : Float64 F}.
(** [json.Unmarshal] into a [LabelMeJSON]: the document, or a syntax error. *)
Variable json_Unmarshal : string -> option (LabelMeJSON F).
(** [fmt.Sprintf("%d %.6f %.6f %.6f %.6f", cls, a, b, c, d)]. *)
Variable Sprintf_line : Z -> F -> F -> F -> F -> string.

(** The four numbers that [add] formats after the class id. *)
Definition normalize (imgW imgH : Z) (x1 y1 x2 y2 : F) : F * F * F * F :=
  let w := f_sub x2 x1 in
  let h := f_sub y2 y1 in
  let cx := f_add x1 (f_div w (f_of_int 2)) in
  let cy := f_add y1 (f_div h (f_of_int 2)) in
  (f_div cx (f_of_int imgW), f_div cy (f_of_int imgH),
   f_div w (f_of_int imgW), f_div h (f_of_int imgH)).

Definition yolo_line (imgW imgH : Z) (cls : Z) (x1 y1 x2 y2 : F) : string :=
  let '(ncx, ncy, nw, nh) := normalize imgW imgH x1 y1 x2 y2 in
  Sprintf_line cls ncx ncy nw nh.

(** The closure [add]: one more line at the end of [yoloLines]. *)
Definition add (imgW imgH : Z) (yoloLines : list string)
  (cls : Z) (x1 y1 x2 y2 : F) : list string :=
  yoloLines ++ [yolo_line imgW imgH cls x1 y1 x2 y2].

(** One round of the loop over [shape.Points]; the state is
    [(minX, minY, maxX, maxY)]. *)
Definition scan_point (b : F * F * F * F) (p : list F) : F * F * F * F :=
  let '(minX, minY, maxX, maxY) := b in
  match p with
  | p0 :: p1 :: _ =>
      (if f_ltb p0 minX then p0 else minX,
       if f_ltb p1 minY then p1 else minY,
       if f_ltb maxX p0 then p0 else maxX,
       if f_ltb maxY p1 then p1 else maxY)
  | _ => b
  end.

Definition sentinel : F * F * F * F :=
  (f_MaxFloat64, f_MaxFloat64, f_neg_MaxFloat64, f_neg_MaxFloat64).

(** One round of the loop over [data.Shapes]. *)
Definition convert_shape (imgW imgH : Z) (classMap : gmap string Z)
  (yoloLines : list string) (shape : LabelMeShape F) : list string :=
  match classMap !! Label shape with
  | Some id =>
      if 0 <? Z.of_nat (length (Points shape)) then
        let '(minX, minY, maxX, maxY) :=
          fold_left scan_point (Points shape) sentinel in
        add imgW imgH yoloLines id minX minY maxX maxY
      else yoloLines
  | None => yoloLines
  end.

(** One round of the loop over [data.Labels]. *)
Definition convert_label (imgW imgH : Z) (classMap : gmap string Z)
  (yoloLines : list string) (lbl : LabelMeRect F) : list string :=
  match classMap !! Name lbl with
  | Some id => add imgW imgH yoloLines id (X1 lbl) (Y1 lbl) (X2 lbl) (Y2 lbl)
  | None => yoloLines
  end.

(** The two loops, on a decoded document. *)
Definition convert_document (imgW imgH : Z) (classMap : gmap string Z)
  (data : LabelMeJSON F) : list string :=
  fold_left (convert_label imgW imgH classMap) (Labels data)
    (fold_left (convert_shape imgW imgH classMap) (Shapes data) []).

Definition ConvertJsonToYolo (fs : FileSystem) (jsonPath : string)
  (imgW imgH : Z) (classMap : gmap string Z) : list string * option error :=
  match os_ReadFile fs jsonPath with
  | None => ([], Some ErrIO)
  | Some fileBytes =>
      match json_Unmarshal fileBytes with
      | None => ([], Some ErrSyntax)
      | Some data => (convert_document imgW imgH classMap data, None)
      end
  end.

End Convert.


(** ** 3. Editing a label file: removeLabelFromFile *)

Definition newline : ascii := ascii_of_nat 10.
Definition nl : string := String newline EmptyString.

(** [strings.Split(s, "\n")]: the pieces between the newlines; one piece
    more than there are newlines. *)
Fixpoint strings_Split_nl (s : string) : list string :=
  match s with
  | EmptyString => [EmptyString]
  | String c s' =>
      if Ascii.eqb c newline then EmptyString :: strings_Split_nl s'
      else match strings_Split_nl s' with
           | l :: ls => String c l :: ls
           | [] => [String c EmptyString]
           end
  end.

(** [strings.Join(elems, sep)]. *)
Fixpoint strings_Join (elems : list string) (sep : string) : string :=
  match elems with
  | [] => EmptyString
  | [a] => a
  | a :: rest => a +:+ sep +:+ strings_Join rest sep
  end.

(** [strings.TrimSpace] on ASCII text: leading and trailing white space
    (tab, line feed, vertical tab, form feed, carriage return, space)
    removed. *)
Definition is_space (c : ascii) : bool :=
  let n := nat_of_ascii c in
  ((9 <=? n) && (n <=? 13))%nat || (n =? 32)%nat.

Fixpoint trim_left (s : string) : string :=
  match s with
  | String c s' => if is_space c then trim_left s' else s
  | EmptyString => EmptyString
  end.

Fixpoint trim_right (s : string) : string :=
  match s with
  | EmptyString => EmptyString
  | String c s' =>
      match trim_right s' with
      | EmptyString => if is_space c then EmptyString else String c EmptyString
      | t => String c t
      end
  end.

Definition ascii_TrimSpace (s : string) : string := trim_right (trim_left s).

Section LabelFile.
(** [strings.TrimSpace]. *)
Variable TrimSpace : string -> string.

(** One round of the loop over [lines]; the state is
    [(newLines, deleted)]. *)
Definition remove_step (targetRaw : string) (st : list string * bool)
  (l : string) : list string * bool :=
  let '(newLines, deleted) := st in
  if negb deleted && String.eqb (TrimSpace l) (TrimSpace targetRaw)
  then (newLines, true)
  else if negb (String.eqb (TrimSpace l) EmptyString)
       then (newLines ++ [l], deleted)
       else (newLines, deleted).

(** The new content of the label file. *)
Definition remove_line (content targetRaw : string) : string :=
  let lines := strings_Split_nl content in
  let '(newLines, _) := fold_left (remove_step targetRaw) lines ([], false) in
  strings_Join newLines nl.

(** [removeLabelFromFile]: the errors of [os.ReadFile] and [os.WriteFile]
    are dropped, as in the source (an unreadable file is read as empty);
    the refresh callback of the window is left out. *)
Definition removeLabelFromFile (labelPath targetRaw : string)
  (fs : FileSystem) : FileSystem :=
  let content := default EmptyString (os_ReadFile fs labelPath) in
  snd (os_WriteFile fs labelPath (remove_line content targetRaw)).

(** *** The same, in the words of the description *)

Definition is_blank (l : string) : bool := String.eqb (TrimSpace l) EmptyString.

Definition matches (targetRaw l : string) : bool :=
  String.eqb (TrimSpace l) (TrimSpace targetRaw).

(** Delete the first line that matches the target, and no other. *)
Fixpoint delete_first_match (targetRaw : string) (lines : list string)
  : list string :=
  match lines with
  | [] => []
  | l :: rest =>
      if matches targetRaw l then rest
      else l :: delete_first_match targetRaw rest
  end.

(** Drop every blank line. *)
Definition drop_blank (lines : list string) : list string :=
  List.filter (fun l => negb (is_blank l)) lines.

Definition spec_remove_line (content targetRaw : string) : string :=
  strings_Join
    (drop_blank (delete_first_match targetRaw (strings_Split_nl content))) nl.

End LabelFile.

(** ** 4. The batch run started by [btnRun] *)

(** [strings.TrimSuffix]. *)
Definition strings_TrimSuffix (s suffix : string) : string :=
  let n := (String.length s - String.length suffix)%nat in
  if (String.length suffix <=? String.length s)%nat
     && String.eqb (substring n (String.length suffix) s) suffix
  then substring 0 n s else s.

(** [filepath.Join] on clean, non-empty elements. *)
Definition filepath_Join (elems : list string) : string :=
  strings_Join elems "/".

(** [DirectCopy]: the bytes of [src] become the content of [dst]. *)
Definition DirectCopy (src dst : string) (fs : FileSystem)
  : option error * FileSystem :=
  match os_ReadFile fs src with
  | None => (Some ErrIO, fs)
  | Some data =>
      match os_Create fs dst with
      | (Some err, fs') => (Some err, fs')
      | (None, fs') => os_WriteFile fs' dst data
      end
  end.

(** The library routines the run relies on. *)
Class Runtime (F : Type) : Type := {
  Image : Type;
  jpeg_Encode : Image -> Z -> option string;
  image_Decode : string -> option Image;          (* from the file's bytes *)
  image_Dx : Image -> Z;                           (* img.Bounds().Dx() *)
  image_Dy : Image -> Z;
  image_DecodeConfig : string -> option (Z * Z);  (* width and height *)
  json_Unmarshal : string -> option (LabelMeJSON F);
  Sprintf_line : Z -> F -> F -> F -> F -> string;
  filepath_Base : string -> string;
  filepath_Ext : string -> string;
  (** the calls [swap(i, j)] that
      [rand.New(rand.NewSource(seed)).Shuffle(n, swap)] makes, in order *)
  rand_Shuffle : Z -> nat -> list (nat * nat)
}.

Record FilePair : Type := mkPair { ImgPath : string; JsonPath : string }.

(** What the run reads from the window when the button is pressed. *)
Record Config (F : Type) : Type := mkConfig {
  outDir : string;
  doProc : bool;
  maxKB : Z;
  trainR : F;
  valR : F;
  clsMap : gmap string Z
}.

Arguments mkConfig {F} _ _ _ _ _ _.
Arguments outDir {F} _.
Arguments doProc {F} _.
Arguments maxKB {F} _.
Arguments trainR {F} _.
Arguments valR {F} _.
Arguments clsMap {F} _.

(** The function passed to [Shuffle]: [tasks[i], tasks[j] = tasks[j], tasks[i]]. *)
Definition swap {A : Type} (i j : nat) (l : list A) : list A :=
  match l !! i, l !! j with
  | Some a, Some b => <[i := b]> (<[j := a]> l)
  | _, _ => l
  end.

Definition apply_swaps {A : Type} (swaps : list (nat * nat)) (l : list A)
  : list A :=
  fold_left (fun acc ij => swap (fst ij) (snd ij) acc) swaps l.

(** The calls a task's goroutine makes, in order. *)
Inductive Call (F : Type) : Type :=
  | CallSmartCompress (dst : string)
  | CallDirectCopy (src dst : string)
  | CallConvert (jsonPath : string)
  | CallWriteLabel (dst : string)
  | CallSetValue (v : F).

Arguments CallSmartCompress {F} _.
Arguments CallDirectCopy {F} _ _.
Arguments CallConvert {F} _.
Arguments CallWriteLabel {F} _.
Arguments CallSetValue {F} _.


Section Run.
Context {F : Type} {FA : Float64 F} {RT : Runtime F}.

(** [rand.New(rand.NewSource(seed))] followed by [r.Shuffle]. *)
Definition shuffle (seed : Z) (tasks : list FilePair) : list FilePair :=
  apply_swaps (rand_Shuffle seed (length tasks)) tasks.

Definition trainC (cfg : Config F) (total : nat) : Z :=
  f_to_int (f_mul (f_of_int (Z.of_nat total)) (trainR cfg)).

Definition valC (cfg : Config F) (total : nat) : Z :=
  f_to_int (f_mul (f_of_int (Z.of_nat total)) (valR cfg)).

(** The subset chosen for position [i] of the shuffled list. *)
Definition subset_of (cfg : Config F) (total : nat) (i : nat) : string :=
  if Z.of_nat i <? trainC cfg total then "train"
  else if Z.of_nat i <? wrap64 (trainC cfg total + valC cfg total) then "val"
  else "test".

(** Shuffling and the choice of subsets; [now] is [time.Now().UnixNano()]. *)
Definition Partition (cfg : Config F) (now : Z) (tasks : list FilePair)
  : list (FilePair * string) :=
  let shuffled := shuffle now tasks in
  imap (fun i t => (t, subset_of cfg (length shuffled) i)) shuffled.

Definition task_base (task : FilePair) : string :=
  strings_TrimSuffix (filepath_Base (ImgPath task)) (filepath_Ext (ImgPath task)).

(** The image half of the goroutine: width, height, file system, calls. *)
Definition process_image (cfg : Config F) (task : FilePair) (subset : string)
  (fs : FileSystem) : Z * Z * FileSystem * list (Call F) :=
  let base := task_base task in
  if doProc cfg then
    match os_ReadFile fs (ImgPath task) with
    | Some bytes =>
        match image_Decode bytes with
        | Some img =>
            let dst := filepath_Join [outDir cfg; "images"; subset; base +:+ ".jpg"] in
            (image_Dx img, image_Dy img,
             snd (SmartCompress jpeg_Encode img dst (maxKB cfg) fs),
             [CallSmartCompress dst])
        | None => (0, 0, fs, [])
        end
    | None => (0, 0, fs, [])
    end
  else
    match os_ReadFile fs (ImgPath task) with
    | Some bytes =>
        match image_DecodeConfig bytes with
        | Some (w, h) =>
            let dst := filepath_Join [outDir cfg; "images"; subset;
                                      base +:+ filepath_Ext (ImgPath task)] in
            (w, h, snd (DirectCopy (ImgPath task) dst fs),
             [CallDirectCopy (ImgPath task) dst])
        | None => (0, 0, fs, [])
        end
    | None => (0, 0, fs, [])
    end.

(** The label half. *)
Definition process_label (cfg : Config F) (task : FilePair) (subset : string)
  (imgW imgH : Z) (fs : FileSystem) : FileSystem * list (Call F) :=
  if os_Stat fs (JsonPath task) && (0 <? imgW) then
    match ConvertJsonToYolo json_Unmarshal Sprintf_line fs (JsonPath task)
            imgW imgH (clsMap cfg) with
    | (lines, None) =>
        let dst := filepath_Join [outDir cfg; "labels"; subset;
                                  task_base task +:+ ".txt"] in
        (snd (os_WriteFile fs dst (strings_Join lines nl)),
         [CallConvert (JsonPath task); CallWriteLabel dst])
    | (_, Some _) => (fs, [CallConvert (JsonPath task)])
    end
  else (fs, []).

Definition progress_of (total idx : nat) : F :=
  f_div (f_of_int (Z.of_nat idx + 1)) (f_of_int (Z.of_nat total)).

(** The body of the goroutine started for position [idx].  None of the
    operations below panics, so the deferred [recover] has nothing to
    catch and is left out. *)
Definition process_task (cfg : Config F) (total idx : nat) (task : FilePair)
  (subset : string) (fs : FileSystem) : FileSystem * list (Call F) :=
  let '(imgW, imgH, fs1, calls1) := process_image cfg task subset fs in
  let '(fs2, calls2) := process_label cfg task subset imgW imgH fs1 in
  (fs2, calls1 ++ calls2 ++ [CallSetValue (progress_of total idx)]).

(** *** The worker loop as a transition system

    The loop over the shuffled tasks takes a slot of [limit] (capacity 4)
    and starts a goroutine; a goroutine runs its body, gives the slot back
    and signals the wait group; [wg.Wait()] returns when all have done so.
    The body of one goroutine is a single step of the system: goroutines
    share nothing but the file system and the progress bar, and the order
    in which they finish is left open.  Writing the manifest after
    [wg.Wait()] is not part of the model. *)

Record Goroutine : Type := mkG {
  g_idx : nat;
  g_task : FilePair;
  g_subset : string
}.

Record RunState : Type := mkRun {
  rs_spawned : list Goroutine;    (* goroutines started so far; its length is [i] *)
  rs_running : list Goroutine;    (* those holding a slot of [limit] *)
  rs_fs : FileSystem;
  rs_log : list (Call F);         (* calls made so far *)
  rs_completed : list nat;        (* positions of the finished tasks, in order *)
  rs_returned : bool              (* [wg.Wait()] has returned *)
}.

Definition limit_cap : nat := 4.

Definition run_init (fs : FileSystem) : RunState :=
  mkRun [] [] fs [] [] false.

(** [parts] is the shuffled list with its subsets, [Partition cfg now tasks]. *)
Inductive step (cfg : Config F) (parts : list (FilePair * string))
  : RunState -> RunState -> Prop :=
  | step_spawn s t sub :
      parts !! length (rs_spawned s) = Some (t, sub) ->
      (length (rs_running s) < limit_cap)%nat ->
      rs_returned s = false ->
      let g := mkG (length (rs_spawned s)) t sub in
      step cfg parts s
        (mkRun (rs_spawned s ++ [g]) (rs_running s ++ [g]) (rs_fs s)
               (rs_log s) (rs_completed s) false)
  | step_finish s r1 g r2 :
      rs_running s = r1 ++ g :: r2 ->
      let out := process_task cfg (length parts) (g_idx g) (g_task g)
                   (g_subset g) (rs_fs s) in
      step cfg parts s
        (mkRun (rs_spawned s) (r1 ++ r2) (fst out) (rs_log s ++ snd out)
               (rs_completed s ++ [g_idx g]) (rs_returned s))
  | step_wait s :
      length (rs_spawned s) = length parts ->
      rs_running s = [] ->
      rs_returned s = false ->
      step cfg parts s
        (mkRun (rs_spawned s) [] (rs_fs s) (rs_log s) (rs_completed s) true).

Inductive steps (cfg : Config F) (parts : list (FilePair * string))
  : RunState -> RunState -> Prop :=
  | steps_refl s : steps cfg parts s s
  | steps_step s1 s2 s3 :
      steps cfg parts s1 s2 -> step cfg parts s2 s3 -> steps cfg parts s1 s3.

(** A state of the run over [tasks] started at clock reading [now]. *)
Definition reachable (cfg : Config F) (now : Z) (tasks : list FilePair)
  (fs : FileSystem) (s : RunState) : Prop :=
  tasks <> [] /\ steps cfg (Partition cfg now tasks) (run_init fs) s.

(** *** Running a given schedule *)

Inductive Action : Set :=
  | ActSpawn                (* the loop starts the next goroutine *)
  | ActFinish (k : nat)     (* the [k]-th running goroutine runs to its end *)
  | ActWait.                (* [wg.Wait()] returns *)

Definition exec (cfg : Config F) (parts : list (FilePair * string))
  (a : Action) (s : RunState) : option RunState :=
  match a with
  | ActSpawn =>
      match parts !! length (rs_spawned s) with
      | Some (t, sub) =>
          if (length (rs_running s) <? limit_cap)%nat && negb (rs_returned s)
          then let g := mkG (length (rs_spawned s)) t sub in
               Some (mkRun (rs_spawned s ++ [g]) (rs_running s ++ [g]) (rs_fs s)
                           (rs_log s) (rs_completed s) false)
          else None
      | None => None
      end
  | ActFinish k =>
      match rs_running s !! k with
      | Some g =>
          let out := process_task cfg (length parts) (g_idx g) (g_task g)
                       (g_subset g) (rs_fs s) in
          Some (mkRun (rs_spawned s)
                      (take k (rs_running s) ++ drop (S k) (rs_running s))
                      (fst out) (rs_log s ++ snd out)
                      (rs_completed s ++ [g_idx g]) (rs_returned s))
      | None => None
      end
  | ActWait =>
      if (length (rs_spawned s) =? length parts)%nat
         && (length (rs_running s) =? 0)%nat && negb (rs_returned s)
      then Some (mkRun (rs_spawned s) [] (rs_fs s) (rs_log s)
                       (rs_completed s) true)
      else None
  end.

Fixpoint run_schedule (cfg : Config F) (parts : list (FilePair * string))
  (acts : list Action) (s : RunState) : option RunState :=
  match acts with
  | [] => Some s
  | a :: acts' =>
      match exec cfg parts a s with
      | Some s' => run_schedule cfg parts acts' s'
      | None => None
      end
  end.

(** The state a schedule leads to; a schedule that cannot be followed
    leaves the run at its start. *)
Definition scheduled (cfg : Config F) (now : Z) (tasks : list FilePair)
  (fs : FileSystem) (acts : list Action) : RunState :=
  default (run_init fs)
    (run_schedule cfg (Partition cfg now tasks) acts (run_init fs)).

End Run.

Arguments RunState F : clear implicits.

(** ** 5. Class ids, the manifest, and adding a label in the review window *)

(** [strings.Split(s, sep)] for a separator of one character. *)
Fixpoint strings_Split_on (sep : ascii) (s : string) : list string :=
  match s with
  | EmptyString => [EmptyString]
  | String c s' =>
      if Ascii.eqb c sep then EmptyString :: strings_Split_on sep s'
      else match strings_Split_on sep s' with
           | l :: ls => String c l :: ls
           | [] => [String c EmptyString]
           end
  end.

Definition comma : ascii := ascii_of_nat 44.

Section ClassMap.
(** [strings.TrimSpace]. *)
Variable TrimSpace : string -> string.

(** [for i, c := range clsList { clsMap[strings.TrimSpace(c)] = i }]. *)
Definition build_clsMap (clsList : list string) : gmap string Z :=
  fold_left (fun m ic => <[TrimSpace (snd ic) := Z.of_nat (fst ic)]> m)
    (imap (fun i c => (i, c)) clsList) ∅.

(** The class map of the text typed into the class field. *)
Definition clsMap_of_text (text : string) : gmap string Z :=
  build_clsMap (strings_Split_on comma text).

End ClassMap.

(** [%d]. *)
Definition format_int (z : Z) : string := NilZero.string_of_int (Z.to_int z).

(** [for k, v := range clsMap { invMap[v] = k }]; Go leaves the order of
    the iteration open, [order] lists the entries as they come. *)
Definition invert_map (order : list (string * Z)) : gmap Z string :=
  fold_left (fun inv kv => <[snd kv := fst kv]> inv) order ∅.

(** [fmt.Sprintf("  %d: %s\n", i, invMap[i])]; a missing key reads as the
    empty string. *)
Definition names_line (invMap : gmap Z string) (i : nat) : string :=
  "  " +:+ format_int (Z.of_nat i) +:+ ": "
  +:+ default EmptyString (invMap !! Z.of_nat i) +:+ nl.

(** [for i := 0; i < len(invMap); i++ { yaml += ... }]. *)
Definition names_lines (invMap : gmap Z string) : list string :=
  map (names_line invMap) (seq 0 (size invMap)).

Definition yaml_header (outDir : string) : string :=
  "path: " +:+ outDir +:+ nl +:+ "train: images/train" +:+ nl
  +:+ "val: images/val" +:+ nl +:+ "test: images/test" +:+ nl
  +:+ "names:" +:+ nl.

Definition manifest_yaml (outDir : string) (order : list (string * Z)) : string :=
  yaml_header outDir +:+ String.concat EmptyString (names_lines (invert_map order)).

(** Writing [data.yaml]; the error of [os.WriteFile] is dropped. *)
Definition write_manifest (outDir : string) (order : list (string * Z))
  (fs : FileSystem) : FileSystem :=
  snd (os_WriteFile fs (filepath_Join [outDir; "data.yaml"])
         (manifest_yaml outDir order)).

(** [os.OpenFile(name, O_APPEND|O_CREATE|O_WRONLY, 0644)] followed by
    [f.WriteString(data)]. *)
Definition os_AppendString (fs : FileSystem) (name data : string)
  : option error * FileSystem :=
  if decide (name ∈ fs_locked fs) then (Some ErrIO, fs)
  else (None,
        mkFS (<[name := default EmptyString (fs_files fs !! name) +:+ data]>
                (fs_files fs))
             (fs_locked fs)).

(** [appendLabelToFile]: [origW] and [origH] are the [float64] values of
    the widget's fields; when the file cannot be opened nothing happens;
    the refresh callback of the window is left out. *)
Definition appendLabelToFile {F : Type} {FA : Float64 F}
  (Sprintf_line : Z -> F -> F -> F -> F -> string)
  (labelPath : string) (origW origH : F) (cls : Z) (x y w h : F)
  (fs : FileSystem) : FileSystem :=
  let cx := f_add x (f_div w (f_of_int 2)) in
  let cy := f_add y (f_div h (f_of_int 2)) in
  let normCx := f_div cx origW in
  let normCy := f_div cy origH in
  let normW := f_div w origW in
  let normH := f_div h origH in
  let line := nl +:+ Sprintf_line cls normCx normCy normW normH in
  snd (os_AppendString fs labelPath line).

(** ** Vocabulary of the statements and sample data *)

(** The quality levels of the scan: 95, 90, ..., 20. *)
Definition level (q : Z) : Prop := 20 <= q <= 95 /\ q mod 5 = 0.

(** Size in kibibytes as the loop of SmartCompress measures it. *)
Definition kib (buf : string) : Z := Z.quot (Z.of_nat (String.length buf)) 1024.

(** The encoding at level [q] passes the test of the loop. *)
Definition fits {Image : Type} (jpeg_Encode : Image -> Z -> option string)
  (img : Image) (budget q : Z) : Prop :=
  exists buf, jpeg_Encode img q = Some buf /\ kib buf <= budget.

(** The file system after [data] has been stored at [name]. *)
Definition written (fs : FileSystem) (name data : string) : FileSystem :=
  mkFS (<[name := data]> (fs_files fs)) (fs_locked fs).

Fixpoint bytes (n : nat) : string :=
  match n with
  | O => EmptyString
  | S n' => String (ascii_of_nat 120) (bytes n')
  end.

(** An encoder for a small picture: 1475 bytes at quality 95, five bytes
    less for every quality point below. *)
Definition example_encode (_ : unit) (q : Z) : option string :=
  Some (bytes (Z.to_nat (1000 + 5 * q))).

Definition example_fs : FileSystem := mkFS ∅ ∅.

(** The last character of a text, if any. *)
Fixpoint last_char (s : string) : option ascii :=
  match s with
  | EmptyString => None
  | String c s' =>
      match last_char s' with
      | Some c' => Some c'
      | None => Some c
      end
  end.

(** A label file of three lines, the second blank, ending in a newline. *)
Definition example_labels : string :=
  "0 0.500000 0.500000 0.200000 0.200000" +:+ nl +:+ "  " +:+ nl
  +:+ "1 0.100000 0.100000 0.100000 0.100000" +:+ nl.

Definition example_label_fs : FileSystem :=
  mkFS {[ "labels/train/a.txt" := example_labels ]} ∅.

(** The document without the shapes whose label the class map lacks. *)
Definition recognized {F : Type} (classMap : gmap string Z)
  (data : LabelMeJSON F) : LabelMeJSON F :=
  mkJSON
    (List.filter (fun s => bool_decide (is_Some (classMap !! Label s))) (Shapes data))
    (List.filter (fun r => bool_decide (is_Some (classMap !! Name r))) (Labels data)).

(** The lines one polygon adds, and the lines one rectangle adds. *)
Definition shape_lines {F : Type} {FA : Float64 F}
  (Sprintf_line : Z -> F -> F -> F -> F -> string) (imgW imgH : Z)
  (classMap : gmap string Z) (shape : LabelMeShape F) : list string :=
  convert_shape Sprintf_line imgW imgH classMap [] shape.

Definition rect_lines {F : Type} {FA : Float64 F}
  (Sprintf_line : Z -> F -> F -> F -> F -> string) (imgW imgH : Z)
  (classMap : gmap string Z) (lbl : LabelMeRect F) : list string :=
  convert_label Sprintf_line imgW imgH classMap [] lbl.

(** A polygon point with fewer than two coordinates. *)
Definition short_point {F : Type} (p : list F) : Prop := (length p < 2)%nat.

(** A stand-in for the formatter: the class id's sign and nothing else. *)
Definition example_Sprintf {F : Type} (cls : Z) (_ _ _ _ : F) : string :=
  if cls <? 0 then "-" else "+".

Definition example_classMap : gmap string Z := {[ "x" := 0 ]}.

(** An annotation file with one polygon and one rectangle, both of a class
    that is not in [example_classMap]. *)
Definition example_unknown_doc : LabelMeJSON float :=
  mkJSON [mkShape "y" [[1; 2]; [3; 4]]%float]
         [mkRect "z" 10 10 30 20]%float.

(** One polygon of class "x" whose two points carry one coordinate and
    none. *)
Definition example_short_doc : LabelMeJSON float :=
  mkJSON [mkShape "x" [[5]; []]%float] [].

Definition example_unmarshal (fileBytes : string) : option (LabelMeJSON float) :=
  if String.eqb fileBytes "unknown" then Some example_unknown_doc
  else if String.eqb fileBytes "short" then Some example_short_doc
  else None.

Definition example_json_fs : FileSystem :=
  mkFS {[ "a.json" := "unknown"; "b.json" := "short" ]} ∅.

(** The rational number a finite binary64 value stands for. *)
Definition ieee_value (x : float) : option Q :=
  match Prim2SF x with
  | S754_zero _ => Some 0%Q
  | S754_finite s m e =>
      Some (Qmult (if s then Qopp (inject_Z (Z.pos m)) else inject_Z (Z.pos m))
                  (Qpower (2 # 1) e))
  | _ => None
  end.






(** The pairs of task and subset handed to goroutines so far. *)
Definition assignments {F : Type} {FA : Float64 F} {RT : Runtime F}
  (s : RunState F) : list (FilePair * string) :=
  map (fun g => (g_task g, g_subset g)) (rs_spawned s).

(** How many tasks of [parts] went to [subset]. *)
Definition count_subset (subset : string) (parts : list (FilePair * string)) : nat :=
  length (List.filter (fun p => String.eqb (snd p) subset) parts).

(** Running the goroutine bodies one after the other in the given order
    of positions. *)
Definition replay {F : Type} {FA : Float64 F} {RT : Runtime F}
  (cfg : Config F) (parts : list (FilePair * string)) (order : list nat)
  (fs : FileSystem) : FileSystem * list (Call F) :=
  fold_left
    (fun acc i =>
       match parts !! i with
       | Some (t, sub) =>
           let out := process_task cfg (length parts) i t sub (fst acc) in
           (fst out, snd acc ++ snd out)
       | None => acc
       end)
    order (fs, []).


(** Sample library: pictures are their own bytes, 100 by 50 pixels, and a
    file decodes unless it starts with an exclamation mark; the JSON
    decoder knows the two sample documents; the shuffle of an odd seed
    makes the single call [swap(1, 0)], that of an even seed none. *)
Definition example_decodes (bytes : string) : bool :=
  match bytes with
  | String c _ => negb (Ascii.eqb c (ascii_of_nat 33))
  | EmptyString => false
  end.

Definition example_Shuffle (seed : Z) (n : nat) : list (nat * nat) :=
  if (2 <=? n)%nat && Z.odd seed then [(1%nat, 0%nat)] else [].

#[export] Instance example_runtime : Runtime float := {|
  Image := string;
  jpeg_Encode := fun img q => Some (bytes (Z.to_nat (1000 + 5 * q)));
  image_Decode := fun b => if example_decodes b then Some b else None;
  image_Dx := fun _ => 100;
  image_Dy := fun _ => 50;
  image_DecodeConfig := fun b => if example_decodes b then Some (100, 50) else None;
  json_Unmarshal := example_unmarshal;
  Sprintf_line := example_Sprintf;
  filepath_Base := fun p => p;
  filepath_Ext := fun _ => ".jpg";
  rand_Shuffle := example_Shuffle
|}.


Definition example_tasks : list FilePair :=
  [mkPair "a.jpg" "a.json"; mkPair "b.jpg" "b.json"].

(** Two pictures, the second one corrupt, with their annotation files. *)
Definition example_run_fs : FileSystem :=
  mkFS {[ "a.jpg" := "picture"; "b.jpg" := "!broken";
          "a.json" := "unknown"; "b.json" := "short" ]} ∅.

Definition example_cfg : Config float :=
  mkConfig "out" false 500 0.5%float 0.25%float example_classMap.



(** Both goroutines are started; the second task finishes first. *)
Definition example_schedule : list Action :=
  [ActSpawn; ActSpawn; ActFinish 1; ActFinish 0; ActWait].

(** One task at a time, in the order of the list. *)
Definition example_schedule_in_order : list Action :=
  [ActSpawn; ActFinish 0; ActSpawn; ActFinish 0; ActWait].

(** ** Vocabulary of the further statements *)

(** Where a task's goroutine puts the image and the label file. *)
Definition image_dst {F : Type} {RT : Runtime F} (cfg : Config F)
  (task : FilePair) (subset : string) : string :=
  filepath_Join [outDir cfg; "images"; subset;
                 task_base task +:+ (if doProc cfg then ".jpg"
                                     else filepath_Ext (ImgPath task))].

Definition label_dst {F : Type} {RT : Runtime F} (cfg : Config F)
  (task : FilePair) (subset : string) : string :=
  filepath_Join [outDir cfg; "labels"; subset; task_base task +:+ ".txt"].

(** The path lies under [outDir/images/] or [outDir/labels/]. *)
Definition in_output_tree (out p : string) : bool :=
  String.prefix (out +:+ "/images/") p || String.prefix (out +:+ "/labels/") p.

(** An integer forced into [0, N]. *)
Definition clamp (N : nat) (z : Z) : nat := Z.to_nat (Z.max 0 (Z.min z (Z.of_nat N))).

(** One readable picture whose annotation file holds a polygon of the
    known class "x". *)
Definition example_task : FilePair := mkPair "a.jpg" "a.json".

Definition example_task_fs : FileSystem :=
  mkFS {[ "a.jpg" := "picture"; "a.json" := "short" ]} ∅.

(** The same picture with an annotation file that is not JSON. *)
Definition example_malformed_fs : FileSystem :=
  mkFS {[ "a.jpg" := "picture"; "a.json" := "{" ]} ∅.

(** Images are re-encoded, within 500 KiB. *)
Definition example_cfg_process : Config float :=
  mkConfig "out" true 500 0.5%float 0.25%float example_classMap.

(** The call writes a label file. *)
Definition is_CallWriteLabel {F : Type} (c : Call F) : bool :=
  match c with
  | CallWriteLabel _ => true
  | _ => false
  end.

(** The file system after an optional [os.WriteFile] whose error is
    dropped. *)
Definition opt_write (name : string) (ow : option string) (fs : FileSystem)
  : FileSystem :=
  match ow with
  | Some data => snd (os_WriteFile fs name data)
  | None => fs
  end.

(** The file system after the goroutine body of position [i]. *)
Definition run_task {F : Type} {FA : Float64 F} {RT : Runtime F}
  (cfg : Config F) (parts : list (FilePair * string)) (fs : FileSystem)
  (i : nat) : FileSystem :=
  match parts !! i with
  | Some (t, sub) => fst (process_task cfg (length parts) i t sub fs)
  | None => fs
  end.

(** The file system after the goroutine bodies have run one after the
    other in the order of the task list. *)
Definition in_list_order {F : Type} {FA : Float64 F} {RT : Runtime F}
  (cfg : Config F) (parts : list (FilePair * string)) (fs : FileSystem)
  : FileSystem :=
  fold_left (run_task cfg parts) (seq 0 (length parts)) fs.

(** The task's picture and annotation file lie outside the output tree. *)
Definition sources_outside (out : string) (t : FilePair) : Prop :=
  in_output_tree out (ImgPath t) = false /\
  in_output_tree out (JsonPath t) = false.

(** The line of the manifest for class [i] named [name]. *)
Definition class_line (i : nat) (name : string) : string :=
  "  " +:+ format_int (Z.of_nat i) +:+ ": " +:+ name +:+ nl.

(** Class fields as typed: with different names, and with "cat" twice. *)
Definition example_classes : list string := ["cat"; " dog"].
Definition example_classes_twice : list string := ["cat"; " dog"; "cat "].

(** The polygon is of a known class and has at least one point: it adds a
    line. *)
Definition shape_counts {F : Type} (classMap : gmap string Z)
  (shape : LabelMeShape F) : bool :=
  bool_decide (is_Some (classMap !! Label shape))
  && (0 <? Z.of_nat (length (Points shape))).

(** The rectangle is of a known class. *)
Definition rect_counts {F : Type} (classMap : gmap string Z)
  (lbl : LabelMeRect F) : bool :=
  bool_decide (is_Some (classMap !! Name lbl)).

(** Every coordinate is within the range of finite [float64] values. *)
Definition in_float_range (p : list Q) : Prop :=
  Forall (fun c => (- exact_MaxFloat64 <= c <= exact_MaxFloat64)%Q) p.

(** A triangle in exact coordinates, with one point that lacks its second
    coordinate. *)
Definition example_polygon : list (list Q) :=
  [[3 # 1; 4 # 1]; [10 # 1]; [1 # 1; 8 # 1]; [7 # 1; 2 # 1]]%Q.

(** The text holds no line feed. *)
Fixpoint no_newline (s : string) : bool :=
  match s with
  | EmptyString => true
  | String c s' => negb (Ascii.eqb c newline) && no_newline s'
  end.

(** The content of the label file, an unreadable one counting as empty. *)
Definition label_content (fs : FileSystem) (labelPath : string) : string :=
  default EmptyString (os_ReadFile fs labelPath).

(** The line [appendLabelToFile] formats for a box drawn at [(x, y)] with
    size [(w, h)]. *)
Definition appended_line {F : Type} {FA : Float64 F}
  (Sprintf_line : Z -> F -> F -> F -> F -> string)
  (origW origH : F) (cls : Z) (x y w h : F) : string :=
  Sprintf_line cls
    (f_div (f_add x (f_div w (f_of_int 2))) origW)
    (f_div (f_add y (f_div h (f_of_int 2))) origH)
    (f_div w origW) (f_div h origH).

(** A formatter of label lines in the manner of [%d %.6f ...], reduced to
    the class id. *)
Definition example_format {F : Type} (cls : Z) (_ _ _ _ : F) : string :=
  format_int cls +:+ " 0.5 0.5 0.2 0.2".

(** A label file with two boxes. *)
Definition example_boxes_fs : FileSystem :=
  mkFS {[ "a.txt" := "0 0.1 0.1 0.1 0.1" +:+ nl +:+ "1 0.3 0.3 0.1 0.1" ]} ∅.

(** * Properties *)

(** ** SmartCompress *)

Section CompressFacts.
Context {Image : Type}.
Variable jpeg_Encode : Image -> Z -> option string.

Lemma os_WriteFile_unlocked fs name data :
  name ∉ fs_locked fs -> os_WriteFile fs name data = (None, written fs name data).
Proof.
  intros Hn. unfold os_WriteFile.
  destruct (decide _) as [Hin|_]; [contradiction|reflexivity].
Qed.

Lemma written_twice fs name d1 d2 :
  written (written fs name d1) name d2 = written fs name d2.
Proof.
  unfold written. simpl. f_equal. apply insert_insert_eq.
Qed.

Lemma level_step q q' :
  q mod 5 = 0 -> q' mod 5 = 0 -> q' <= q -> q' <= q - 5 \/ q' = q.
Proof.
  intros Hq Hq'.
  rewrite Z.mod_divide in Hq, Hq' by lia.
  destruct Hq as [a ->], Hq' as [b ->]. lia.
Qed.

Lemma SmartCompress_from_scan img outPath budget fs q :
  15 <= q <= 95 -> q mod 5 = 0 ->
  (forall q', level q' -> is_Some (jpeg_Encode img q')) ->
  outPath ∉ fs_locked fs ->
  exists q0 buf,
    level q0 /\ jpeg_Encode img q0 = Some buf /\
    SmartCompress_from jpeg_Encode img outPath budget fs q
      = (None, written fs outPath buf) /\
    ((kib buf <= budget /\
      forall q', level q' -> q0 < q' <= q -> ~ fits jpeg_Encode img budget q')
     \/ (q0 = 20 /\
         forall q', level q' -> q' <= q -> ~ fits jpeg_Encode img budget q')).
Proof.
  funelim (SmartCompress_from jpeg_Encode img outPath budget fs q);
    intros Hq Hmod Henc Hlock; unfold minQuality in *.
  - destruct (Henc quality) as [b Hb]; [split; [lia|assumption]|congruence].
  - exists quality, buf. repeat split; try lia; auto.
    + now apply os_WriteFile_unlocked.
    + left. split; [unfold kib; lia|]. intros q' _ Hq'. lia.
  - destruct H as (q0 & buf0 & Hl & He & Hrun & Hcase); auto; [lia| |].
    { rewrite <- Zminus_mod_idemp_l, Hmod. reflexivity. }
    exists q0, buf0. repeat split; try apply Hl; auto.
    assert (Hno : ~ fits jpeg_Encode img maxKB0 quality).
    { intros (b & Hb & Hk). unfold kib in Hk. rewrite Heq0 in Hb.
      injection Hb as <-. lia. }
    destruct Hcase as [[Hk Hfirst]|[-> Hnone]]; [left|right]; split; auto.
    + intros q' Hl' Hrange.
      destruct (level_step quality q' Hmod (proj2 Hl') ltac:(lia)) as [Hle| ->];
        [apply Hfirst; auto; lia|exact Hno].
    + intros q' Hl' Hrange.
      destruct (level_step quality q' Hmod (proj2 Hl') Hrange) as [Hle| ->];
        [apply Hnone; auto|exact Hno].
  - unfold os_Create in Heq. rewrite os_WriteFile_unlocked in Heq by auto.
    discriminate.
  - unfold os_Create in Heq0. rewrite os_WriteFile_unlocked in Heq0 by auto.
    injection Heq0 as <-.
    exists 20, buf. repeat split; try lia; auto.
    + rewrite os_WriteFile_unlocked by auto. now rewrite written_twice.
    + right. split; auto. intros q' [Hl' _] Hle. lia.
  - destruct (Henc 20) as [b Hb]; [split; [lia|reflexivity]|congruence].
Qed.

Lemma kib_bound buf budget :
  kib buf <= budget -> Z.of_nat (String.length buf) <= budget * 1024 + 1023.
Proof.
  unfold kib. intros Hk.
  rewrite Z.quot_div_nonneg in Hk by lia.
  pose proof (Z.mul_div_le (Z.of_nat (String.length buf)) 1024 ltac:(lia)).
  pose proof (Z.mod_pos_bound (Z.of_nat (String.length buf)) 1024 ltac:(lia)).
  pose proof (Z.div_mod (Z.of_nat (String.length buf)) 1024 ltac:(lia)).
  lia.
Qed.

(** C1 (as amended): when the encoder accepts the image at every level and
    the destination can be written, SmartCompress returns no error and
    leaves at [outPath] the encoder's output for one level of 95, 90, ...,
    20.  If the quality-20 encoding measures at most [budget] KiB (integer
    division), the output is the first level in descending order whose
    size in KiB is at most [budget]; its size is at most
    [budget * 1024 + 1023] bytes.  If no level passes, the output is the
    quality-20 encoding. *)
Theorem SmartCompress_budget img outPath budget fs :
  (forall q, level q -> is_Some (jpeg_Encode img q)) ->
  outPath ∉ fs_locked fs ->
  exists q buf,
    level q /\ jpeg_Encode img q = Some buf /\
    SmartCompress jpeg_Encode img outPath budget fs
      = (None, written fs outPath buf) /\
    (fits jpeg_Encode img budget 20 ->
       kib buf <= budget /\
       Z.of_nat (String.length buf) <= budget * 1024 + 1023 /\
       forall q', level q' -> q < q' -> ~ fits jpeg_Encode img budget q') /\
    ((forall q', level q' -> ~ fits jpeg_Encode img budget q') -> q = 20) /\
    ((forall q' b, jpeg_Encode img q' = Some b -> b <> EmptyString) ->
       buf <> EmptyString).
Proof.
  intros Henc Hlock.
  destruct (SmartCompress_from_scan img outPath budget fs 95)
    as (q & buf & Hl & He & Hrun & Hcase); auto; try lia.
  exists q, buf. repeat split; try apply Hl; auto.
  - destruct Hcase as [[Hk _]|[_ Hnone]]; auto.
    exfalso. apply (Hnone 20); auto; [split; [lia|reflexivity]|lia].
  - apply kib_bound.
    destruct Hcase as [[Hk _]|[_ Hnone]]; auto.
    exfalso. apply (Hnone 20); auto; [split; [lia|reflexivity]|lia].
  - intros q' Hl' Hlt.
    destruct Hcase as [[_ Hfirst]|[_ Hnone]].
    + apply Hfirst; auto. destruct Hl'; lia.
    + apply Hnone; auto. destruct Hl'; lia.
  - intros Hnone. destruct Hcase as [[Hk _]|[-> _]]; auto.
    exfalso. apply (Hnone q Hl). exists buf. auto.
  - intros Hne. eapply Hne, He.
Qed.

(** The two ways SmartCompress returns an error: the encoder refuses the
    image, or the destination cannot be written. *)
Lemma SmartCompress_encoder_error img outPath budget fs :
  jpeg_Encode img 95 = None ->
  SmartCompress jpeg_Encode img outPath budget fs = (Some ErrEncode, fs).
Proof.
  intros Henc. unfold SmartCompress. simp SmartCompress_from.
  destruct (Z_le_dec minQuality 95) as [l|Hn]; [|unfold minQuality in Hn; lia].
  simpl. rewrite Henc. reflexivity.
Qed.

Lemma SmartCompress_write_error img outPath budget fs buf :
  jpeg_Encode img 95 = Some buf -> kib buf <= budget ->
  outPath ∈ fs_locked fs ->
  SmartCompress jpeg_Encode img outPath budget fs = (Some ErrIO, fs).
Proof.
  intros Henc Hk Hlock. unfold SmartCompress. simp SmartCompress_from.
  destruct (Z_le_dec minQuality 95) as [l|Hn]; [|unfold minQuality in Hn; lia].
  simpl. rewrite Henc. simpl.
  assert (Hfit : (Z.of_nat (String.length buf) ÷ 1024 <=? budget) = true).
  { apply Z.leb_le. exact Hk. }
  rewrite Hfit. simpl. unfold os_WriteFile.
  destruct (decide (outPath ∈ fs_locked fs)); [reflexivity|contradiction].
Qed.

End CompressFacts.

Lemma SmartCompress_budget_witness :
  exists q buf,
    level q /\ example_encode tt q = Some buf /\
    SmartCompress example_encode tt "out.jpg" 1 example_fs
      = (None, written example_fs "out.jpg" buf) /\
    (fits example_encode tt 1 20 ->
       kib buf <= 1 /\
       Z.of_nat (String.length buf) <= 1 * 1024 + 1023 /\
       forall q', level q' -> q < q' -> ~ fits example_encode tt 1 q') /\
    ((forall q', level q' -> ~ fits example_encode tt 1 q') -> q = 20) /\
    ((forall q' b, example_encode tt q' = Some b -> b <> EmptyString) ->
       buf <> EmptyString).
Proof.
  apply (SmartCompress_budget example_encode tt "out.jpg" 1 example_fs).
  - intros q _. eexists. reflexivity.
  - apply not_elem_of_empty.
Defined.

(** C1 (as stated) fails: an image whose encodings stay between 1 and 2 KiB
    has size 1 KiB at quality 20 by the program's measure, so a budget of 1
    is admissible; the level-95 encoding of 1475 bytes is accepted and
    written, which is more than 1 * 1024 bytes. *)
Lemma SmartCompress_exceeds_budget :
  exists buf20 out,
    example_encode tt 20 = Some buf20 /\ kib buf20 <= 1 /\
    file_at (snd (SmartCompress example_encode tt "out.jpg" 1 example_fs))
      "out.jpg" = Some out /\
    fst (SmartCompress example_encode tt "out.jpg" 1 example_fs) = None /\
    1 * 1024 < Z.of_nat (String.length out).
Proof.
  eexists. eexists.
  split; [reflexivity|]. split; [vm_compute; discriminate|].
  split; [vm_compute; reflexivity|]. split; [reflexivity|].
  vm_compute. reflexivity.
Qed.

(** ** removeLabelFromFile *)

Section LabelFileFacts.
Variable TrimSpace : string -> string.
Hypothesis TrimSpace_empty : TrimSpace EmptyString = EmptyString.

Lemma remove_fold_deleted targetRaw lines acc :
  fold_left (remove_step TrimSpace targetRaw) lines (acc, true)
  = (acc ++ drop_blank TrimSpace lines, true).
Proof.
  revert acc. induction lines as [|l rest IH]; intros acc; simpl.
  - now rewrite app_nil_r.
  - unfold is_blank. destruct (String.eqb (TrimSpace l) EmptyString); simpl.
    + apply IH.
    + rewrite IH. now rewrite <- app_assoc.
Qed.

Lemma remove_fold targetRaw lines acc :
  fst (fold_left (remove_step TrimSpace targetRaw) lines (acc, false))
  = acc ++ drop_blank TrimSpace (delete_first_match TrimSpace targetRaw lines).
Proof.
  revert acc. induction lines as [|l rest IH]; intros acc; simpl.
  - now rewrite app_nil_r.
  - unfold matches.
    destruct (String.eqb (TrimSpace l) (TrimSpace targetRaw)); simpl.
    + now rewrite remove_fold_deleted.
    + unfold is_blank.
      destruct (String.eqb (TrimSpace l) EmptyString); simpl.
      * apply IH.
      * rewrite IH. now rewrite <- app_assoc.
Qed.

(** The loop of the source computes what the description says. *)
Lemma remove_line_refines content targetRaw :
  remove_line TrimSpace content targetRaw
  = spec_remove_line TrimSpace content targetRaw.
Proof.
  unfold remove_line, spec_remove_line.
  pose proof (remove_fold targetRaw (strings_Split_nl content) []) as Hf.
  destruct (fold_left _ _ _) as [newLines deleted]. simpl in Hf.
  now rewrite Hf.
Qed.

Lemma delete_first_match_cases targetRaw lines :
  (Forall (fun l => matches TrimSpace targetRaw l = false) lines /\
   delete_first_match TrimSpace targetRaw lines = lines)
  \/ exists pre l post,
       lines = pre ++ l :: post /\
       Forall (fun l' => matches TrimSpace targetRaw l' = false) pre /\
       matches TrimSpace targetRaw l = true /\
       delete_first_match TrimSpace targetRaw lines = pre ++ post.
Proof.
  induction lines as [|l rest IH]; simpl.
  - left. split; [constructor|reflexivity].
  - destruct (matches TrimSpace targetRaw l) eqn:Hm.
    + right. exists [], l, rest. repeat split; auto.
    + destruct IH as [[Hall Heq]|(pre & l' & post & -> & Hpre & Hl' & Heq)].
      * left. split; [constructor; auto|now rewrite Heq].
      * right. exists (l :: pre), l', post. repeat split; auto.
        simpl. now rewrite Heq.
Qed.

Lemma last_char_app x y :
  last_char (x +:+ y)
  = match last_char y with Some c => Some c | None => last_char x end.
Proof.
  induction x as [|c x IH].
  - change (EmptyString +:+ y) with y. simpl.
    destruct (last_char y); reflexivity.
  - change (String c x +:+ y) with (String c (x +:+ y)). simpl.
    rewrite IH. destruct (last_char y); reflexivity.
Qed.

Lemma last_char_none s : last_char s = None -> s = EmptyString.
Proof.
  destruct s as [|c s]; simpl; [reflexivity|].
  destruct (last_char s); discriminate.
Qed.

Lemma split_last_char s :
  Forall (fun l => last_char l <> Some newline) (strings_Split_nl s).
Proof.
  induction s as [|c s IH]; simpl.
  - constructor; [discriminate|constructor].
  - destruct (Ascii.eqb c newline) eqn:Hc.
    + constructor; [discriminate|exact IH].
    + destruct (strings_Split_nl s) as [|l ls].
      * constructor; [|constructor]. simpl. intros [= ->].
        now rewrite Ascii.eqb_refl in Hc.
      * inversion IH as [|? ? Hl Hls]; subst. constructor; auto.
        simpl. destruct (last_char l) eqn:El; auto.
        intros [= ->]. now rewrite Ascii.eqb_refl in Hc.
Qed.

Lemma split_nonempty s : strings_Split_nl s <> [].
Proof.
  destruct s as [|c s]; simpl; [discriminate|].
  destruct (Ascii.eqb c newline); [discriminate|].
  destruct (strings_Split_nl s); discriminate.
Qed.

Lemma join_last_char lines :
  Forall (fun l => last_char l <> Some newline /\ l <> EmptyString) lines ->
  last_char (strings_Join lines nl) <> Some newline.
Proof.
  induction lines as [|a rest IH]; intros Hall.
  - discriminate.
  - inversion Hall as [|? ? [Ha Hne] Hrest]; subst.
    destruct rest as [|b rest']; [exact Ha|].
    change (strings_Join (a :: b :: rest') nl)
      with (a +:+ nl +:+ strings_Join (b :: rest') nl).
    rewrite !last_char_app.
    specialize (IH Hrest).
    destruct (last_char (strings_Join (b :: rest') nl)) eqn:El; [exact IH|].
    apply last_char_none in El.
    inversion Hrest as [|? ? [_ Hb] _]; subst.
    exfalso. destruct rest' as [|c rest'']; simpl in El.
    + contradiction.
    + destruct b; [contradiction|discriminate].
Qed.

Lemma delete_first_match_incl targetRaw lines l :
  In l (delete_first_match TrimSpace targetRaw lines) -> In l lines.
Proof.
  induction lines as [|a rest IH]; simpl; auto.
  destruct (matches TrimSpace targetRaw a); simpl; tauto.
Qed.

Lemma delete_first_match_length targetRaw lines :
  (length lines - 1 <= length (delete_first_match TrimSpace targetRaw lines)
   <= length lines)%nat.
Proof.
  induction lines as [|a rest IH]; simpl; [lia|].
  destruct (matches TrimSpace targetRaw a); simpl; lia.
Qed.

(** C10: removing a line rewrites the label file (an unreadable one counts
    as empty) with the lines that remain after deleting at most one line,
    the first whose trimmed text equals the trimmed target, and dropping
    every line that is blank after trimming; the remaining lines are
    joined by single newlines and the new content does not end in a
    newline. *)
Theorem removeLabelFromFile_rewrites labelPath targetRaw fs :
  labelPath ∉ fs_locked fs ->
  let lines := strings_Split_nl (default EmptyString (os_ReadFile fs labelPath)) in
  exists kept,
    ((Forall (fun l => matches TrimSpace targetRaw l = false) lines /\
      kept = lines)
     \/ exists pre l post,
          lines = pre ++ l :: post /\
          Forall (fun l' => matches TrimSpace targetRaw l' = false) pre /\
          matches TrimSpace targetRaw l = true /\
          kept = pre ++ post) /\
    (length lines - 1 <= length kept <= length lines)%nat /\
    let out := strings_Join (drop_blank TrimSpace kept) nl in
    removeLabelFromFile TrimSpace labelPath targetRaw fs
      = written fs labelPath out /\
    last_char out <> Some newline.
Proof.
  intros Hlock lines.
  exists (delete_first_match TrimSpace targetRaw lines).
  split; [|split; [apply delete_first_match_length|]].
  - destruct (delete_first_match_cases targetRaw lines)
      as [[Hall Heq]|(pre & l & post & Hl & Hpre & Hm & Heq)].
    + left. auto.
    + right. exists pre, l, post. auto.
  - split.
    + unfold removeLabelFromFile. rewrite remove_line_refines.
      rewrite os_WriteFile_unlocked by exact Hlock. reflexivity.
    + apply join_last_char. apply List.Forall_forall. intros l Hin.
      unfold drop_blank in Hin. apply List.filter_In in Hin as [Hin Hnb].
      apply delete_first_match_incl in Hin.
      pose proof (split_last_char (default EmptyString (os_ReadFile fs labelPath)))
        as Hsplit.
      rewrite List.Forall_forall in Hsplit. split; [now apply Hsplit|].
      intros ->. unfold is_blank in Hnb. rewrite TrimSpace_empty in Hnb.
      discriminate.
Qed.

End LabelFileFacts.

Lemma removeLabelFromFile_rewrites_witness :
  let lines := strings_Split_nl
      (default EmptyString (os_ReadFile example_label_fs "labels/train/a.txt")) in
  exists kept,
    ((Forall (fun l => matches ascii_TrimSpace
                         " 0 0.500000 0.500000 0.200000 0.200000 " l = false) lines /\
      kept = lines)
     \/ exists pre l post,
          lines = pre ++ l :: post /\
          Forall (fun l' => matches ascii_TrimSpace
                              " 0 0.500000 0.500000 0.200000 0.200000 " l' = false) pre /\
          matches ascii_TrimSpace
            " 0 0.500000 0.500000 0.200000 0.200000 " l = true /\
          kept = pre ++ post) /\
    (length lines - 1 <= length kept <= length lines)%nat /\
    let out := strings_Join (drop_blank ascii_TrimSpace kept) nl in
    removeLabelFromFile ascii_TrimSpace "labels/train/a.txt"
      " 0 0.500000 0.500000 0.200000 0.200000 " example_label_fs
      = written example_label_fs "labels/train/a.txt" out /\
    last_char out <> Some newline.
Proof.
  apply (removeLabelFromFile_rewrites ascii_TrimSpace).
  - reflexivity.
  - apply not_elem_of_empty.
Defined.

(** On the sample file the first line goes, the blank one too, and the
    trailing newline with them. *)
Example removeLabelFromFile_sample :
  file_at (removeLabelFromFile ascii_TrimSpace "labels/train/a.txt"
             " 0 0.500000 0.500000 0.200000 0.200000 " example_label_fs)
    "labels/train/a.txt"
  = Some "1 0.100000 0.100000 0.100000 0.100000".
Proof. vm_compute. reflexivity. Qed.

(** ** ConvertJsonToYolo *)

Section ConvertFacts.
Context {F : Type} {FA : Float64 F}.
Variable json_Unmarshal : string -> option (LabelMeJSON F).
Variable Sprintf_line : Z -> F -> F -> F -> F -> string.

Lemma fold_left_filter {A B : Type} (f : A -> B -> A) (keep : B -> bool) l a :
  (forall a x, keep x = false -> f a x = a) ->
  fold_left f (List.filter keep l) a = fold_left f l a.
Proof.
  intros Hskip. revert a. induction l as [|x l IH]; intros a; simpl; auto.
  destruct (keep x) eqn:Hk; simpl; [apply IH|].
  rewrite (Hskip a x Hk). apply IH.
Qed.

Lemma fold_left_id {A B : Type} (f : A -> B -> A) l a :
  Forall (fun x => forall a, f a x = a) l -> fold_left f l a = a.
Proof.
  intros Hall. revert a. induction Hall as [|x l Hx _ IH]; intros a; simpl; auto.
  rewrite Hx. apply IH.
Qed.

Lemma convert_shape_unmapped imgW imgH classMap lines (shape : LabelMeShape F) :
  classMap !! Label shape = None ->
  convert_shape Sprintf_line imgW imgH classMap lines shape = lines.
Proof. intros Hn. unfold convert_shape. now rewrite Hn. Qed.

Lemma convert_label_unmapped imgW imgH classMap lines (lbl : LabelMeRect F) :
  classMap !! Name lbl = None ->
  convert_label Sprintf_line imgW imgH classMap lines lbl = lines.
Proof. intros Hn. unfold convert_label. now rewrite Hn. Qed.

Lemma not_is_Some_None {A : Type} (o : option A) :
  bool_decide (is_Some o) = false -> o = None.
Proof.
  intros Hb. apply bool_decide_eq_false in Hb.
  destruct o; [exfalso; apply Hb; eauto|reflexivity].
Qed.

Lemma convert_document_recognized imgW imgH classMap (data : LabelMeJSON F) :
  convert_document Sprintf_line imgW imgH classMap (recognized classMap data)
  = convert_document Sprintf_line imgW imgH classMap data.
Proof.
  unfold convert_document, recognized. simpl.
  rewrite (fold_left_filter (convert_shape Sprintf_line imgW imgH classMap)).
  - apply fold_left_filter. intros a x Hx.
    apply convert_label_unmapped, not_is_Some_None, Hx.
  - intros a x Hx. apply convert_shape_unmapped, not_is_Some_None, Hx.
Qed.

(** C5: a shape whose label the class map lacks, polygon or rectangle,
    adds no line to the output, and the conversion of a readable,
    well-formed document returns no error: the result is that of the
    document with those shapes left out, and the empty list when no label
    is recognised. *)
Theorem unmapped_labels_are_dropped fs jsonPath fileBytes data imgW imgH classMap :
  os_ReadFile fs jsonPath = Some fileBytes ->
  json_Unmarshal fileBytes = Some data ->
  (forall lines shape, classMap !! Label shape = None ->
     convert_shape Sprintf_line imgW imgH classMap lines shape = lines) /\
  (forall lines lbl, classMap !! Name lbl = None ->
     convert_label Sprintf_line imgW imgH classMap lines lbl = lines) /\
  ConvertJsonToYolo json_Unmarshal Sprintf_line fs jsonPath imgW imgH classMap
    = (convert_document Sprintf_line imgW imgH classMap (recognized classMap data),
       None) /\
  (Forall (fun s => classMap !! Label s = None) (Shapes data) ->
   Forall (fun r => classMap !! Name r = None) (Labels data) ->
   ConvertJsonToYolo json_Unmarshal Sprintf_line fs jsonPath imgW imgH classMap
     = ([], None)).
Proof.
  intros Hread Hjson.
  split; [intros; now apply convert_shape_unmapped|].
  split; [intros; now apply convert_label_unmapped|].
  unfold ConvertJsonToYolo. rewrite Hread, Hjson.
  split; [now rewrite convert_document_recognized|].
  intros Hs Hl. f_equal. unfold convert_document.
  rewrite (fold_left_id _ (Shapes data)).
  - apply fold_left_id. eapply List.Forall_impl; [|exact Hl].
    intros r Hr a. now apply convert_label_unmapped.
  - eapply List.Forall_impl; [|exact Hs].
    intros s Hsn a. now apply convert_shape_unmapped.
Qed.

Lemma convert_label_mapped imgW imgH classMap lines (lbl : LabelMeRect F) id :
  classMap !! Name lbl = Some id ->
  convert_label Sprintf_line imgW imgH classMap lines lbl
  = lines ++ [yolo_line Sprintf_line imgW imgH id (X1 lbl) (Y1 lbl) (X2 lbl) (Y2 lbl)].
Proof. intros Hid. unfold convert_label, add. now rewrite Hid. Qed.

Lemma convert_shape_app imgW imgH classMap lines (shape : LabelMeShape F) :
  convert_shape Sprintf_line imgW imgH classMap lines shape
  = lines ++ shape_lines Sprintf_line imgW imgH classMap shape.
Proof.
  unfold shape_lines, convert_shape.
  destruct (classMap !! Label shape) as [id|]; [|now rewrite app_nil_r].
  destruct (0 <? Z.of_nat (length (Points shape))); [|now rewrite app_nil_r].
  destruct (fold_left scan_point (Points shape) sentinel) as [[[minX minY] maxX] maxY].
  reflexivity.
Qed.

Lemma convert_label_app imgW imgH classMap lines (lbl : LabelMeRect F) :
  convert_label Sprintf_line imgW imgH classMap lines lbl
  = lines ++ rect_lines Sprintf_line imgW imgH classMap lbl.
Proof.
  unfold rect_lines, convert_label.
  destruct (classMap !! Name lbl) as [id|]; [reflexivity|now rewrite app_nil_r].
Qed.

Lemma fold_left_flat_map {A B : Type} (f : list A -> B -> list A)
  (g : B -> list A) (l : list B) (a : list A) :
  (forall a x, f a x = a ++ g x) -> fold_left f l a = a ++ flat_map g l.
Proof.
  intros Hf. revert a. induction l as [|x l IH]; intros a; simpl.
  - now rewrite app_nil_r.
  - now rewrite IH, Hf, <- app_assoc.
Qed.

(** The output is the concatenation, in document order, of what each
    polygon and then each rectangle adds. *)
Lemma convert_document_flat imgW imgH classMap (data : LabelMeJSON F) :
  convert_document Sprintf_line imgW imgH classMap data
  = flat_map (shape_lines Sprintf_line imgW imgH classMap) (Shapes data)
    ++ flat_map (rect_lines Sprintf_line imgW imgH classMap) (Labels data).
Proof.
  unfold convert_document.
  rewrite (fold_left_flat_map _ (rect_lines Sprintf_line imgW imgH classMap))
    by (intros; apply convert_label_app).
  rewrite (fold_left_flat_map _ (shape_lines Sprintf_line imgW imgH classMap))
    by (intros; apply convert_shape_app).
  reflexivity.
Qed.

Lemma ConvertJsonToYolo_flat fs jsonPath fileBytes data imgW imgH classMap :
  os_ReadFile fs jsonPath = Some fileBytes ->
  json_Unmarshal fileBytes = Some data ->
  ConvertJsonToYolo json_Unmarshal Sprintf_line fs jsonPath imgW imgH classMap
  = (flat_map (shape_lines Sprintf_line imgW imgH classMap) (Shapes data)
     ++ flat_map (rect_lines Sprintf_line imgW imgH classMap) (Labels data),
     None).
Proof.
  intros Hread Hjson. unfold ConvertJsonToYolo.
  now rewrite Hread, Hjson, convert_document_flat.
Qed.

Lemma scan_short_points (points : list (list F)) b :
  Forall short_point points -> fold_left scan_point points b = b.
Proof.
  intros Hall. apply fold_left_id. eapply List.Forall_impl; [|exact Hall].
  intros p Hp [[[minX minY] maxX] maxY]. unfold short_point in Hp.
  destruct p as [|p0 [|p1 p]]; simpl in *; try reflexivity. lia.
Qed.

Lemma convert_shape_short_points imgW imgH classMap lines (shape : LabelMeShape F) id :
  classMap !! Label shape = Some id ->
  Points shape <> [] ->
  Forall short_point (Points shape) ->
  convert_shape Sprintf_line imgW imgH classMap lines shape
  = lines ++ [yolo_line Sprintf_line imgW imgH id
                f_MaxFloat64 f_MaxFloat64 f_neg_MaxFloat64 f_neg_MaxFloat64].
Proof.
  intros Hid Hne Hshort. unfold convert_shape. rewrite Hid.
  destruct (Points shape) as [|p ps] eqn:Hp; [contradiction|].
  change (0 <? Z.of_nat (length (p :: ps))) with true. cbv iota.
  rewrite scan_short_points by exact Hshort. reflexivity.
Qed.

End ConvertFacts.

Lemma unmapped_labels_are_dropped_witness :
  (forall lines (shape : LabelMeShape float),
     example_classMap !! Label shape = None ->
     convert_shape example_Sprintf 100 50 example_classMap lines shape = lines) /\
  (forall lines (lbl : LabelMeRect float),
     example_classMap !! Name lbl = None ->
     convert_label example_Sprintf 100 50 example_classMap lines lbl = lines) /\
  ConvertJsonToYolo example_unmarshal example_Sprintf example_json_fs "a.json"
      100 50 example_classMap
    = (convert_document example_Sprintf 100 50 example_classMap
         (recognized example_classMap example_unknown_doc), None) /\
  (Forall (fun s => example_classMap !! Label s = None) (Shapes example_unknown_doc) ->
   Forall (fun r => example_classMap !! Name r = None) (Labels example_unknown_doc) ->
   ConvertJsonToYolo example_unmarshal example_Sprintf example_json_fs "a.json"
       100 50 example_classMap
     = ([], None)).
Proof.
  apply (unmapped_labels_are_dropped (F:=float) example_unmarshal example_Sprintf
           example_json_fs "a.json" "unknown" example_unknown_doc 100 50
           example_classMap).
  - reflexivity.
  - reflexivity.
Defined.

(** ** binary64: converting a positive integer *)

Section IeeeFacts.

Lemma digits2_bounds (p : positive) :
  2 ^ (Z.pos (digits2_pos p) - 1) <= Z.pos p < 2 ^ Z.pos (digits2_pos p).
Proof.
  induction p as [p IH|p IH|]; simpl digits2_pos.
  - rewrite Pos2Z.inj_succ.
    replace (Z.succ (Z.pos (digits2_pos p)) - 1) with (Z.succ (Z.pos (digits2_pos p) - 1)) by lia.
    rewrite !Z.pow_succ_r by lia. lia.
  - rewrite Pos2Z.inj_succ.
    replace (Z.succ (Z.pos (digits2_pos p)) - 1) with (Z.succ (Z.pos (digits2_pos p) - 1)) by lia.
    rewrite !Z.pow_succ_r by lia. lia.
  - simpl. lia.
Qed.

Lemma digits2_le (p q : positive) :
  Z.pos p <= Z.pos q + 1 -> Z.pos (digits2_pos p) <= Z.pos (digits2_pos q) + 1.
Proof.
  intros Hle.
  pose proof (digits2_bounds p) as [Hp _]. pose proof (digits2_bounds q) as [_ Hq].
  assert (H : 2 ^ (Z.pos (digits2_pos p) - 1) < 2 ^ (Z.pos (digits2_pos q) + 1)).
  { rewrite (Z.pow_add_r 2 _ 1) by lia. change (2 ^ 1) with 2. lia. }
  apply Z.pow_lt_mono_r_iff in H; lia.
Qed.

Lemma shr_1_m (mrs : shr_record) :
  0 <= shr_m mrs -> shr_m (shr_1 mrs) = shr_m mrs / 2.
Proof.
  destruct mrs as [m r s]. simpl. intros Hm.
  rewrite <- Z.div2_div.
  destruct m as [|[p|p|]|p]; try reflexivity; lia.
Qed.

Lemma iter_shr_m (n : positive) (mrs : shr_record) :
  0 <= shr_m mrs ->
  shr_m (SpecFloat.iter_pos shr_1 n mrs) = shr_m mrs / 2 ^ Z.pos n.
Proof.
  revert mrs. induction n as [n IH|n IH|]; intros mrs Hm; simpl SpecFloat.iter_pos.
  - assert (H1 : 0 <= shr_m (shr_1 mrs)).
    { rewrite shr_1_m by exact Hm. apply Z.div_pos; lia. }
    assert (H2 : 0 <= shr_m (SpecFloat.iter_pos shr_1 n (shr_1 mrs))).
    { rewrite IH by exact H1. apply Z.div_pos; [lia|]. apply Z.pow_pos_nonneg; lia. }
    rewrite IH by exact H2. rewrite IH by exact H1. rewrite shr_1_m by exact Hm.
    rewrite !Z.div_div by (try apply Z.pow_pos_nonneg; try (apply Z.pow_nonzero); lia).
    f_equal. replace (Z.pos n~1) with (1 + Z.pos n + Z.pos n) by lia.
    rewrite !Z.pow_add_r by lia. change (2 ^ 1) with 2. ring.
  - assert (H2 : 0 <= shr_m (SpecFloat.iter_pos shr_1 n mrs)).
    { rewrite IH by exact Hm. apply Z.div_pos; [lia|]. apply Z.pow_pos_nonneg; lia. }
    rewrite IH by exact H2. rewrite IH by exact Hm.
    rewrite Z.div_div by (try apply Z.pow_pos_nonneg; try (apply Z.pow_nonzero); lia).
    f_equal. replace (Z.pos n~0) with (Z.pos n + Z.pos n) by lia.
    now rewrite Z.pow_add_r by lia.
  - rewrite shr_1_m by exact Hm. reflexivity.
Qed.

(** Shifting a positive mantissa by fewer bits than it has digits leaves
    a positive mantissa. *)
Lemma shr_positive (mrs : shr_record) (e n : Z) (p : positive) :
  shr_m mrs = Z.pos p -> n < Z.pos (digits2_pos p) ->
  exists mrs' p',
    shr mrs e n = (mrs', e + Z.max 0 n) /\ shr_m mrs' = Z.pos p' /\
    Z.pos p' <= Z.pos p.
Proof.
  intros Hm Hn. destruct n as [|k|k].
  - exists mrs, p. simpl. rewrite Z.add_0_r. auto with zarith.
  - pose proof (iter_shr_m k mrs ltac:(rewrite Hm; lia)) as Hit.
    rewrite Hm in Hit.
    pose proof (digits2_bounds p) as [Hlow _].
    assert (Hpow : 2 ^ Z.pos k <= Z.pos p).
    { apply Z.le_trans with (2 ^ (Z.pos (digits2_pos p) - 1)); [|exact Hlow].
      apply Z.pow_le_mono_r; lia. }
    assert (Hk : 0 < 2 ^ Z.pos k) by (apply Z.pow_pos_nonneg; lia).
    assert (Hq : 1 <= Z.pos p / 2 ^ Z.pos k).
    { apply Z.div_le_lower_bound; lia. }
    assert (Hq' : Z.pos p / 2 ^ Z.pos k <= Z.pos p).
    { apply Z.div_le_upper_bound; [lia|]. nia. }
    destruct (Z.pos p / 2 ^ Z.pos k) as [|p'|p'] eqn:Hdiv; try lia.
    exists (SpecFloat.iter_pos shr_1 k mrs), p'. simpl.
    rewrite Z.max_r by lia. auto.
  - exists mrs, p. simpl. rewrite Z.add_0_r. auto with zarith.
Qed.

Lemma shr_fexp_positive (p : positive) (e : Z) :
  -1074 <= e ->
  exists mrs' p' e',
    shr_fexp prec emax (Z.pos p) e loc_Exact = (mrs', e') /\
    shr_m mrs' = Z.pos p' /\ Z.pos p' <= Z.pos p /\
    e <= e' <= e + Z.pos (digits2_pos p).
Proof.
  intros He. unfold shr_fexp. simpl Zdigits2.
  set (n := fexp prec emax (Z.pos (digits2_pos p) + e) - e).
  assert (Hn : n < Z.pos (digits2_pos p)).
  { unfold n, fexp, SpecFloat.emin, prec, emax. lia. }
  destruct (shr_positive (shr_record_of_loc (Z.pos p) loc_Exact) e n p
              eq_refl Hn) as (mrs' & p' & Hshr & Hm & Hle).
  exists mrs', p', (e + Z.max 0 n). repeat split; auto; lia.
Qed.

Lemma round_nearest_even_positive (p : positive) (l : location) :
  exists p', round_nearest_even (Z.pos p) l = Z.pos p' /\ Z.pos p' <= Z.pos p + 1.
Proof.
  destruct l as [|[| |]]; unfold round_nearest_even.
  - exists p. lia.
  - destruct (Z.even (Z.pos p)).
    + exists p. lia.
    + exists (p + 1)%positive. lia.
  - exists p. lia.
  - exists (p + 1)%positive. lia.
Qed.

Lemma binary_round_aux_finite (sx : bool) (p : positive) (e : Z) :
  -1074 <= e -> e + 2 * Z.pos (digits2_pos p) + 1 <= 971 ->
  exists m' e',
    binary_round_aux prec emax sx (Z.pos p) e loc_Exact = S754_finite sx m' e'.
Proof.
  intros Hlo Hhi. unfold binary_round_aux.
  destruct (shr_fexp_positive p e Hlo) as (mrs1 & p1 & e1 & -> & Hm1 & Hle1 & He1).
  rewrite Hm1.
  destruct (round_nearest_even_positive p1 (loc_of_shr_record mrs1))
    as (p2 & -> & Hle2).
  destruct (shr_fexp_positive p2 e1 ltac:(lia)) as (mrs2 & p3 & e2 & -> & Hm2 & Hle3 & He2).
  rewrite Hm2.
  pose proof (digits2_le p2 p ltac:(lia)) as Hd.
  assert (Hfit : (e2 <=? emax - prec) = true).
  { apply Z.leb_le. unfold emax, prec. lia. }
  rewrite Hfit. eauto.
Qed.

Lemma digits2_iter_xO (p d : positive) :
  Z.pos (digits2_pos (Pos.iter xO p d)) = Z.pos (digits2_pos p) + Z.pos d.
Proof.
  induction d as [|d IH] using Pos.peano_ind.
  - simpl. lia.
  - rewrite Pos.iter_succ. simpl digits2_pos. lia.
Qed.

Lemma binary_normalize_positive (p : positive) :
  Z.pos p < 2 ^ 63 ->
  exists m e, binary_normalize prec emax (Z.pos p) 0 false = S754_finite false m e.
Proof.
  intros Hp. unfold binary_normalize, binary_round.
  assert (Hd : Z.pos (digits2_pos p) <= 63).
  { pose proof (digits2_bounds p) as [Hlow _].
    assert (H : 2 ^ (Z.pos (digits2_pos p) - 1) < 2 ^ 63) by lia.
    apply Z.pow_lt_mono_r_iff in H; lia. }
  unfold shl_align.
  rewrite Z.add_0_r, Z.sub_0_r.
  assert (Hf : fexp prec emax (Z.pos (digits2_pos p)) = Z.pos (digits2_pos p) - 53).
  { unfold fexp, SpecFloat.emin, prec, emax. lia. }
  rewrite Hf.
  destruct (Z.pos (digits2_pos p) - 53) as [|k|k] eqn:Hk.
  - apply binary_round_aux_finite; lia.
  - apply binary_round_aux_finite; lia.
  - apply binary_round_aux_finite; [lia|]. rewrite digits2_iter_xO. lia.
Qed.

(** [float64(n)] of a positive [int] is a positive finite number. *)
Lemma ieee_of_int_positive (z : Z) :
  0 < z <= MaxInt64 ->
  exists m e, Prim2SF (ieee_of_int z) = S754_finite false m e.
Proof.
  unfold MaxInt64. intros Hz. unfold ieee_of_int.
  assert (Hc : (0 <=? z) && (z <? 2 ^ 63) = true).
  { apply andb_true_intro. split; [apply Z.leb_le|apply Z.ltb_lt]; lia. }
  rewrite Hc, of_uint63_spec, Uint63.of_Z_spec.
  rewrite Z.mod_small by (change wB with (2 ^ 63); lia).
  destruct z as [|p|p]; try lia.
  apply binary_normalize_positive. lia.
Qed.

Lemma Prim2SF_inj (x y : float) : Prim2SF x = Prim2SF y -> x = y.
Proof.
  intros H. rewrite <- (SF2Prim_Prim2SF x), <- (SF2Prim_Prim2SF y). now rewrite H.
Qed.

(** Minus infinity divided by the [float64] of a positive [int]. *)
Lemma neg_infinity_div_positive (z : Z) :
  0 < z <= MaxInt64 ->
  PrimFloat.div neg_infinity (ieee_of_int z) = neg_infinity.
Proof.
  intros Hz. destruct (ieee_of_int_positive z Hz) as (m & e & Hfin).
  apply Prim2SF_inj. rewrite div_spec, Hfin. reflexivity.
Qed.

End IeeeFacts.

(** ** Rectangles and degenerate polygons *)

Lemma exact_width_negative (L : Z) (a b : Q) :
  0 < L -> (b < a)%Q -> ((b - a) / inject_Z L < 0)%Q.
Proof.
  intros HL Hba. apply Qlt_shift_div_r.
  - change 0%Q with (inject_Z 0). rewrite <- Zlt_Qlt. exact HL.
  - lra.
Qed.

(** C7: a rectangle whose label is in the class map adds exactly one line,
    formatted from the centre and size that the one formula gives for its
    four coordinates, whatever their order; no comparison of [x1] with
    [x2] or of [y1] with [y2] is made, and the conversion of a readable,
    well-formed document returns these lines without an error.  In exact
    arithmetic an inverted rectangle gets a negative width (height); in
    binary64 the rectangle from (30, 20) to (10, 10) in a 100 by 50 image
    gets width and height -0.2. *)
Theorem inverted_rectangle_passes_through
  (classMap : gmap string Z) (name : string) (id imgW imgH : Z) :
  classMap !! name = Some id -> 0 < imgW -> 0 < imgH ->
  (forall Sprintf_line lines (x1 y1 x2 y2 : float),
     convert_label Sprintf_line imgW imgH classMap lines (mkRect name x1 y1 x2 y2)
     = lines ++ [yolo_line Sprintf_line imgW imgH id x1 y1 x2 y2] /\
     rect_lines Sprintf_line imgW imgH classMap (mkRect name x1 y1 x2 y2)
     = [yolo_line Sprintf_line imgW imgH id x1 y1 x2 y2]) /\
  (forall json_Unmarshal Sprintf_line fs jsonPath fileBytes (data : LabelMeJSON float),
     os_ReadFile fs jsonPath = Some fileBytes ->
     json_Unmarshal fileBytes = Some data ->
     ConvertJsonToYolo json_Unmarshal Sprintf_line fs jsonPath imgW imgH classMap
     = (flat_map (shape_lines Sprintf_line imgW imgH classMap) (Shapes data)
        ++ flat_map (rect_lines Sprintf_line imgW imgH classMap) (Labels data),
        None)) /\
  (forall Sprintf_line lines (x1 y1 x2 y2 : Q),
     convert_label Sprintf_line imgW imgH classMap lines (mkRect name x1 y1 x2 y2)
     = lines ++ [yolo_line Sprintf_line imgW imgH id x1 y1 x2 y2] /\
     let '(_, _, nw, nh) := normalize imgW imgH x1 y1 x2 y2 in
     ((x2 < x1)%Q -> (nw < 0)%Q) /\ ((y2 < y1)%Q -> (nh < 0)%Q)) /\
  (let '(_, _, nw, nh) := normalize (F:=float) 100 50 30%float 20%float 10%float 10%float in
   PrimFloat.ltb nw 0%float = true /\ PrimFloat.ltb nh 0%float = true).
Proof.
  intros Hid HW HH. split; [|split; [|split]].
  - intros Sprintf_line lines x1 y1 x2 y2.
    split; [now apply convert_label_mapped|].
    unfold rect_lines. now rewrite (convert_label_mapped _ _ _ _ _ _ id).
  - intros json_Unmarshal Sprintf_line fs jsonPath fileBytes data Hread Hjson.
    now apply ConvertJsonToYolo_flat with (fileBytes := fileBytes).
  - intros Sprintf_line lines x1 y1 x2 y2.
    split; [now apply convert_label_mapped|].
    unfold normalize. simpl. split; intros Hlt; now apply exact_width_negative.
  - vm_compute. split; reflexivity.
Qed.

Lemma inverted_rectangle_passes_through_witness :
  (forall Sprintf_line lines (x1 y1 x2 y2 : float),
     convert_label Sprintf_line 100 50 example_classMap lines (mkRect "x" x1 y1 x2 y2)
     = lines ++ [yolo_line Sprintf_line 100 50 0 x1 y1 x2 y2] /\
     rect_lines Sprintf_line 100 50 example_classMap (mkRect "x" x1 y1 x2 y2)
     = [yolo_line Sprintf_line 100 50 0 x1 y1 x2 y2]) /\
  (forall json_Unmarshal Sprintf_line fs jsonPath fileBytes (data : LabelMeJSON float),
     os_ReadFile fs jsonPath = Some fileBytes ->
     json_Unmarshal fileBytes = Some data ->
     ConvertJsonToYolo json_Unmarshal Sprintf_line fs jsonPath 100 50 example_classMap
     = (flat_map (shape_lines Sprintf_line 100 50 example_classMap) (Shapes data)
        ++ flat_map (rect_lines Sprintf_line 100 50 example_classMap) (Labels data),
        None)) /\
  (forall Sprintf_line lines (x1 y1 x2 y2 : Q),
     convert_label Sprintf_line 100 50 example_classMap lines (mkRect "x" x1 y1 x2 y2)
     = lines ++ [yolo_line Sprintf_line 100 50 0 x1 y1 x2 y2] /\
     let '(_, _, nw, nh) := normalize 100 50 x1 y1 x2 y2 in
     ((x2 < x1)%Q -> (nw < 0)%Q) /\ ((y2 < y1)%Q -> (nh < 0)%Q)) /\
  (let '(_, _, nw, nh) := normalize (F:=float) 100 50 30%float 20%float 10%float 10%float in
   PrimFloat.ltb nw 0%float = true /\ PrimFloat.ltb nh 0%float = true).
Proof.
  apply (inverted_rectangle_passes_through example_classMap "x" 0 100 50);
    reflexivity.
Defined.

Lemma sentinel_box_ieee (imgW imgH : Z) :
  0 < imgW <= MaxInt64 -> 0 < imgH <= MaxInt64 ->
  normalize (F:=float) imgW imgH
    f_MaxFloat64 f_MaxFloat64 f_neg_MaxFloat64 f_neg_MaxFloat64
  = (neg_infinity, neg_infinity, neg_infinity, neg_infinity).
Proof.
  intros HW HH. unfold normalize.
  change (f_sub (F:=float) f_neg_MaxFloat64 f_MaxFloat64) with neg_infinity.
  change (f_add (F:=float) f_MaxFloat64 (f_div neg_infinity (f_of_int 2)))
    with neg_infinity.
  change (f_div (F:=float)) with PrimFloat.div.
  change (f_of_int (F:=float)) with ieee_of_int.
  now rewrite !neg_infinity_div_positive.
Qed.

(** C9: a polygon whose label is in the class map and whose point list is
    not empty but holds only points with fewer than two coordinates is not
    skipped; it adds one line, computed from the untouched extremes
    (minimum [+MaxFloat64], maximum [-MaxFloat64]).  In binary64 the
    width [-MaxFloat64 - MaxFloat64] overflows, so width, height and
    centre are all minus infinity; in exact arithmetic the width is
    [-2 * MaxFloat64 / imgW]. *)
Theorem degenerate_polygon_emits_sentinel_box
  (classMap : gmap string Z) (label : string) (id imgW imgH : Z)
  (Sprintf_line : Z -> float -> float -> float -> float -> string)
  (lines : list string) (points : list (list float)) :
  classMap !! label = Some id ->
  points <> [] -> Forall short_point points ->
  0 < imgW <= MaxInt64 -> 0 < imgH <= MaxInt64 ->
  convert_shape Sprintf_line imgW imgH classMap lines (mkShape label points)
  = lines ++ [yolo_line Sprintf_line imgW imgH id
                ieee_MaxFloat64 ieee_MaxFloat64
                (PrimFloat.opp ieee_MaxFloat64) (PrimFloat.opp ieee_MaxFloat64)] /\
  yolo_line Sprintf_line imgW imgH id
      ieee_MaxFloat64 ieee_MaxFloat64
      (PrimFloat.opp ieee_MaxFloat64) (PrimFloat.opp ieee_MaxFloat64)
  = Sprintf_line id neg_infinity neg_infinity neg_infinity neg_infinity /\
  PrimFloat.sub (PrimFloat.opp ieee_MaxFloat64) ieee_MaxFloat64 = neg_infinity /\
  (let '(_, _, nw, nh) :=
     normalize (F:=Q) imgW imgH
       f_MaxFloat64 f_MaxFloat64 f_neg_MaxFloat64 f_neg_MaxFloat64 in
   (nw == - (2 * exact_MaxFloat64) / inject_Z imgW)%Q /\ (nw < 0)%Q /\
   (nh == - (2 * exact_MaxFloat64) / inject_Z imgH)%Q /\ (nh < 0)%Q).
Proof.
  intros Hid Hne Hshort HW HH. split; [|split; [|split]].
  - exact (convert_shape_short_points (F:=float) Sprintf_line imgW imgH classMap
             lines (mkShape label points) id Hid Hne Hshort).
  - unfold yolo_line.
    pose proof (sentinel_box_ieee imgW imgH HW HH) as Hbox.
    change (@f_MaxFloat64 float _) with ieee_MaxFloat64 in Hbox.
    change (@f_neg_MaxFloat64 float _) with (PrimFloat.opp ieee_MaxFloat64) in Hbox.
    now rewrite Hbox.
  - reflexivity.
  - unfold normalize. simpl.
    assert (Hlt : (- exact_MaxFloat64 < exact_MaxFloat64)%Q) by reflexivity.
    split; [|split; [|split]].
    + unfold Qdiv. ring.
    + apply exact_width_negative; [lia|exact Hlt].
    + unfold Qdiv. ring.
    + apply exact_width_negative; [lia|exact Hlt].
Qed.

Lemma degenerate_polygon_emits_sentinel_box_witness :
  convert_shape example_Sprintf 100 50 example_classMap []
    (mkShape "x" [[5]; []]%float)
  = [] ++ [yolo_line example_Sprintf 100 50 0
             ieee_MaxFloat64 ieee_MaxFloat64
             (PrimFloat.opp ieee_MaxFloat64) (PrimFloat.opp ieee_MaxFloat64)] /\
  yolo_line example_Sprintf 100 50 0
      ieee_MaxFloat64 ieee_MaxFloat64
      (PrimFloat.opp ieee_MaxFloat64) (PrimFloat.opp ieee_MaxFloat64)
  = example_Sprintf 0 neg_infinity neg_infinity neg_infinity neg_infinity /\
  PrimFloat.sub (PrimFloat.opp ieee_MaxFloat64) ieee_MaxFloat64 = neg_infinity /\
  (let '(_, _, nw, nh) :=
     normalize (F:=Q) 100 50
       f_MaxFloat64 f_MaxFloat64 f_neg_MaxFloat64 f_neg_MaxFloat64 in
   (nw == - (2 * exact_MaxFloat64) / inject_Z 100)%Q /\ (nw < 0)%Q /\
   (nh == - (2 * exact_MaxFloat64) / inject_Z 50)%Q /\ (nh < 0)%Q).
Proof.
  apply (degenerate_polygon_emits_sentinel_box example_classMap "x" 0 100 50
           example_Sprintf [] [[5]; []]%float).
  - reflexivity.
  - discriminate.
  - repeat constructor.
  - split; [reflexivity|discriminate].
  - split; [reflexivity|discriminate].
Defined.

(** ** Normalisation *)











(** ** Shuffling and splitting *)

Section PartitionFacts.
Context {F : Type} {FA : Float64 F} {RT : Runtime F}.

Lemma swap_Permutation {A : Type} (i j : nat) (l : list A) : swap i j l ≡ₚ l.
Proof.
  unfold swap.
  destruct (l !! i) as [a|] eqn:Hi; [|reflexivity].
  destruct (l !! j) as [b|] eqn:Hj; [|reflexivity].
  exact (Permutation_insert_swap l j i b a Hj Hi).
Qed.

Lemma apply_swaps_Permutation {A : Type} (swaps : list (nat * nat)) (l : list A) :
  apply_swaps swaps l ≡ₚ l.
Proof.
  unfold apply_swaps. revert l.
  induction swaps as [|[i j] swaps IH]; intros l; simpl; [reflexivity|].
  rewrite IH. apply swap_Permutation.
Qed.

Lemma shuffle_Permutation (seed : Z) (tasks : list FilePair) :
  shuffle seed tasks ≡ₚ tasks.
Proof. apply apply_swaps_Permutation. Qed.

Lemma shuffle_length (seed : Z) (tasks : list FilePair) :
  length (shuffle seed tasks) = length tasks.
Proof. apply Permutation_length, shuffle_Permutation. Qed.

Lemma imap_fst {A B : Type} (g : nat -> B) (l : list A) :
  map fst (imap (fun i t => (t, g i)) l) = l.
Proof.
  revert g. induction l as [|x l IH]; intros g; simpl; [reflexivity|].
  f_equal. apply (IH (fun i => g (S i))).
Qed.

Lemma imap_snd {A B : Type} (g : nat -> B) (l : list A) :
  map snd (imap (fun i t => (t, g i)) l) = map g (seq 0 (length l)).
Proof.
  revert g. induction l as [|x l IH]; intros g; simpl; [reflexivity|].
  f_equal. rewrite <- seq_shift, map_map. apply (IH (fun i => g (S i))).
Qed.

Lemma Partition_tasks (cfg : Config F) (now : Z) (tasks : list FilePair) :
  map fst (Partition cfg now tasks) = shuffle now tasks.
Proof. unfold Partition. apply imap_fst. Qed.

Lemma Partition_subsets (cfg : Config F) (now : Z) (tasks : list FilePair) :
  map snd (Partition cfg now tasks)
  = map (subset_of cfg (length tasks)) (seq 0 (length tasks)).
Proof.
  unfold Partition. rewrite imap_snd. now rewrite shuffle_length.
Qed.

Lemma Partition_length (cfg : Config F) (now : Z) (tasks : list FilePair) :
  length (Partition cfg now tasks) = length tasks.
Proof.
  rewrite <- (length_map fst), Partition_tasks. apply shuffle_length.
Qed.

Lemma map_constant {A B : Type} (g : A -> B) (v : B) (l : list A) (n : nat) :
  length l = n -> Forall (fun x => g x = v) l -> map g l = replicate n v.
Proof.
  intros <-. induction 1 as [|x l Hx _ IH]; simpl; [reflexivity|].
  now rewrite Hx, IH.
Qed.



Lemma count_subset_snd (subset : string) (parts : list (FilePair * string)) :
  count_subset subset parts
  = length (List.filter (fun s => String.eqb s subset) (map snd parts)).
Proof.
  unfold count_subset. induction parts as [|[t s] parts IH]; simpl; [reflexivity|].
  destruct (String.eqb s subset); simpl; now rewrite IH.
Qed.

Lemma filter_replicate_same (v : string) (n : nat) :
  List.filter (fun s => String.eqb s v) (replicate n v) = replicate n v.
Proof.
  induction n as [|n IH]; simpl; [reflexivity|].
  now rewrite String.eqb_refl, IH.
Qed.

Lemma filter_replicate_other (v w : string) (n : nat) :
  String.eqb w v = false ->
  List.filter (fun s => String.eqb s v) (replicate n w) = [].
Proof.
  intros Hne. induction n as [|n IH]; simpl; [reflexivity|]. now rewrite Hne.
Qed.


End PartitionFacts.







(** In binary64 the counts follow the rounded product: the stored ratio
    nearest to 0.7 is a little below 0.7, its exact tenfold is below 7,
    but the product rounds to 7 and seven of ten tasks go to train. *)
Example trainC_binary64_rounding :
  trainC (mkConfig "out" false 500 0x1.6666666666666p-1%float 0.25%float
            example_classMap) 10 = 7 /\
  exists q, ieee_value 0x1.6666666666666p-1%float = Some q /\
            Qfloor (inject_Z 10 * q) = 6.
Proof.
  split; [vm_compute; reflexivity|].
  eexists. split; [vm_compute; reflexivity|]. vm_compute. reflexivity.
Qed.

(** ** The worker loop *)

Section RunFacts.
Context {F : Type} {FA : Float64 F} {RT : Runtime F}.
Variable cfg : Config F.
Variable parts : list (FilePair * string).
Variable fs0 : FileSystem.


(** What holds in every state of a run. *)
Record run_inv (s : RunState F) : Prop := {
  inv_assigned : assignments s = take (length (rs_spawned s)) parts;
  inv_indices : map g_idx (rs_spawned s) = seq 0 (length (rs_spawned s));
  inv_bound : (length (rs_spawned s) <= length parts)%nat;
  inv_running : forall g, In g (rs_running s) -> In g (rs_spawned s);
  inv_limit : (length (rs_running s) <= limit_cap)%nat;
  inv_split : map g_idx (rs_running s) ++ rs_completed s
              ≡ₚ seq 0 (length (rs_spawned s));
  inv_effects : (rs_fs s, rs_log s) = replay cfg parts (rs_completed s) fs0;
  inv_returned : rs_returned s = true ->
                 length (rs_spawned s) = length parts /\ rs_running s = []
}.

Lemma run_inv_init : run_inv (run_init fs0).
Proof.
  constructor; simpl; auto; try reflexivity; try lia; try contradiction;
    try (unfold limit_cap; lia); try discriminate.
Qed.

Lemma spawned_lookup (s : RunState F) (g : Goroutine) :
  run_inv s -> In g (rs_spawned s) ->
  parts !! g_idx g = Some (g_task g, g_subset g) /\
  (g_idx g < length (rs_spawned s))%nat.
Proof.
  intros Hinv Hin. apply list_elem_of_In, list_elem_of_lookup in Hin as [k Hk].
  assert (Hidx : g_idx g = k).
  { pose proof (inv_indices s Hinv) as Hi.
    assert (Hm : map g_idx (rs_spawned s) !! k = Some (g_idx g)).
    { change (map g_idx (rs_spawned s)) with (g_idx <$> rs_spawned s).
      now rewrite list_lookup_fmap, Hk. }
    rewrite Hi in Hm. apply lookup_seq in Hm. lia. }
  assert (Hlt : (k < length (rs_spawned s))%nat) by (eapply lookup_lt_Some; eauto).
  split; [|lia]. rewrite Hidx.
  pose proof (inv_assigned s Hinv) as Ha. unfold assignments in Ha.
  assert (Hm : map (fun g => (g_task g, g_subset g)) (rs_spawned s) !! k
               = Some (g_task g, g_subset g)).
  { change (map ?f (rs_spawned s)) with (f <$> rs_spawned s).
    now rewrite list_lookup_fmap, Hk. }
  rewrite Ha in Hm. rewrite lookup_take_lt in Hm by lia. exact Hm.
Qed.

Lemma replay_snoc (order : list nat) (i : nat) t sub :
  parts !! i = Some (t, sub) ->
  replay cfg parts (order ++ [i]) fs0
  = (fst (process_task cfg (length parts) i t sub (fst (replay cfg parts order fs0))),
     snd (replay cfg parts order fs0)
     ++ snd (process_task cfg (length parts) i t sub (fst (replay cfg parts order fs0)))).
Proof.
  intros Hi. unfold replay. rewrite fold_left_app. simpl. now rewrite Hi.
Qed.

Lemma run_inv_step (s s' : RunState F) :
  run_inv s -> step cfg parts s s' -> run_inv s'.
Proof.
  intros Hinv Hstep. destruct Hinv as [Ha Hi Hb Hr Hl Hs He Hret].
  inversion Hstep as [s0 t sub Hlook Hcap Hnot g|s0 r1 g r2 Hrun out|s0 Hall Hrun Hnot];
    subst; constructor; simpl.
  - unfold assignments in *. simpl. rewrite map_app, length_app. simpl.
    rewrite Nat.add_1_r. erewrite take_S_r by exact Hlook. now rewrite Ha.
  - rewrite map_app, length_app. simpl. rewrite Nat.add_1_r, seq_S. now rewrite Hi.
  - rewrite length_app. simpl. apply lookup_lt_Some in Hlook. lia.
  - intros g' Hin. apply in_app_iff in Hin as [Hin|Hin]; apply in_app_iff; auto.
  - rewrite length_app. simpl. unfold limit_cap in *. lia.
  - rewrite map_app, length_app. simpl. rewrite Nat.add_1_r, seq_S. simpl.
    rewrite <- Hs. rewrite <- !app_assoc. apply Permutation_app_head.
    apply Permutation_app_comm.
  - exact He.
  - discriminate.
  - exact Ha.
  - exact Hi.
  - exact Hb.
  - intros g' Hin. apply Hr. rewrite Hrun.
    apply in_app_iff in Hin as [Hin|Hin]; apply in_app_iff; simpl; auto.
  - rewrite Hrun in Hl. rewrite length_app in *. simpl in Hl. lia.
  - rewrite <- Hs, Hrun, !map_app. simpl.
    rewrite <- !app_assoc. apply Permutation_app_head.
    rewrite (Permutation_app_comm (rs_completed s) [g_idx g]). simpl.
    symmetry. apply Permutation_middle.
  - assert (Hg : In g (rs_spawned s)).
    { apply Hr. rewrite Hrun. apply in_app_iff. simpl. auto. }
    destruct (spawned_lookup s g) as [Hlook _]; [constructor; auto|exact Hg|].
    rewrite (replay_snoc _ _ _ _ Hlook), <- He. reflexivity.
  - intros Hret'. destruct (Hret Hret') as [Hall Hnil].
    rewrite Hnil in Hrun. destruct r1; discriminate.
  - exact Ha.
  - exact Hi.
  - exact Hb.
  - contradiction.
  - unfold limit_cap. lia.
  - rewrite Hrun in Hs. exact Hs.
  - exact He.
  - auto.
Qed.

Lemma run_inv_steps_from (s s' : RunState F) :
  run_inv s -> steps cfg parts s s' -> run_inv s'.
Proof.
  intros Hinv Hsteps. induction Hsteps as [s|s1 s2 s3 H12 IH H23]; [exact Hinv|].
  eapply run_inv_step; [apply IH; exact Hinv|exact H23].
Qed.

Lemma run_inv_steps (s : RunState F) :
  steps cfg parts (run_init fs0) s -> run_inv s.
Proof. apply run_inv_steps_from, run_inv_init. Qed.

Lemma steps_trans (s1 s2 s3 : RunState F) :
  steps cfg parts s1 s2 -> steps cfg parts s2 s3 -> steps cfg parts s1 s3.
Proof.
  intros H12 H23. induction H23 as [|s2 s3 s4 H23 IH H34]; [exact H12|].
  eapply steps_step; [apply IH; exact H12|exact H34].
Qed.




Lemma completed_positions (s : RunState F) :
  run_inv s ->
  NoDup (rs_completed s) /\
  Forall (fun i => (i < length parts)%nat) (rs_completed s) /\
  (rs_returned s = true -> rs_completed s ≡ₚ seq 0 (length parts)).
Proof.
  intros Hinv. pose proof (inv_split s Hinv) as Hs.
  pose proof (inv_bound s Hinv) as Hb.
  assert (Hnd : NoDup (map g_idx (rs_running s) ++ rs_completed s)).
  { rewrite Hs. apply NoDup_ListNoDup, List.seq_NoDup. }
  split; [now apply NoDup_app in Hnd as (_ & _ & Hnd)|]. split.
  - apply List.Forall_forall. intros i Hi.
    assert (Hin : In i (seq 0 (length (rs_spawned s)))).
    { apply list_elem_of_In. rewrite <- Hs. apply elem_of_app. right.
      now apply list_elem_of_In. }
    apply in_seq in Hin. lia.
  - intros Hret. destruct (inv_returned s Hinv Hret) as [Hall Hnil].
    rewrite Hnil, Hall in Hs. exact Hs.
Qed.

End RunFacts.

Section ScheduleFacts.
Context {F : Type} {FA : Float64 F} {RT : Runtime F}.

Lemma exec_step (cfg : Config F) parts (a : Action) (s s' : RunState F) :
  exec cfg parts a s = Some s' -> step cfg parts s s'.
Proof.
  destruct a as [|k|]; simpl.
  - destruct (parts !! length (rs_spawned s)) as [[t sub]|] eqn:Hlook; [|discriminate].
    destruct (Nat.ltb_spec (length (rs_running s)) limit_cap); [|discriminate].
    destruct (rs_returned s) eqn:Hret; [discriminate|]. simpl.
    intros [= <-]. now apply step_spawn.
  - destruct (rs_running s !! k) as [g|] eqn:Hk; [|discriminate].
    intros [= <-]. apply step_finish. symmetry. now apply take_drop_middle.
  - destruct (Nat.eqb_spec (length (rs_spawned s)) (length parts)); [|discriminate].
    destruct (Nat.eqb_spec (length (rs_running s)) 0); [|discriminate].
    destruct (rs_returned s) eqn:Hret; [discriminate|]. simpl.
    intros [= <-]. apply step_wait; auto. now apply length_zero_iff_nil.
Qed.

Lemma run_schedule_steps (cfg : Config F) parts acts (s s' : RunState F) :
  run_schedule cfg parts acts s = Some s' -> steps cfg parts s s'.
Proof.
  revert s. induction acts as [|a acts IH]; intros s; simpl.
  - intros [= <-]. constructor.
  - destruct (exec cfg parts a s) as [s1|] eqn:He; [|discriminate].
    intros Hrun. eapply steps_trans; [|apply IH; exact Hrun].
    eapply steps_step; [constructor|]. eapply exec_step; exact He.
Qed.

(** Every schedule yields a state of the run. *)
Lemma scheduled_reachable (cfg : Config F) now tasks fs acts :
  tasks <> [] -> reachable cfg now tasks fs (scheduled cfg now tasks fs acts).
Proof.
  intros Hne. split; [exact Hne|]. unfold scheduled.
  destruct (run_schedule _ _ _ _) as [s'|] eqn:Hrun; simpl.
  - now apply run_schedule_steps in Hrun.
  - constructor.
Qed.

End ScheduleFacts.

(** ** Progress, assignments, failing tasks *)







Section AssignmentFacts.
Context {F : Type} {FA : Float64 F} {RT : Runtime F}.

Lemma Partition_ratios (cfg1 cfg2 : Config F) now tasks :
  trainR cfg1 = trainR cfg2 -> valR cfg1 = valR cfg2 ->
  Partition cfg1 now tasks = Partition cfg2 now tasks.
Proof.
  intros Ht Hv. unfold Partition, subset_of, trainC, valC. now rewrite Ht, Hv.
Qed.

Lemma assignments_returned (cfg : Config F) now tasks fs (s : RunState F) :
  reachable cfg now tasks fs s -> rs_returned s = true ->
  assignments s = Partition cfg now tasks.
Proof.
  intros [_ Hsteps] Hret.
  pose proof (run_inv_steps cfg _ fs s Hsteps) as Hinv.
  rewrite (inv_assigned cfg _ fs s Hinv).
  destruct (inv_returned cfg _ fs s Hinv Hret) as [-> _].
  apply firstn_all.
Qed.

(** C6 (as amended): a run takes no seed from its caller; the generator is
    seeded with the clock reading [time.Now().UnixNano()].  The subsets
    are a function of the task list, the two ratios and that reading: two
    completed runs that agree on them hand the same tasks with the same
    subsets to their goroutines, whatever the schedule, the file system
    and the other settings. *)
Theorem assignments_follow_clock (cfg1 cfg2 : Config F) (now : Z)
  (tasks : list FilePair) (fs1 fs2 : FileSystem) (s1 s2 : RunState F) :
  trainR cfg1 = trainR cfg2 -> valR cfg1 = valR cfg2 ->
  reachable cfg1 now tasks fs1 s1 -> reachable cfg2 now tasks fs2 s2 ->
  rs_returned s1 = true -> rs_returned s2 = true ->
  assignments s1 = Partition cfg1 now tasks /\ assignments s2 = assignments s1.
Proof.
  intros Ht Hv H1 H2 R1 R2.
  rewrite (assignments_returned cfg1 now tasks fs1 s1 H1 R1).
  rewrite (assignments_returned cfg2 now tasks fs2 s2 H2 R2).
  split; [reflexivity|]. symmetry. now apply Partition_ratios.
Qed.



End AssignmentFacts.

Lemma assignments_follow_clock_witness :
  assignments (scheduled example_cfg 1 example_tasks example_run_fs example_schedule)
  = Partition example_cfg 1 example_tasks /\
  assignments (scheduled example_cfg 1 example_tasks example_fs
                 example_schedule_in_order)
  = assignments (scheduled example_cfg 1 example_tasks example_run_fs example_schedule).
Proof.
  apply (assignments_follow_clock example_cfg example_cfg 1 example_tasks
           example_run_fs example_fs).
  - reflexivity.
  - reflexivity.
  - apply scheduled_reachable. discriminate.
  - apply scheduled_reachable. discriminate.
  - vm_compute. reflexivity.
  - vm_compute. reflexivity.
Defined.

(** C6 (as stated) fails: nothing the caller supplies fixes the shuffle.
    Two runs over the same tasks with the same ratios, settings, files and
    schedule differ in their assignments when the clock readings 1 and 2
    seed different shuffles. *)
Lemma assignments_vary_with_clock :
  let s1 := scheduled example_cfg 1 example_tasks example_run_fs example_schedule in
  let s2 := scheduled example_cfg 2 example_tasks example_run_fs example_schedule in
  rs_returned s1 = true /\ rs_returned s2 = true /\
  assignments s1 = [(mkPair "b.jpg" "b.json", "train"); (mkPair "a.jpg" "a.json", "test")] /\
  assignments s2 = [(mkPair "a.jpg" "a.json", "train"); (mkPair "b.jpg" "b.json", "test")] /\
  assignments s1 <> assignments s2.
Proof.
  repeat split; try (vm_compute; reflexivity).
  vm_compute. discriminate.
Qed.


(** The run over a good and a corrupt picture: the good one is copied and
    gets its (empty) label file, the corrupt one leaves no file and calls
    nothing but the progress bar, and the run ends. *)
Example corrupt_picture_run :
  let s := scheduled example_cfg 2 example_tasks example_run_fs example_schedule in
  rs_returned s = true /\
  file_at (rs_fs s) "out/images/train/a.jpg" = Some "picture" /\
  file_at (rs_fs s) "out/labels/train/a.txt" = Some EmptyString /\
  file_at (rs_fs s) "out/images/test/b.jpg" = None /\
  file_at (rs_fs s) "out/labels/test/b.txt" = None /\
  rs_log s = [CallSetValue 1%float;
              CallDirectCopy "a.jpg" "out/images/train/a.jpg";
              CallConvert "a.json";
              CallWriteLabel "out/labels/train/a.txt";
              CallSetValue 0.5%float].
Proof. repeat split; vm_compute; reflexivity. Qed.

(** ** More on SmartCompress and DirectCopy *)

Section CompressFrame.
Context {Image : Type}.
Variable jpeg_Encode : Image -> Z -> option string.

Lemma os_WriteFile_cases fs name data :
  os_WriteFile fs name data = (None, written fs name data)
  \/ os_WriteFile fs name data = (Some ErrIO, fs).
Proof.
  unfold os_WriteFile, written. destruct (decide _); auto.
Qed.

Lemma SmartCompress_from_effect img outPath budget fs q :
  15 <= q <= 95 -> q mod 5 = 0 ->
  (q < 20 -> is_Some (jpeg_Encode img 20)) ->
  (fst (SmartCompress_from jpeg_Encode img outPath budget fs q) = None /\
   exists q0 buf, level q0 /\ jpeg_Encode img q0 = Some buf /\
     snd (SmartCompress_from jpeg_Encode img outPath budget fs q)
     = written fs outPath buf)
  \/ (fst (SmartCompress_from jpeg_Encode img outPath budget fs q) <> None /\
      snd (SmartCompress_from jpeg_Encode img outPath budget fs q) = fs).
Proof.
  funelim (SmartCompress_from jpeg_Encode img outPath budget fs q);
    intros Hq Hmod H20; unfold minQuality in *.
  - right. split; [discriminate|reflexivity].
  - destruct (os_WriteFile_cases fs outPath buf) as [-> | ->].
    + left. split; [reflexivity|]. exists quality, buf.
      split; [split; [lia|assumption]|]. auto.
    + right. split; [discriminate|reflexivity].
  - apply H; [lia| |].
    + rewrite <- Zminus_mod_idemp_l, Hmod. reflexivity.
    + intros Hlt.
      destruct (level_step quality 20 Hmod eq_refl ltac:(lia)) as [Hle| Heq20];
        [lia|]. rewrite Heq20. eauto.
  - right. unfold os_Create in Heq.
    destruct (os_WriteFile_cases fs outPath EmptyString) as [Hw|Hw];
      rewrite Hw in Heq; [discriminate|].
    injection Heq as <- <-. split; [discriminate|reflexivity].
  - unfold os_Create in Heq0.
    destruct (os_WriteFile_cases fs outPath EmptyString) as [Hw|Hw];
      rewrite Hw in Heq0; [|discriminate].
    injection Heq0 as <-.
    unfold os_WriteFile in Hw. destruct (decide (outPath ∈ fs_locked fs)) as [|Hn];
      [discriminate|].
    left. rewrite os_WriteFile_unlocked by exact Hn. rewrite written_twice.
    split; [reflexivity|]. exists 20, buf. split; [split; [lia|reflexivity]|]. auto.
  - destruct (H20 ltac:(lia)) as [b Hb]. congruence.
Qed.

Lemma written_frame fs name data p :
  p <> name -> file_at (written fs name data) p = file_at fs p.
Proof.
  intros Hne. unfold file_at, written. simpl. now apply lookup_insert_ne.
Qed.

Lemma written_at fs name data : file_at (written fs name data) name = Some data.
Proof. unfold file_at, written. simpl. apply lookup_insert_eq. Qed.

Lemma SmartCompress_effect (img : Image) (outPath : string)
  (budget : Z) (fs : FileSystem) :
  (fst (SmartCompress jpeg_Encode img outPath budget fs) = None /\
   exists q buf, level q /\ jpeg_Encode img q = Some buf /\
     snd (SmartCompress jpeg_Encode img outPath budget fs)
     = written fs outPath buf)
  \/ (fst (SmartCompress jpeg_Encode img outPath budget fs) <> None /\
      snd (SmartCompress jpeg_Encode img outPath budget fs) = fs).
Proof.
  unfold SmartCompress. apply SmartCompress_from_effect; try lia; reflexivity.
Qed.

Lemma SmartCompress_frame (img : Image) (outPath : string)
  (budget : Z) (fs : FileSystem) :
  fs_locked (snd (SmartCompress jpeg_Encode img outPath budget fs)) = fs_locked fs /\
  forall p, p <> outPath ->
    file_at (snd (SmartCompress jpeg_Encode img outPath budget fs)) p = file_at fs p.
Proof.
  destruct (SmartCompress_effect img outPath budget fs)
    as [(_ & q & buf & _ & _ & ->)|(_ & ->)]; split; auto.
  intros p Hp. now apply written_frame.
Qed.

(** X1: SmartCompress changes no file but [outPath].  When it returns an
    error (the encoder refused the image, or the file could not be
    written) the file system is as before, with no partial file; when it
    returns none, [outPath] holds the complete output of the encoder for
    one of the levels 95, 90, ..., 20. *)
Theorem SmartCompress_writes_only_outPath (img : Image) (outPath : string)
  (budget : Z) (fs : FileSystem) :
  let r := SmartCompress jpeg_Encode img outPath budget fs in
  fs_locked (snd r) = fs_locked fs /\
  (forall p, p <> outPath -> file_at (snd r) p = file_at fs p) /\
  (fst r <> None -> snd r = fs) /\
  (fst r = None ->
   exists q buf, level q /\ jpeg_Encode img q = Some buf /\
                 file_at (snd r) outPath = Some buf).
Proof.
  intros r. subst r.
  destruct (SmartCompress_effect img outPath budget fs)
    as [(Hok & q & buf & Hl & He & Hfs)|(Herr & Hfs)].
  - rewrite Hfs. repeat split.
    + intros p Hp. now apply written_frame.
    + intros Hne. contradiction.
    + intros _. exists q, buf. repeat split; try apply Hl; auto.
      apply written_at.
  - rewrite Hfs. repeat split; auto. intros Hok. contradiction.
Qed.

End CompressFrame.

Lemma os_WriteFile_locked fs name data :
  name ∈ fs_locked fs -> os_WriteFile fs name data = (Some ErrIO, fs).
Proof.
  intros Hl. unfold os_WriteFile.
  destruct (decide _); [reflexivity|contradiction].
Qed.

Lemma DirectCopy_ok src dst fs data :
  os_ReadFile fs src = Some data -> dst ∉ fs_locked fs ->
  DirectCopy src dst fs = (None, written fs dst data).
Proof.
  intros Hread Hl. unfold DirectCopy, os_Create. rewrite Hread.
  rewrite os_WriteFile_unlocked by exact Hl.
  rewrite os_WriteFile_unlocked by exact Hl. now rewrite written_twice.
Qed.

Lemma DirectCopy_locked src dst fs :
  dst ∈ fs_locked fs -> DirectCopy src dst fs = (Some ErrIO, fs).
Proof.
  intros Hl. unfold DirectCopy, os_Create.
  destruct (os_ReadFile fs src); [|reflexivity].
  now rewrite os_WriteFile_locked.
Qed.

Lemma DirectCopy_missing src dst fs :
  os_ReadFile fs src = None -> DirectCopy src dst fs = (Some ErrIO, fs).
Proof. intros Hread. unfold DirectCopy. now rewrite Hread. Qed.

(** X2: DirectCopy to a destination other than the source succeeds exactly
    when the source can be read and the destination written; the
    destination then holds the bytes of the source, and no other file
    changes.  When it fails the file system is as before. *)
Theorem DirectCopy_copies_bytes (src dst : string) (fs : FileSystem) :
  src <> dst ->
  let r := DirectCopy src dst fs in
  (fst r = None <-> is_Some (os_ReadFile fs src) /\ dst ∉ fs_locked fs) /\
  (fst r = None ->
     file_at (snd r) dst = os_ReadFile fs src /\
     file_at (snd r) src = os_ReadFile fs src) /\
  (fst r <> None -> snd r = fs) /\
  (forall p, p <> dst -> file_at (snd r) p = file_at fs p) /\
  fs_locked (snd r) = fs_locked fs.
Proof.
  intros Hne r. subst r.
  destruct (os_ReadFile fs src) as [data|] eqn:Hread.
  - destruct (decide (dst ∈ fs_locked fs)) as [Hl|Hl].
    + rewrite (DirectCopy_locked src dst fs Hl). simpl.
      split; [split; [discriminate|intros [_ Hn]; contradiction]|].
      split; [discriminate|]. auto.
    + rewrite (DirectCopy_ok src dst fs data Hread Hl). simpl.
      split; [split; eauto|].
      split; [intros _; split; [apply written_at|]|].
      { rewrite written_frame by exact Hne. exact Hread. }
      split; [intros Hc; contradiction|].
      split; [intros p Hp; now apply written_frame|reflexivity].
  - rewrite (DirectCopy_missing src dst fs Hread). simpl.
    split; [split; [discriminate|intros [[x Hx] _]; discriminate]|].
    split; [discriminate|]. auto.
Qed.

Lemma DirectCopy_copies_bytes_witness :
  let r := DirectCopy "a.jpg" "out/images/train/a.jpg" example_run_fs in
  (fst r = None <-> is_Some (os_ReadFile example_run_fs "a.jpg")
                    /\ "out/images/train/a.jpg" ∉ fs_locked example_run_fs) /\
  (fst r = None ->
     file_at (snd r) "out/images/train/a.jpg" = os_ReadFile example_run_fs "a.jpg" /\
     file_at (snd r) "a.jpg" = os_ReadFile example_run_fs "a.jpg") /\
  (fst r <> None -> snd r = example_run_fs) /\
  (forall p, p <> "out/images/train/a.jpg" ->
             file_at (snd r) p = file_at example_run_fs p) /\
  fs_locked (snd r) = fs_locked example_run_fs.
Proof.
  apply (DirectCopy_copies_bytes "a.jpg" "out/images/train/a.jpg" example_run_fs).
  discriminate.
Defined.

(** ** More on the run *)

Lemma prefix_append (a b : string) : String.prefix a (a +:+ b) = true.
Proof.
  induction a as [|c a IH]; simpl.
  - now destruct b.
  - change (String c a +:+ b) with (String c (a +:+ b)). simpl.
    destruct (ascii_dec c c) as [_|Hn]; [exact IH|contradiction].
Qed.

Lemma append_assoc (a b c : string) : (a +:+ b) +:+ c = a +:+ (b +:+ c).
Proof.
  induction a as [|x a IH]; [reflexivity|].
  change ((String x a +:+ b) +:+ c) with (String x ((a +:+ b) +:+ c)).
  now rewrite IH.
Qed.

Lemma append_inj_l (a b c : string) : a +:+ b = a +:+ c -> b = c.
Proof.
  induction a as [|x a IH]; [auto|].
  change (String x a +:+ b) with (String x (a +:+ b)).
  change (String x a +:+ c) with (String x (a +:+ c)).
  intros [= H]. auto.
Qed.

Section RunMore.
Context {F : Type} {FA : Float64 F} {RT : Runtime F}.

Lemma image_dst_in_tree (cfg : Config F) task subset :
  in_output_tree (outDir cfg) (image_dst cfg task subset) = true.
Proof.
  unfold in_output_tree, image_dst, filepath_Join. apply orb_true_intro. left.
  cbn [strings_Join].
  change (outDir cfg +:+ "/images/") with (outDir cfg +:+ ("/" +:+ ("images" +:+ "/"))).
  rewrite <- !append_assoc. rewrite !append_assoc.
  replace (outDir cfg +:+ "/" +:+ "images" +:+ "/" +:+ subset +:+ "/" +:+
           task_base task +:+ (if doProc cfg then ".jpg" else filepath_Ext (ImgPath task)))
    with ((outDir cfg +:+ ("/" +:+ ("images" +:+ "/"))) +:+
          (subset +:+ "/" +:+ task_base task +:+
           (if doProc cfg then ".jpg" else filepath_Ext (ImgPath task))))
    by (now rewrite !append_assoc).
  apply prefix_append.
Qed.

Lemma label_dst_in_tree (cfg : Config F) task subset :
  in_output_tree (outDir cfg) (label_dst cfg task subset) = true.
Proof.
  unfold in_output_tree, label_dst, filepath_Join. apply orb_true_intro. right.
  cbn [strings_Join].
  replace (outDir cfg +:+ "/" +:+ "labels" +:+ "/" +:+ subset +:+ "/" +:+
           task_base task +:+ ".txt")
    with ((outDir cfg +:+ "/labels/") +:+
          (subset +:+ "/" +:+ task_base task +:+ ".txt")).
  - apply prefix_append.
  - change (outDir cfg +:+ "/labels/") with (outDir cfg +:+ ("/" +:+ ("labels" +:+ "/"))).
    now rewrite !append_assoc.
Qed.

Lemma image_label_dst_differ (cfg : Config F) task subset task' subset' :
  image_dst cfg task subset <> label_dst cfg task' subset'.
Proof.
  unfold image_dst, label_dst, filepath_Join. cbn [strings_Join].
  intros Heq. apply append_inj_l in Heq. discriminate.
Qed.

End RunMore.

Section TaskEffects.
Context {F : Type} {FA : Float64 F} {RT : Runtime F}.

Lemma os_WriteFile_frame fs name data :
  fs_locked (snd (os_WriteFile fs name data)) = fs_locked fs /\
  forall p, p <> name -> file_at (snd (os_WriteFile fs name data)) p = file_at fs p.
Proof.
  destruct (os_WriteFile_cases fs name data) as [-> | ->]; split; auto.
  intros p Hp. now apply written_frame.
Qed.

Lemma DirectCopy_frame src dst fs :
  fs_locked (snd (DirectCopy src dst fs)) = fs_locked fs /\
  forall p, p <> dst -> file_at (snd (DirectCopy src dst fs)) p = file_at fs p.
Proof.
  destruct (os_ReadFile fs src) as [data|] eqn:Hread.
  - destruct (decide (dst ∈ fs_locked fs)) as [Hl|Hl].
    + rewrite (DirectCopy_locked src dst fs Hl). auto.
    + rewrite (DirectCopy_ok src dst fs data Hread Hl). split; auto.
      intros p Hp. now apply written_frame.
  - rewrite (DirectCopy_missing src dst fs Hread). auto.
Qed.

Lemma process_image_frame (cfg : Config F) task subset fs :
  fs_locked (snd (fst (process_image cfg task subset fs))) = fs_locked fs /\
  forall p, p <> image_dst cfg task subset ->
    file_at (snd (fst (process_image cfg task subset fs))) p = file_at fs p.
Proof.
  unfold process_image, image_dst.
  destruct (doProc cfg); destruct (os_ReadFile fs (ImgPath task)) as [bytes|];
    simpl; auto.
  - destruct (image_Decode bytes) as [img|]; simpl; auto.
    apply SmartCompress_frame.
  - destruct (image_DecodeConfig bytes) as [[w h]|]; simpl; auto.
    apply DirectCopy_frame.
Qed.

Lemma process_label_frame (cfg : Config F) task subset imgW imgH fs :
  fs_locked (fst (process_label cfg task subset imgW imgH fs)) = fs_locked fs /\
  forall p, p <> label_dst cfg task subset ->
    file_at (fst (process_label cfg task subset imgW imgH fs)) p = file_at fs p.
Proof.
  unfold process_label, label_dst.
  destruct (os_Stat fs (JsonPath task) && (0 <? imgW)); simpl; auto.
  destruct (ConvertJsonToYolo _ _ _ _ _ _ _) as [lines [err|]]; simpl; auto.
  apply os_WriteFile_frame.
Qed.

Lemma process_task_fs (cfg : Config F) total idx task subset fs :
  fst (process_task cfg total idx task subset fs)
  = fst (process_label cfg task subset
           (fst (fst (fst (process_image cfg task subset fs))))
           (snd (fst (fst (process_image cfg task subset fs))))
           (snd (fst (process_image cfg task subset fs)))).
Proof.
  unfold process_task.
  destruct (process_image cfg task subset fs) as [[[imgW imgH] fs1] calls1].
  simpl. destruct (process_label cfg task subset imgW imgH fs1). reflexivity.
Qed.

Lemma process_task_frame (cfg : Config F) total idx task subset fs :
  fs_locked (fst (process_task cfg total idx task subset fs)) = fs_locked fs /\
  forall p, p <> image_dst cfg task subset -> p <> label_dst cfg task subset ->
    file_at (fst (process_task cfg total idx task subset fs)) p = file_at fs p.
Proof.
  rewrite process_task_fs.
  destruct (process_image_frame cfg task subset fs) as [Hl1 Hf1].
  match goal with |- context [process_label cfg task subset ?w ?h ?fs1] =>
    destruct (process_label_frame cfg task subset w h fs1) as [Hl2 Hf2]
  end.
  split; [now rewrite Hl2|].
  intros p Hi Hl. rewrite Hf2 by exact Hl. now apply Hf1.
Qed.

Lemma process_task_outside_tree (cfg : Config F) total idx task subset fs p :
  in_output_tree (outDir cfg) p = false ->
  file_at (fst (process_task cfg total idx task subset fs)) p = file_at fs p.
Proof.
  intros Hout. apply process_task_frame.
  - intros ->. now rewrite image_dst_in_tree in Hout.
  - intros ->. now rewrite label_dst_in_tree in Hout.
Qed.

Lemma steps_outside_tree (cfg : Config F) parts (s s' : RunState F) :
  steps cfg parts s s' ->
  fs_locked (rs_fs s') = fs_locked (rs_fs s) /\
  forall p, in_output_tree (outDir cfg) p = false ->
    file_at (rs_fs s') p = file_at (rs_fs s) p.
Proof.
  induction 1 as [s|s1 s2 s3 H12 [IHl IHf] H23]; [auto|].
  inversion H23; subst; simpl; auto.
  split.
  - rewrite <- IHl. apply process_task_frame.
  - intros p Hp. rewrite <- (IHf p Hp). now apply process_task_outside_tree.
Qed.

(** X3: a run writes nowhere but under [outDir/images/] and
    [outDir/labels/]: in every state of a run every other path holds what
    it held at the start, source pictures and annotation files included,
    and no path has become writable or unwritable. *)
Theorem run_writes_only_under_outDir (cfg : Config F) (now : Z)
  (tasks : list FilePair) (fs : FileSystem) (s : RunState F) :
  reachable cfg now tasks fs s ->
  fs_locked (rs_fs s) = fs_locked fs /\
  forall p, in_output_tree (outDir cfg) p = false ->
    file_at (rs_fs s) p = file_at fs p.
Proof.
  intros [_ Hsteps]. exact (steps_outside_tree cfg _ _ _ Hsteps).
Qed.

(** X4: at no moment of a run are more than four goroutines at work; the
    goroutines at work and the finished ones are exactly those started,
    each started at most once and for a different position of the task
    list. *)
Theorem at_most_four_in_flight (cfg : Config F) (now : Z)
  (tasks : list FilePair) (fs : FileSystem) (s : RunState F) :
  reachable cfg now tasks fs s ->
  (length (rs_running s) <= 4)%nat /\
  (length (rs_running s) + length (rs_completed s))%nat = length (rs_spawned s) /\
  (length (rs_spawned s) <= length tasks)%nat /\
  NoDup (map g_idx (rs_running s) ++ rs_completed s) /\
  (forall g, In g (rs_running s) -> In g (rs_spawned s)).
Proof.
  intros [_ Hsteps].
  pose proof (run_inv_steps cfg _ fs s Hsteps) as Hinv.
  pose proof (inv_split cfg _ fs s Hinv) as Hs.
  split; [exact (inv_limit cfg _ fs s Hinv)|].
  split.
  { apply Permutation_length in Hs.
    rewrite length_app, length_map, length_seq in Hs. exact Hs. }
  split.
  { pose proof (inv_bound cfg _ fs s Hinv) as Hb.
    now rewrite Partition_length in Hb. }
  split; [rewrite Hs; apply NoDup_ListNoDup, List.seq_NoDup|].
  exact (inv_running cfg _ fs s Hinv).
Qed.

End TaskEffects.

Lemma run_writes_only_under_outDir_witness :
  let s := scheduled example_cfg 2 example_tasks example_run_fs example_schedule in
  fs_locked (rs_fs s) = fs_locked example_run_fs /\
  forall p, in_output_tree (outDir example_cfg) p = false ->
    file_at (rs_fs s) p = file_at example_run_fs p.
Proof.
  apply (run_writes_only_under_outDir example_cfg 2 example_tasks example_run_fs).
  apply scheduled_reachable. discriminate.
Defined.

Lemma at_most_four_in_flight_witness :
  let s := scheduled example_cfg 2 example_tasks example_run_fs
             [ActSpawn; ActSpawn] in
  (length (rs_running s) <= 4)%nat /\
  (length (rs_running s) + length (rs_completed s))%nat = length (rs_spawned s) /\
  (length (rs_spawned s) <= length example_tasks)%nat /\
  NoDup (map g_idx (rs_running s) ++ rs_completed s) /\
  (forall g, In g (rs_running s) -> In g (rs_spawned s)).
Proof.
  apply (at_most_four_in_flight example_cfg 2 example_tasks example_run_fs).
  apply scheduled_reachable. discriminate.
Defined.

(** ** More on one task *)

Section TaskResults.
Context {F : Type} {FA : Float64 F} {RT : Runtime F}.

Lemma process_label_writes (cfg : Config F) task subset w h fs text doc :
  os_ReadFile fs (JsonPath task) = Some text ->
  json_Unmarshal text = Some doc ->
  0 < w ->
  label_dst cfg task subset ∉ fs_locked fs ->
  process_label cfg task subset w h fs
  = (written fs (label_dst cfg task subset)
       (strings_Join (convert_document Sprintf_line w h (clsMap cfg) doc) nl),
     [CallConvert (JsonPath task); CallWriteLabel (label_dst cfg task subset)]).
Proof.
  intros Hread Hdoc Hw Hlock. unfold process_label, os_Stat, ConvertJsonToYolo.
  unfold os_ReadFile in *. rewrite Hread, Hdoc.
  rewrite bool_decide_eq_true_2 by eauto.
  replace (0 <? w) with true by (symmetry; apply Z.ltb_lt; exact Hw).
  simpl. fold (label_dst cfg task subset).
  now rewrite os_WriteFile_unlocked by exact Hlock.
Qed.

Lemma process_label_skips (cfg : Config F) task subset w h fs :
  (os_ReadFile fs (JsonPath task) = None \/
   exists text, os_ReadFile fs (JsonPath task) = Some text /\
                json_Unmarshal text = None) ->
  fst (process_label cfg task subset w h fs) = fs /\
  forallb (fun c => negb (is_CallWriteLabel c))
          (snd (process_label cfg task subset w h fs)) = true.
Proof.
  unfold process_label, os_Stat, ConvertJsonToYolo, os_ReadFile.
  intros [Hnone|(text & Hread & Hbad)].
  - rewrite Hnone. rewrite bool_decide_eq_false_2; [auto|].
    intros [x Hx]. discriminate.
  - rewrite Hread, Hbad. destruct (_ && _); auto.
Qed.

Lemma process_image_copy (cfg : Config F) task subset fs bytes w h :
  doProc cfg = false ->
  os_ReadFile fs (ImgPath task) = Some bytes ->
  image_DecodeConfig bytes = Some (w, h) ->
  image_dst cfg task subset ∉ fs_locked fs ->
  process_image cfg task subset fs
  = (w, h, written fs (image_dst cfg task subset) bytes,
     [CallDirectCopy (ImgPath task) (image_dst cfg task subset)]).
Proof.
  intros Hdo Hread Hdec Hlock. unfold process_image, image_dst in *.
  rewrite Hdo in *. rewrite Hread, Hdec.
  now rewrite (DirectCopy_ok _ _ fs bytes Hread Hlock).
Qed.

Lemma process_image_encode (cfg : Config F) task subset fs bytes img :
  doProc cfg = true ->
  os_ReadFile fs (ImgPath task) = Some bytes ->
  image_Decode bytes = Some img ->
  (forall q, level q -> is_Some (jpeg_Encode img q)) ->
  image_dst cfg task subset ∉ fs_locked fs ->
  exists q buf,
    level q /\ jpeg_Encode img q = Some buf /\
    process_image cfg task subset fs
    = (image_Dx img, image_Dy img,
       written fs (image_dst cfg task subset) buf,
       [CallSmartCompress (image_dst cfg task subset)]).
Proof.
  intros Hdo Hread Hdec Henc Hlock. unfold process_image, image_dst in *.
  rewrite Hdo in *. rewrite Hread, Hdec.
  destruct (SmartCompress_from_scan jpeg_Encode img _ (maxKB cfg) fs 95
              ltac:(lia) eq_refl Henc Hlock)
    as (q & buf & Hl & He & Hrun & _).
  exists q, buf. split; [exact Hl|]. split; [exact He|].
  unfold SmartCompress. now rewrite Hrun.
Qed.

(** X5: with image processing off, a task whose picture can be read and
    sized and whose annotation file parses leaves a byte-for-byte copy of
    the picture at [outDir/images/subset/base+ext] and, at
    [outDir/labels/subset/base.txt], the lines of the conversion joined by
    newlines (an empty file when no label is recognised); it makes the
    calls DirectCopy, ConvertJsonToYolo, WriteFile and SetValue in this
    order. *)
Theorem copied_task_output (cfg : Config F) (total idx : nat)
  (task : FilePair) (subset : string) (fs : FileSystem)
  (bytes text : string) (w h : Z) (doc : LabelMeJSON F) :
  doProc cfg = false ->
  os_ReadFile fs (ImgPath task) = Some bytes ->
  image_DecodeConfig bytes = Some (w, h) ->
  0 < w ->
  os_ReadFile fs (JsonPath task) = Some text ->
  json_Unmarshal text = Some doc ->
  ImgPath task <> image_dst cfg task subset ->
  JsonPath task <> image_dst cfg task subset ->
  image_dst cfg task subset ∉ fs_locked fs ->
  label_dst cfg task subset ∉ fs_locked fs ->
  let r := process_task cfg total idx task subset fs in
  file_at (fst r) (image_dst cfg task subset) = Some bytes /\
  file_at (fst r) (label_dst cfg task subset)
  = Some (strings_Join (convert_document Sprintf_line w h (clsMap cfg) doc) nl) /\
  snd r = [CallDirectCopy (ImgPath task) (image_dst cfg task subset);
           CallConvert (JsonPath task);
           CallWriteLabel (label_dst cfg task subset);
           CallSetValue (progress_of total idx)].
Proof.
  intros Hdo Hread Hdec Hw Hjson Hdoc _ Hjd Hli Hll r. subst r.
  unfold process_task.
  rewrite (process_image_copy cfg task subset fs bytes w h Hdo Hread Hdec Hli).
  rewrite (process_label_writes cfg task subset w h _ text doc); auto.
  - simpl. split; [|split; [apply written_at|reflexivity]].
    rewrite written_frame by apply image_label_dst_differ. apply written_at.
  - unfold os_ReadFile. change (fs_files (written fs _ bytes) !! JsonPath task)
      with (file_at (written fs (image_dst cfg task subset) bytes) (JsonPath task)).
    rewrite written_frame by exact Hjd. exact Hjson.
Qed.

(** X6: with image processing on, the picture is written as
    [outDir/images/subset/base.jpg] whatever the extension of the source,
    holding the encoder's output for one of the levels 95, 90, ..., 20, and
    the label file is computed with the width and height of the decoded
    picture. *)
Theorem processed_task_output (cfg : Config F) (total idx : nat)
  (task : FilePair) (subset : string) (fs : FileSystem)
  (bytes text : string) (img : Image) (doc : LabelMeJSON F) :
  doProc cfg = true ->
  os_ReadFile fs (ImgPath task) = Some bytes ->
  image_Decode bytes = Some img ->
  (forall q, level q -> is_Some (jpeg_Encode img q)) ->
  0 < image_Dx img ->
  os_ReadFile fs (JsonPath task) = Some text ->
  json_Unmarshal text = Some doc ->
  JsonPath task
  <> filepath_Join [outDir cfg; "images"; subset; task_base task +:+ ".jpg"] ->
  filepath_Join [outDir cfg; "images"; subset; task_base task +:+ ".jpg"]
  ∉ fs_locked fs ->
  label_dst cfg task subset ∉ fs_locked fs ->
  let r := process_task cfg total idx task subset fs in
  (exists q buf,
     level q /\ jpeg_Encode img q = Some buf /\
     file_at (fst r)
       (filepath_Join [outDir cfg; "images"; subset; task_base task +:+ ".jpg"])
     = Some buf) /\
  file_at (fst r) (label_dst cfg task subset)
  = Some (strings_Join
            (convert_document Sprintf_line (image_Dx img) (image_Dy img)
               (clsMap cfg) doc) nl).
Proof.
  intros Hdo Hread Hdec Henc Hw Hjson Hdoc Hjd Hli Hll r. subst r.
  assert (Hdst : filepath_Join [outDir cfg; "images"; subset;
                                task_base task +:+ ".jpg"]
                 = image_dst cfg task subset).
  { unfold image_dst. now rewrite Hdo. }
  rewrite Hdst in *.
  destruct (process_image_encode cfg task subset fs bytes img
              Hdo Hread Hdec Henc Hli) as (q & buf & Hl & He & Himg).
  unfold process_task. rewrite Himg.
  rewrite (process_label_writes cfg task subset _ _ _ text doc); auto.
  - simpl. split; [|apply written_at].
    exists q, buf. split; [exact Hl|]. split; [exact He|].
    rewrite written_frame by apply image_label_dst_differ. apply written_at.
  - change (file_at (written fs (image_dst cfg task subset) buf) (JsonPath task)
            = Some text).
    rewrite written_frame by exact Hjd. exact Hjson.
Qed.

(** X7: the annotation is optional.  A task whose annotation file is
    missing or is not valid JSON still exports its picture: the file
    system after the task is the one the image half leaves, and no label
    file is written. *)
Theorem annotation_is_optional (cfg : Config F) (total idx : nat)
  (task : FilePair) (subset : string) (fs : FileSystem) :
  JsonPath task <> image_dst cfg task subset ->
  (os_ReadFile fs (JsonPath task) = None \/
   exists text, os_ReadFile fs (JsonPath task) = Some text /\
                json_Unmarshal text = None) ->
  let r := process_task cfg total idx task subset fs in
  fst r = snd (fst (process_image cfg task subset fs)) /\
  file_at (fst r) (label_dst cfg task subset)
  = file_at fs (label_dst cfg task subset) /\
  forallb (fun c => negb (is_CallWriteLabel c)) (snd r) = true.
Proof.
  intros Hjd Hjson r. subst r.
  destruct (process_image_frame cfg task subset fs) as [_ Hframe].
  assert (Hjson' :
    os_ReadFile (snd (fst (process_image cfg task subset fs))) (JsonPath task) = None \/
    exists text,
      os_ReadFile (snd (fst (process_image cfg task subset fs))) (JsonPath task)
      = Some text /\ json_Unmarshal text = None).
  { unfold os_ReadFile in *.
    change (fs_files ?s !! ?p) with (file_at s p) in *.
    now rewrite (Hframe _ Hjd). }
  assert (Hcalls : forallb (fun c : Call F => negb (is_CallWriteLabel c))
                     (snd (process_image cfg task subset fs)) = true).
  { unfold process_image.
    destruct (doProc cfg); destruct (os_ReadFile fs (ImgPath task)) as [b|]; auto.
    - destruct (image_Decode b); auto.
    - destruct (image_DecodeConfig b) as [[w h]|]; auto. }
  unfold process_task.
  destruct (process_image cfg task subset fs) as [[[imgW imgH] fs1] calls1].
  simpl in *.
  destruct (process_label_skips cfg task subset imgW imgH fs1 Hjson') as [Hfs Hc].
  destruct (process_label cfg task subset imgW imgH fs1) as [fs2 calls2].
  simpl in *. subst fs2. split; [reflexivity|].
  split.
  - apply Hframe. intros Heq. symmetry in Heq.
    exact (image_label_dst_differ cfg task subset task subset Heq).
  - rewrite forallb_app, Hcalls. simpl. rewrite forallb_app, Hc. reflexivity.
Qed.

End TaskResults.

Lemma copied_task_output_witness :
  let r := process_task example_cfg 2 0 example_task "train" example_task_fs in
  file_at (fst r) (image_dst example_cfg example_task "train") = Some "picture" /\
  file_at (fst r) (label_dst example_cfg example_task "train")
  = Some (strings_Join
            (convert_document Sprintf_line 100 50 (clsMap example_cfg)
               example_short_doc) nl) /\
  snd r = [CallDirectCopy (ImgPath example_task)
             (image_dst example_cfg example_task "train");
           CallConvert (JsonPath example_task);
           CallWriteLabel (label_dst example_cfg example_task "train");
           CallSetValue (progress_of 2 0)].
Proof.
  refine (copied_task_output example_cfg 2 0 example_task "train" example_task_fs
            "picture" "short" 100 50 example_short_doc
            eq_refl _ eq_refl _ _ eq_refl _ _ _ _).
  - vm_compute. reflexivity.
  - lia.
  - vm_compute. reflexivity.
  - vm_compute. discriminate.
  - vm_compute. discriminate.
  - apply not_elem_of_empty.
  - apply not_elem_of_empty.
Defined.

Lemma processed_task_output_witness :
  let r := process_task example_cfg_process 2 0 example_task "val" example_task_fs in
  (exists q buf,
     level q /\ jpeg_Encode (Runtime:=example_runtime) "picture" q = Some buf /\
     file_at (fst r)
       (filepath_Join [outDir example_cfg_process; "images"; "val";
                       task_base example_task +:+ ".jpg"])
     = Some buf) /\
  file_at (fst r) (label_dst example_cfg_process example_task "val")
  = Some (strings_Join
            (convert_document Sprintf_line 100 50 (clsMap example_cfg_process)
               example_short_doc) nl).
Proof.
  refine (processed_task_output example_cfg_process 2 0 example_task "val"
            example_task_fs "picture" "short" "picture" example_short_doc
            eq_refl _ eq_refl _ _ _ eq_refl _ _ _).
  - vm_compute. reflexivity.
  - intros q _. simpl. eauto.
  - simpl. lia.
  - vm_compute. reflexivity.
  - vm_compute. discriminate.
  - apply not_elem_of_empty.
  - apply not_elem_of_empty.
Defined.

Lemma annotation_is_optional_witness :
  let r := process_task example_cfg 2 0 example_task "train" example_malformed_fs in
  fst r = snd (fst (process_image example_cfg example_task "train"
                      example_malformed_fs)) /\
  file_at (fst r) (label_dst example_cfg example_task "train")
  = file_at example_malformed_fs (label_dst example_cfg example_task "train") /\
  forallb (fun c => negb (is_CallWriteLabel c)) (snd r) = true.
Proof.
  refine (annotation_is_optional example_cfg 2 0 example_task "train"
            example_malformed_fs _ _).
  - vm_compute. discriminate.
  - right. exists "{". split; vm_compute; reflexivity.
Defined.

(** ** More on the split *)

Section PartitionMore.
Context {F : Type} {FA : Float64 F} {RT : Runtime F}.

Lemma subsets_three_blocks (cfg : Config F) (N : nat) :
  let a := clamp N (trainC cfg N) in
  let e := Nat.max a (clamp N (wrap64 (trainC cfg N + valC cfg N))) in
  map (subset_of cfg N) (seq 0 N)
  = replicate a "train" ++ replicate (e - a) "val" ++ replicate (N - e) "test".
Proof.
  intros a e.
  assert (Ha : (a <= N)%nat) by (unfold a, clamp; lia).
  assert (He : (a <= e <= N)%nat) by (unfold e, clamp; lia).
  assert (HNeq : seq 0 N = seq 0 (a + ((e - a) + (N - e)))) by (f_equal; lia).
  rewrite HNeq, !seq_app, !map_app. simpl.
  f_equal; [|f_equal].
  - apply map_constant; [apply length_seq|].
    apply List.Forall_forall. intros i Hi. apply in_seq in Hi.
    unfold subset_of.
    destruct (Z.ltb_spec (Z.of_nat i) (trainC cfg N)); [reflexivity|].
    unfold a, clamp in Hi. lia.
  - apply map_constant; [apply length_seq|].
    apply List.Forall_forall. intros i Hi. apply in_seq in Hi.
    unfold subset_of.
    destruct (Z.ltb_spec (Z.of_nat i) (trainC cfg N));
      [unfold a, clamp in Hi; lia|].
    destruct (Z.ltb_spec (Z.of_nat i) (wrap64 (trainC cfg N + valC cfg N)));
      [reflexivity|].
    unfold e, a, clamp in *. lia.
  - apply map_constant; [apply length_seq|].
    apply List.Forall_forall. intros i Hi. apply in_seq in Hi.
    unfold subset_of.
    destruct (Z.ltb_spec (Z.of_nat i) (trainC cfg N));
      [unfold e, a, clamp in *; lia|].
    destruct (Z.ltb_spec (Z.of_nat i) (wrap64 (trainC cfg N + valC cfg N)));
      [|reflexivity].
    unfold e, a, clamp in *. lia.
Qed.

(** X8: whatever the ratios (negative, above one, or making the counts
    overflow), the split hands out the subsets in three consecutive blocks
    of the shuffled list: first train, then val, then test.  The train
    block ends at the train count forced into [0, N], the val block at the
    wrapped sum of the two counts forced into the rest; every task gets
    exactly one of the three names and the tasks are those of the input. *)
Theorem Partition_three_blocks (cfg : Config F) (now : Z) (tasks : list FilePair) :
  let N := length tasks in
  let a := clamp N (trainC cfg N) in
  let e := Nat.max a (clamp N (wrap64 (trainC cfg N + valC cfg N))) in
  map fst (Partition cfg now tasks) ≡ₚ tasks /\
  map snd (Partition cfg now tasks)
  = replicate a "train" ++ replicate (e - a) "val" ++ replicate (N - e) "test" /\
  (count_subset "train" (Partition cfg now tasks)
   + count_subset "val" (Partition cfg now tasks)
   + count_subset "test" (Partition cfg now tasks))%nat = N.
Proof.
  intros N a e.
  assert (Hsub := subsets_three_blocks cfg N). fold a e in Hsub. simpl in Hsub.
  unfold N in Hsub at 1 2. rewrite <- Partition_subsets with (now := now) in Hsub.
  split; [rewrite Partition_tasks; apply shuffle_Permutation|].
  split; [exact Hsub|].
  rewrite !count_subset_snd, Hsub, !List.filter_app.
  rewrite !filter_replicate_same.
  rewrite !(filter_replicate_other "train") by reflexivity.
  rewrite !(filter_replicate_other "val") by reflexivity.
  rewrite !(filter_replicate_other "test") by reflexivity.
  rewrite !app_nil_r. simpl. rewrite !length_replicate.
  assert (Ha : (a <= N)%nat) by (unfold a, clamp; lia).
  assert (He : (a <= e <= N)%nat) by (unfold e, clamp; lia).
  lia.
Qed.

End PartitionMore.

(** ** The order in which goroutines finish *)

Section CompressPatch.
Context {Image : Type}.
Variable jpeg_Encode : Image -> Z -> option string.

Lemma SmartCompress_from_unfolded img outPath budget fs q :
  SmartCompress_from jpeg_Encode img outPath budget fs q
  = if Z_le_dec minQuality q then
      match jpeg_Encode img q with
      | None => (Some ErrEncode, fs)
      | Some buf =>
          if Z.quot (Z.of_nat (String.length buf)) 1024 <=? budget
          then os_WriteFile fs outPath buf
          else SmartCompress_from jpeg_Encode img outPath budget fs (q - 5)
      end
    else
      match os_Create fs outPath with
      | (Some err, fs') => (Some err, fs')
      | (None, fs') =>
          match jpeg_Encode img minQuality with
          | None => (Some ErrEncode, fs')
          | Some buf => os_WriteFile fs' outPath buf
          end
      end.
Proof.
  funelim (SmartCompress_from jpeg_Encode img outPath budget fs q);
    destruct (Z_le_dec minQuality quality) as [Hle|Hgt]; try contradiction;
    repeat first [rewrite Heq | rewrite Heq0 | rewrite Heq1]; try reflexivity.
Qed.

Lemma SmartCompress_from_patch img outPath budget (k : nat) :
  exists ow, forall fs,
    snd (SmartCompress_from jpeg_Encode img outPath budget fs (15 + 5 * Z.of_nat k))
    = opt_write outPath ow fs.
Proof.
  induction k as [|k [ow IH]].
  - destruct (jpeg_Encode img minQuality) as [buf|] eqn:He.
    + exists (Some buf). intros fs. rewrite SmartCompress_from_unfolded.
      destruct (Z_le_dec minQuality _) as [Hle|_]; [unfold minQuality in Hle; lia|].
      unfold os_Create, opt_write. rewrite He.
      destruct (decide (outPath ∈ fs_locked fs)) as [Hl|Hl].
      * now rewrite !os_WriteFile_locked.
      * rewrite !os_WriteFile_unlocked by exact Hl. simpl. apply written_twice.
    + exists (Some EmptyString). intros fs. rewrite SmartCompress_from_unfolded.
      destruct (Z_le_dec minQuality _) as [Hle|_]; [unfold minQuality in Hle; lia|].
      unfold os_Create, opt_write. rewrite He.
      destruct (decide (outPath ∈ fs_locked fs)) as [Hl|Hl].
      * now rewrite !os_WriteFile_locked.
      * now rewrite !os_WriteFile_unlocked by exact Hl.
  - replace (15 + 5 * Z.of_nat (S k)) with (15 + 5 * Z.of_nat k + 5) by lia.
    set (q := 15 + 5 * Z.of_nat k) in *.
    destruct (jpeg_Encode img (q + 5)) as [buf|] eqn:He.
    + destruct (Z.quot (Z.of_nat (String.length buf)) 1024 <=? budget) eqn:Hfit.
      * exists (Some buf). intros fs. rewrite SmartCompress_from_unfolded.
        destruct (Z_le_dec minQuality _) as [_|Hgt];
          [|unfold minQuality in Hgt; lia].
        now rewrite He, Hfit.
      * exists ow. intros fs. rewrite SmartCompress_from_unfolded.
        destruct (Z_le_dec minQuality _) as [_|Hgt];
          [|unfold minQuality in Hgt; lia].
        rewrite He, Hfit. replace (q + 5 - 5) with q by lia. apply IH.
    + exists None. intros fs. rewrite SmartCompress_from_unfolded.
      destruct (Z_le_dec minQuality _) as [_|Hgt];
        [|unfold minQuality in Hgt; lia].
      now rewrite He.
Qed.

Lemma SmartCompress_patch img outPath budget :
  exists ow, forall fs,
    snd (SmartCompress jpeg_Encode img outPath budget fs) = opt_write outPath ow fs.
Proof.
  destruct (SmartCompress_from_patch img outPath budget 16) as [ow H].
  exists ow. intros fs. unfold SmartCompress. apply (H fs).
Qed.

End CompressPatch.

Lemma DirectCopy_patch src dst fs :
  snd (DirectCopy src dst fs) = opt_write dst (os_ReadFile fs src) fs.
Proof.
  destruct (os_ReadFile fs src) as [data|] eqn:Hread.
  - destruct (decide (dst ∈ fs_locked fs)) as [Hl|Hl].
    + rewrite (DirectCopy_locked src dst fs Hl). simpl.
      now rewrite os_WriteFile_locked.
    + rewrite (DirectCopy_ok src dst fs data Hread Hl). simpl.
      now rewrite os_WriteFile_unlocked.
  - now rewrite (DirectCopy_missing src dst fs Hread).
Qed.

Lemma opt_write_locked name ow fs :
  fs_locked (opt_write name ow fs) = fs_locked fs.
Proof.
  destruct ow as [data|]; [|reflexivity]. simpl.
  unfold os_WriteFile. now destruct (decide _).
Qed.

Lemma opt_write_frame name ow fs p :
  p <> name -> os_ReadFile (opt_write name ow fs) p = os_ReadFile fs p.
Proof.
  intros Hne. destruct ow as [data|]; [|reflexivity]. simpl.
  unfold os_WriteFile. destruct (decide _); [reflexivity|].
  unfold os_ReadFile. simpl. now apply lookup_insert_ne.
Qed.

Lemma opt_write_commute a x b y fs :
  a <> b ->
  opt_write a x (opt_write b y fs) = opt_write b y (opt_write a x fs).
Proof.
  intros Hne. destruct x as [dx|], y as [dy|]; try reflexivity. simpl.
  unfold os_WriteFile.
  destruct (decide (b ∈ fs_locked fs)) as [Hb|Hb];
    destruct (decide (a ∈ fs_locked fs)) as [Ha|Ha]; simpl;
    repeat (destruct (decide _); try contradiction); simpl; try reflexivity.
  f_equal. apply insert_insert_ne. congruence.
Qed.

Lemma fold_left_commute {A B : Type} `{EqDecision A} (f : B -> A -> B) (l l' : list A) :
  l ≡ₚ l' ->
  (forall x y b, In x l -> In y l -> x <> y -> f (f b x) y = f (f b y) x) ->
  forall b, fold_left f l b = fold_left f l' b.
Proof.
  induction 1 as [|x l l' Hp IH|x y l|l l' l'' Hp1 IH1 Hp2 IH2]; intros Hc b.
  - reflexivity.
  - simpl. apply IH. intros u v b' Hu Hv. apply Hc; now right.
  - simpl. destruct (decide (x = y)) as [->|Hne]; [reflexivity|].
    rewrite (Hc y x b); auto; [now left|right; now left].
  - rewrite IH1 by exact Hc. apply IH2.
    intros u v b' Hu Hv. apply Hc; eapply Permutation_in;
      try (symmetry; exact Hp1); assumption.
Qed.

Section Schedule.
Context {F : Type} {FA : Float64 F} {RT : Runtime F}.

Lemma process_image_patch (cfg : Config F) task subset (r : option string) :
  exists w h ow calls, forall fs,
    os_ReadFile fs (ImgPath task) = r ->
    process_image cfg task subset fs
    = (w, h, opt_write (image_dst cfg task subset) ow fs, calls).
Proof.
  unfold process_image, image_dst.
  destruct (doProc cfg); destruct r as [bytes|].
  - destruct (image_Decode bytes) as [img|] eqn:Hdec.
    + destruct (SmartCompress_patch jpeg_Encode img
                  (filepath_Join [outDir cfg; "images"; subset;
                                  task_base task +:+ ".jpg"]) (maxKB cfg))
        as [ow Hp].
      eexists _, _, ow, _. intros fs ->. rewrite Hdec, Hp. reflexivity.
    + exists 0, 0, None, []. intros fs ->. now rewrite Hdec.
  - exists 0, 0, None, []. now intros fs ->.
  - destruct (image_DecodeConfig bytes) as [[w h]|] eqn:Hdec.
    + eexists w, h, (Some bytes), _. intros fs Hread.
      rewrite Hread, Hdec, DirectCopy_patch, Hread. reflexivity.
    + exists 0, 0, None, []. intros fs ->. now rewrite Hdec.
  - exists 0, 0, None, []. now intros fs ->.
Qed.

Lemma process_label_patch (cfg : Config F) task subset w h (r : option string) :
  exists ow calls, forall fs,
    os_ReadFile fs (JsonPath task) = r ->
    process_label cfg task subset w h fs
    = (opt_write (label_dst cfg task subset) ow fs, calls).
Proof.
  unfold process_label, label_dst, os_Stat, ConvertJsonToYolo.
  destruct r as [text|].
  - destruct (0 <? w) eqn:Hw.
    + destruct (json_Unmarshal text) as [doc|] eqn:Hdoc.
      * eexists (Some _), _. intros fs Hread. rewrite Hread, Hdoc.
        unfold os_ReadFile in Hread. rewrite Hread.
        rewrite bool_decide_eq_true_2 by eauto. reflexivity.
      * eexists None, _. intros fs Hread. rewrite Hread, Hdoc.
        unfold os_ReadFile in Hread. rewrite Hread.
        rewrite bool_decide_eq_true_2 by eauto. reflexivity.
    + exists None, []. intros fs _. now rewrite andb_false_r.
  - exists None, []. intros fs Hread. unfold os_ReadFile in Hread.
    rewrite Hread. rewrite bool_decide_eq_false_2; [reflexivity|].
    intros [x Hx]. discriminate.
Qed.

Lemma process_task_patch (cfg : Config F) total idx task subset (ri rj : option string) :
  JsonPath task <> image_dst cfg task subset ->
  exists oi ol, forall fs,
    os_ReadFile fs (ImgPath task) = ri ->
    os_ReadFile fs (JsonPath task) = rj ->
    fst (process_task cfg total idx task subset fs)
    = opt_write (label_dst cfg task subset) ol
        (opt_write (image_dst cfg task subset) oi fs).
Proof.
  intros Hjd.
  destruct (process_image_patch cfg task subset ri) as (w & h & oi & calls1 & Hi).
  destruct (process_label_patch cfg task subset w h rj) as (ol & calls2 & Hl).
  exists oi, ol. intros fs Hri Hrj. unfold process_task.
  rewrite (Hi fs Hri). rewrite Hl; [reflexivity|].
  rewrite opt_write_frame by exact Hjd. exact Hrj.
Qed.

(** Two tasks that write to different places and read nothing the other
    writes can finish in either order. *)
Lemma process_task_commute (cfg : Config F) total i j t s t' s' fs :
  JsonPath t <> image_dst cfg t s ->
  JsonPath t' <> image_dst cfg t' s' ->
  ImgPath t <> image_dst cfg t' s' -> ImgPath t <> label_dst cfg t' s' ->
  JsonPath t <> image_dst cfg t' s' -> JsonPath t <> label_dst cfg t' s' ->
  ImgPath t' <> image_dst cfg t s -> ImgPath t' <> label_dst cfg t s ->
  JsonPath t' <> image_dst cfg t s -> JsonPath t' <> label_dst cfg t s ->
  image_dst cfg t s <> image_dst cfg t' s' ->
  label_dst cfg t s <> label_dst cfg t' s' ->
  fst (process_task cfg total j t' s' (fst (process_task cfg total i t s fs)))
  = fst (process_task cfg total i t s (fst (process_task cfg total j t' s' fs))).
Proof.
  intros H1 H2 H3 H4 H5 H6 H7 H8 H9 H10 H11 H12.
  destruct (process_task_patch cfg total i t s
              (os_ReadFile fs (ImgPath t)) (os_ReadFile fs (JsonPath t)) H1)
    as (oi & ol & Hp).
  destruct (process_task_patch cfg total j t' s'
              (os_ReadFile fs (ImgPath t')) (os_ReadFile fs (JsonPath t')) H2)
    as (oi' & ol' & Hp').
  rewrite (Hp fs eq_refl eq_refl), (Hp' fs eq_refl eq_refl).
  rewrite Hp', Hp; rewrite ?opt_write_frame; auto.
  pose proof (image_label_dst_differ cfg t s t' s') as Hil.
  pose proof (image_label_dst_differ cfg t' s' t s) as Hli.
  rewrite (opt_write_commute (image_dst cfg t' s') oi' (label_dst cfg t s)) by auto.
  rewrite (opt_write_commute (image_dst cfg t' s') oi' (image_dst cfg t s)) by auto.
  rewrite (opt_write_commute (label_dst cfg t' s') ol' (label_dst cfg t s)) by auto.
  rewrite (opt_write_commute (label_dst cfg t' s') ol' (image_dst cfg t s)) by auto.
  reflexivity.
Qed.

Lemma replay_run_task (cfg : Config F) parts order fs :
  fst (replay cfg parts order fs) = fold_left (run_task cfg parts) order fs.
Proof.
  unfold replay.
  set (step := fun (acc : FileSystem * list (Call F)) (i : nat) => _).
  assert (H : forall acc, fst (fold_left step order acc)
                          = fold_left (run_task cfg parts) order (fst acc)).
  { induction order as [|i order IH]; intros acc; [reflexivity|].
    simpl. rewrite IH. f_equal. unfold step, run_task.
    destruct (parts !! i) as [[t sub]|]; reflexivity. }
  apply (H (fs, [])).
Qed.

Lemma Partition_In (cfg : Config F) now tasks t sub :
  In (t, sub) (Partition cfg now tasks) -> In t tasks.
Proof.
  intros Hin. apply (in_map fst) in Hin. simpl in Hin.
  rewrite Partition_tasks in Hin.
  eapply Permutation_in; [apply shuffle_Permutation|exact Hin].
Qed.

Lemma outside_not_image_dst (cfg : Config F) p t s :
  in_output_tree (outDir cfg) p = false -> p <> image_dst cfg t s.
Proof. intros Hout ->. now rewrite image_dst_in_tree in Hout. Qed.

Lemma outside_not_label_dst (cfg : Config F) p t s :
  in_output_tree (outDir cfg) p = false -> p <> label_dst cfg t s.
Proof. intros Hout ->. now rewrite label_dst_in_tree in Hout. Qed.

(** X9: when the sources lie outside the output tree and no two tasks
    share an image destination or a label destination, the files a
    completed run leaves do not depend on the order in which the
    goroutines finished: they are the files left by running the goroutine
    bodies one after the other in the order of the task list. *)
Theorem result_independent_of_schedule (cfg : Config F) (now : Z)
  (tasks : list FilePair) (fs : FileSystem) (s : RunState F) :
  NoDup (map (fun p => image_dst cfg (fst p) (snd p)) (Partition cfg now tasks)) ->
  NoDup (map (fun p => label_dst cfg (fst p) (snd p)) (Partition cfg now tasks)) ->
  Forall (sources_outside (outDir cfg)) tasks ->
  reachable cfg now tasks fs s ->
  rs_returned s = true ->
  rs_fs s = in_list_order cfg (Partition cfg now tasks) fs.
Proof.
  intros Himg Hlbl Hsrc [_ Hsteps] Hret.
  set (parts := Partition cfg now tasks) in *.
  pose proof (run_inv_steps cfg parts fs s Hsteps) as Hinv.
  pose proof (inv_effects cfg parts fs s Hinv) as Heff.
  destruct (completed_positions cfg parts fs s Hinv) as (_ & _ & Hperm).
  specialize (Hperm Hret).
  apply (f_equal fst) in Heff. simpl in Heff.
  rewrite Heff, replay_run_task. unfold in_list_order.
  apply fold_left_commute; [exact Hperm|].
  intros i j b _ _ Hij. unfold run_task.
  destruct (parts !! i) as [[t sub]|] eqn:Hi; [|reflexivity].
  destruct (parts !! j) as [[t' sub']|] eqn:Hj; [|reflexivity].
  assert (Hout : forall u v, In (u, v) parts -> sources_outside (outDir cfg) u).
  { intros u v Hin. apply Partition_In in Hin.
    rewrite List.Forall_forall in Hsrc. now apply Hsrc. }
  destruct (Hout t sub) as [Ho1 Ho2].
  { apply list_elem_of_In. eapply list_elem_of_lookup_2; exact Hi. }
  destruct (Hout t' sub') as [Ho3 Ho4].
  { apply list_elem_of_In. eapply list_elem_of_lookup_2; exact Hj. }
  apply process_task_commute;
    try (now apply outside_not_image_dst);
    try (now apply outside_not_label_dst).
  - intros Heq. apply Hij.
    apply (NoDup_lookup _ i j (image_dst cfg t sub) Himg).
    + change (map ?f parts) with (f <$> parts).
      now rewrite list_lookup_fmap, Hi.
    + change (map ?f parts) with (f <$> parts).
      rewrite list_lookup_fmap, Hj. simpl. now rewrite Heq.
  - intros Heq. apply Hij.
    apply (NoDup_lookup _ i j (label_dst cfg t sub) Hlbl).
    + change (map ?f parts) with (f <$> parts).
      now rewrite list_lookup_fmap, Hi.
    + change (map ?f parts) with (f <$> parts).
      rewrite list_lookup_fmap, Hj. simpl. now rewrite Heq.
Qed.

End Schedule.

Lemma result_independent_of_schedule_witness :
  rs_fs (scheduled example_cfg 2 example_tasks example_run_fs example_schedule)
  = in_list_order example_cfg (Partition example_cfg 2 example_tasks) example_run_fs.
Proof.
  refine (result_independent_of_schedule example_cfg 2 example_tasks example_run_fs
            (scheduled example_cfg 2 example_tasks example_run_fs example_schedule)
            _ _ _ _ _).
  - apply (@bool_decide_unpack _ (NoDup_dec _)). vm_compute. exact I.
  - apply (@bool_decide_unpack _ (NoDup_dec _)). vm_compute. exact I.
  - repeat constructor.
  - apply scheduled_reachable. discriminate.
  - vm_compute. reflexivity.
Defined.

(** ** Class ids and the manifest *)

Section ClassMapFacts.
Variable TrimSpace : string -> string.

Lemma build_clsMap_snoc (l : list string) (c : string) :
  build_clsMap TrimSpace (l ++ [c])
  = <[TrimSpace c := Z.of_nat (length l)]> (build_clsMap TrimSpace l).
Proof.
  unfold build_clsMap. rewrite imap_app, fold_left_app. simpl.
  now rewrite Nat.add_0_r.
Qed.

Lemma build_clsMap_lookup (l : list string) (name : string) (id : Z) :
  build_clsMap TrimSpace l !! name = Some id <->
  exists i : nat,
    id = Z.of_nat i /\ (TrimSpace <$> l) !! i = Some name /\
    forall j : nat, (i < j)%nat -> (TrimSpace <$> l) !! j <> Some name.
Proof.
  revert name id. induction l as [|c l IH] using rev_ind; intros name id.
  - unfold build_clsMap. simpl. rewrite lookup_empty. split; [discriminate|].
    intros (i & _ & Hi & _). discriminate.
  - rewrite build_clsMap_snoc, fmap_app. simpl.
    assert (Hlen : length (TrimSpace <$> l) = length l) by apply length_fmap.
    destruct (decide (TrimSpace c = name)) as [Heq|Hne].
    + rewrite Heq, lookup_insert_eq. split.
      * intros [= <-]. exists (length l). split; [reflexivity|]. split.
        -- rewrite lookup_app_r by lia. now rewrite Hlen, Nat.sub_diag.
        -- intros j Hj. rewrite lookup_app_r by lia.
           rewrite Hlen. destruct (j - length l)%nat as [|k] eqn:Hk; [lia|].
           simpl. discriminate.
      * intros (i & -> & Hi & Hlast). f_equal.
        pose proof (lookup_lt_Some _ _ _ Hi) as Hlt.
        rewrite length_app in Hlt. simpl in Hlt.
        destruct (decide (i = length l)) as [->|Hn]; [reflexivity|].
        exfalso. apply (Hlast (length l)); [lia|].
        rewrite lookup_app_r by lia. now rewrite Hlen, Nat.sub_diag.
    + rewrite lookup_insert_ne by exact Hne. rewrite IH. split.
      * intros (i & -> & Hi & Hlast). exists i. split; [reflexivity|].
        pose proof (lookup_lt_Some _ _ _ Hi) as Hlt.
        split; [now rewrite lookup_app_l|].
        intros j Hj. destruct (decide (j < length l)%nat) as [Hjl|Hjl].
        -- rewrite lookup_app_l by lia. now apply Hlast.
        -- rewrite lookup_app_r by lia. rewrite Hlen.
           destruct (j - length l)%nat as [|k]; simpl;
             [intros [= H]; contradiction|discriminate].
      * intros (i & -> & Hi & Hlast). exists i. split; [reflexivity|].
        pose proof (lookup_lt_Some _ _ _ Hi) as Hlt.
        rewrite length_app in Hlt. simpl in Hlt.
        destruct (decide (i = length l)) as [->|Hn].
        { rewrite lookup_app_r in Hi by lia.
          rewrite Hlen, Nat.sub_diag in Hi. simpl in Hi. congruence. }
        rewrite lookup_app_l in Hi by lia. split; [exact Hi|].
        intros j Hj Hc. apply (Hlast j Hj).
        pose proof (lookup_lt_Some _ _ _ Hc) as Hjl.
        now rewrite lookup_app_l by lia.
Qed.

Lemma build_clsMap_None (l : list string) (name : string) :
  build_clsMap TrimSpace l !! name = None <-> ~ In name (TrimSpace <$> l).
Proof.
  induction l as [|c l IH] using rev_ind.
  - unfold build_clsMap. simpl. rewrite lookup_empty. tauto.
  - rewrite build_clsMap_snoc, fmap_app. simpl.
    rewrite in_app_iff. simpl.
    destruct (decide (TrimSpace c = name)) as [Heq|Hne].
    + rewrite Heq, lookup_insert_eq. split; [discriminate|]. tauto.
    + rewrite lookup_insert_ne by exact Hne. rewrite IH. tauto.
Qed.

Lemma build_clsMap_injective (l : list string) (n1 n2 : string) (id : Z) :
  build_clsMap TrimSpace l !! n1 = Some id ->
  build_clsMap TrimSpace l !! n2 = Some id -> n1 = n2.
Proof.
  rewrite !build_clsMap_lookup.
  intros (i & -> & Hi & _) (j & Hj & Hj' & _).
  apply Nat2Z.inj in Hj. subst j. congruence.
Qed.

Lemma build_clsMap_size (l : list string) :
  (size (build_clsMap TrimSpace l) <= length l)%nat /\
  (size (build_clsMap TrimSpace l) = length l <-> NoDup (TrimSpace <$> l)).
Proof.
  induction l as [|c l [IHle IHeq]] using rev_ind.
  - unfold build_clsMap. simpl. rewrite map_size_empty.
    split; [lia|]. split; [constructor|reflexivity].
  - rewrite build_clsMap_snoc, fmap_app, length_app. simpl.
    rewrite NoDup_app.
    destruct (build_clsMap TrimSpace l !! TrimSpace c) as [v|] eqn:Hc.
    + rewrite map_size_insert_Some by eauto. split; [lia|].
      split; [lia|]. intros (_ & Hdisj & _). exfalso.
      assert (Hin : In (TrimSpace c) (TrimSpace <$> l)).
      { destruct (in_dec string_dec (TrimSpace c) (TrimSpace <$> l)) as [H|H];
          [exact H|]. apply build_clsMap_None in H. congruence. }
      apply (Hdisj (TrimSpace c)); [now apply list_elem_of_In|].
      apply list_elem_of_In. now left.
    + rewrite map_size_insert_None by exact Hc. split; [lia|].
      apply build_clsMap_None in Hc. split.
      * intros Hs. split; [apply IHeq; lia|]. split.
        -- intros x Hx Hx'. apply list_elem_of_In in Hx, Hx'.
           destruct Hx' as [<-|[]]. contradiction.
        -- apply NoDup_singleton.
      * intros (Hnd & _ & _). apply IHeq in Hnd. lia.
Qed.

(** X10: class ids are positions in the list typed into the class field,
    compared after trimming: a name has the id [i] exactly when the piece
    at position [i] trims to it and no later piece does.  A name listed
    twice has the id of its last occurrence. *)
Theorem class_ids_are_last_positions (clsList : list string) (name : string)
  (id : Z) :
  build_clsMap TrimSpace clsList !! name = Some id <->
  exists i : nat,
    id = Z.of_nat i /\ (TrimSpace <$> clsList) !! i = Some name /\
    forall j : nat, (i < j)%nat -> (TrimSpace <$> clsList) !! j <> Some name.
Proof. apply build_clsMap_lookup. Qed.

Lemma invert_fold_other (order : list (string * Z)) (acc : gmap Z string) (v : Z) :
  ~ In v (map snd order) ->
  fold_left (fun inv kv => <[snd kv := fst kv]> inv) order acc !! v = acc !! v.
Proof.
  revert acc. induction order as [|[k w] order IH]; intros acc Hn; [reflexivity|].
  simpl in *. rewrite IH by tauto. apply lookup_insert_ne. tauto.
Qed.

Lemma invert_fold_In (order : list (string * Z)) (acc : gmap Z string)
  (k : string) (v : Z) :
  NoDup (map snd order) -> In (k, v) order ->
  fold_left (fun inv kv => <[snd kv := fst kv]> inv) order acc !! v = Some k.
Proof.
  revert acc. induction order as [|[k' w] order IH]; intros acc Hnd Hin; [destruct Hin|].
  simpl in *. apply NoDup_cons in Hnd as [Hw Hnd].
  destruct Hin as [[= -> ->]|Hin].
  - rewrite invert_fold_other; [apply lookup_insert_eq|].
    intros Hv. apply Hw. now apply list_elem_of_In.
  - now apply IH.
Qed.

Lemma invert_fold_size (order : list (string * Z)) (acc : gmap Z string) :
  NoDup (map snd order) ->
  (forall v, In v (map snd order) -> acc !! v = None) ->
  size (fold_left (fun inv kv => <[snd kv := fst kv]> inv) order acc)
  = (size acc + length order)%nat.
Proof.
  revert acc. induction order as [|[k w] order IH]; intros acc Hnd Hfresh;
    simpl; [lia|].
  simpl in *. apply NoDup_cons in Hnd as [Hw Hnd].
  rewrite IH; [|exact Hnd|].
  - rewrite map_size_insert_None by (apply Hfresh; now left). lia.
  - intros v Hv. rewrite lookup_insert_ne; [apply Hfresh; now right|].
    intros ->. apply Hw. now apply list_elem_of_In.
Qed.

Lemma class_values_NoDup (clsList : list string) (order : list (string * Z)) :
  order ≡ₚ map_to_list (build_clsMap TrimSpace clsList) ->
  NoDup (map snd order).
Proof.
  intros Hp. change (map snd order) with (snd <$> order).
  apply NoDup_fmap_2_strong.
  - intros [k1 v1] [k2 v2] H1 H2 Hv. simpl in Hv. subst v2.
    rewrite Hp in H1, H2. apply elem_of_map_to_list in H1, H2.
    f_equal. eapply build_clsMap_injective; eauto.
  - rewrite Hp. apply NoDup_map_to_list.
Qed.

Lemma invert_map_lookup (clsList : list string) (order : list (string * Z))
  (id : Z) (name : string) :
  order ≡ₚ map_to_list (build_clsMap TrimSpace clsList) ->
  invert_map order !! id = Some name <->
  build_clsMap TrimSpace clsList !! name = Some id.
Proof.
  intros Hp. pose proof (class_values_NoDup clsList order Hp) as Hnd.
  unfold invert_map. split.
  - intros Hl.
    destruct (in_dec Z.eq_dec id (map snd order)) as [Hin|Hout].
    + apply in_map_iff in Hin as ([k v] & Hv & Hin). simpl in Hv. subst v.
      rewrite (invert_fold_In order ∅ k id Hnd Hin) in Hl.
      injection Hl as ->.
      apply elem_of_map_to_list. rewrite <- Hp. now apply list_elem_of_In.
    + rewrite invert_fold_other in Hl by exact Hout.
      rewrite lookup_empty in Hl. discriminate.
  - intros Hl. apply invert_fold_In; [exact Hnd|].
    apply list_elem_of_In. rewrite Hp. now apply elem_of_map_to_list.
Qed.

Lemma invert_map_size (clsList : list string) (order : list (string * Z)) :
  order ≡ₚ map_to_list (build_clsMap TrimSpace clsList) ->
  size (invert_map order) = size (build_clsMap TrimSpace clsList).
Proof.
  intros Hp. unfold invert_map.
  rewrite invert_fold_size.
  - rewrite map_size_empty. simpl.
    rewrite <- length_map_to_list. now apply Permutation_length.
  - exact (class_values_NoDup clsList order Hp).
  - intros v _. apply lookup_empty.
Qed.

(** X11: the map from ids back to names does not depend on the order in
    which the class map is iterated: id and name are related in it exactly
    when they are in the class map, and the manifest gets as many name
    lines as there are different trimmed names. *)
Theorem inverse_map_independent_of_order (clsList : list string)
  (order : list (string * Z)) :
  order ≡ₚ map_to_list (build_clsMap TrimSpace clsList) ->
  (forall id name,
     invert_map order !! id = Some name <->
     build_clsMap TrimSpace clsList !! name = Some id) /\
  length (names_lines (invert_map order))
  = size (build_clsMap TrimSpace clsList) /\
  (length (names_lines (invert_map order)) <= length clsList)%nat.
Proof.
  intros Hp. split; [intros id name; now apply invert_map_lookup|].
  unfold names_lines. rewrite length_map, length_seq.
  rewrite (invert_map_size clsList order Hp).
  split; [reflexivity|]. apply build_clsMap_size.
Qed.

(** X12: when the trimmed class names are all different, the manifest
    lists every class on its own line, in the order typed, under the
    header: line [i] reads [  i: name]. *)
Theorem manifest_lists_classes (outDir : string) (clsList : list string)
  (order : list (string * Z)) :
  NoDup (TrimSpace <$> clsList) ->
  order ≡ₚ map_to_list (build_clsMap TrimSpace clsList) ->
  manifest_yaml outDir order
  = yaml_header outDir
    +:+ String.concat EmptyString
          (imap (fun i c => class_line i (TrimSpace c)) clsList).
Proof.
  intros Hnd Hp. unfold manifest_yaml. f_equal. f_equal.
  unfold names_lines. rewrite (invert_map_size clsList order Hp).
  apply build_clsMap_size in Hnd. rewrite Hnd.
  apply list_eq. intros i.
  change (map ?f ?l) with (f <$> l). rewrite list_lookup_fmap, list_lookup_imap.
  destruct (clsList !! i) as [c|] eqn:Hc.
  - pose proof (lookup_lt_Some _ _ _ Hc) as Hlt.
    rewrite lookup_seq_lt by exact Hlt. simpl. f_equal.
    unfold names_line, class_line.
    assert (Hinv : invert_map order !! Z.of_nat i = Some (TrimSpace c)).
    { apply (invert_map_lookup clsList order _ _ Hp).
      apply build_clsMap_lookup. exists i. split; [reflexivity|].
      assert (Hi : (TrimSpace <$> clsList) !! i = Some (TrimSpace c))
        by now rewrite list_lookup_fmap, Hc.
      split; [exact Hi|]. intros j Hj Hc'.
      apply build_clsMap_size in Hnd.
      pose proof (NoDup_lookup _ i j _ Hnd Hi Hc'). lia. }
    now rewrite Hinv.
  - apply lookup_ge_None in Hc. rewrite lookup_seq_ge by exact Hc. reflexivity.
Qed.

(** X13: when a trimmed class name occurs twice, the manifest has fewer
    name lines than classes were typed, while the last class typed keeps
    the highest id, [N - 1]: label files can carry an id for which the
    manifest has no line. *)
Theorem manifest_omits_highest_id (clsList : list string) (last : string)
  (order : list (string * Z)) :
  ~ NoDup (TrimSpace <$> (clsList ++ [last])) ->
  order ≡ₚ map_to_list (build_clsMap TrimSpace (clsList ++ [last])) ->
  build_clsMap TrimSpace (clsList ++ [last]) !! TrimSpace last
  = Some (Z.of_nat (length clsList)) /\
  (length (names_lines (invert_map order)) <= length clsList)%nat.
Proof.
  intros Hdup Hp. split.
  - rewrite build_clsMap_snoc. apply lookup_insert_eq.
  - unfold names_lines. rewrite length_map, length_seq.
    rewrite (invert_map_size _ order Hp).
    destruct (build_clsMap_size (clsList ++ [last])) as [Hle Heq].
    rewrite length_app in Hle, Heq. simpl in Hle, Heq.
    destruct (decide (size (build_clsMap TrimSpace (clsList ++ [last]))
                      = (length clsList + 1)%nat)) as [He|Hn]; [|lia].
    exfalso. apply Hdup. now apply Heq.
Qed.

End ClassMapFacts.

Lemma inverse_map_independent_of_order_witness :
  let order := map_to_list (build_clsMap ascii_TrimSpace example_classes_twice) in
  (forall id name,
     invert_map order !! id = Some name <->
     build_clsMap ascii_TrimSpace example_classes_twice !! name = Some id) /\
  length (names_lines (invert_map order))
  = size (build_clsMap ascii_TrimSpace example_classes_twice) /\
  (length (names_lines (invert_map order)) <= length example_classes_twice)%nat.
Proof.
  exact (inverse_map_independent_of_order ascii_TrimSpace example_classes_twice
           _ (Permutation_refl _)).
Defined.

Lemma manifest_lists_classes_witness :
  manifest_yaml "out" (map_to_list (build_clsMap ascii_TrimSpace example_classes))
  = yaml_header "out"
    +:+ String.concat EmptyString
          (imap (fun i c => class_line i (ascii_TrimSpace c)) example_classes).
Proof.
  refine (manifest_lists_classes ascii_TrimSpace "out" example_classes _ _
            (Permutation_refl _)).
  apply (@bool_decide_unpack _ (NoDup_dec _)). vm_compute. exact I.
Defined.

Lemma manifest_omits_highest_id_witness :
  build_clsMap ascii_TrimSpace (example_classes ++ ["cat "]) !! ascii_TrimSpace "cat "
  = Some (Z.of_nat (length example_classes)) /\
  (length (names_lines
             (invert_map
                (map_to_list (build_clsMap ascii_TrimSpace
                                (example_classes ++ ["cat "])))))
   <= length example_classes)%nat.
Proof.
  refine (manifest_omits_highest_id ascii_TrimSpace example_classes "cat " _ _
            (Permutation_refl _)).
  intros H. apply (@bool_decide_pack _ (NoDup_dec _)) in H.
  vm_compute in H. exact H.
Defined.

Lemma prefix_append_cancel (a b c : string) :
  String.prefix (a +:+ b) (a +:+ c) = String.prefix b c.
Proof.
  induction a as [|x a IH]; [reflexivity|].
  change (String x a +:+ b) with (String x (a +:+ b)).
  change (String x a +:+ c) with (String x (a +:+ c)). simpl.
  destruct (ascii_dec x x) as [_|Hn]; [exact IH|contradiction].
Qed.

Lemma manifest_outside_tree (outDir : string) :
  in_output_tree outDir (filepath_Join [outDir; "data.yaml"]) = false.
Proof.
  unfold in_output_tree, filepath_Join. cbn [strings_Join].
  now rewrite !prefix_append_cancel.
Qed.

(** X23: writing the manifest touches one path only, [outDir/data.yaml],
    which lies outside [outDir/images/] and [outDir/labels/]: no exported
    picture or label file is changed by it, and a writable manifest path
    then holds the header and the name lines. *)
Theorem manifest_leaves_exports (outDir : string) (order : list (string * Z))
  (fs : FileSystem) :
  let fs' := write_manifest outDir order fs in
  (forall p, p <> filepath_Join [outDir; "data.yaml"] ->
     file_at fs' p = file_at fs p) /\
  (forall p, in_output_tree outDir p = true -> file_at fs' p = file_at fs p) /\
  (filepath_Join [outDir; "data.yaml"] ∉ fs_locked fs ->
   file_at fs' (filepath_Join [outDir; "data.yaml"])
   = Some (manifest_yaml outDir order)) /\
  (filepath_Join [outDir; "data.yaml"] ∈ fs_locked fs -> fs' = fs).
Proof.
  intros fs'. subst fs'. unfold write_manifest.
  assert (Hframe : forall p, p <> filepath_Join [outDir; "data.yaml"] ->
            file_at (snd (os_WriteFile fs (filepath_Join [outDir; "data.yaml"])
                            (manifest_yaml outDir order))) p = file_at fs p).
  { intros p Hp.
    destruct (os_WriteFile_cases fs (filepath_Join [outDir; "data.yaml"])
                (manifest_yaml outDir order)) as [-> | ->]; [|reflexivity].
    now apply written_frame. }
  split; [exact Hframe|]. split.
  - intros p Hp. apply Hframe. intros ->.
    now rewrite manifest_outside_tree in Hp.
  - split.
    + intros Hl. rewrite os_WriteFile_unlocked by exact Hl. apply written_at.
    + intros Hl. now rewrite os_WriteFile_locked.
Qed.

Lemma split_on_nonempty (sep : ascii) (s : string) : strings_Split_on sep s <> [].
Proof.
  destruct s as [|c s]; simpl; [discriminate|].
  destruct (Ascii.eqb c sep); [discriminate|].
  destruct (strings_Split_on sep s); discriminate.
Qed.

Lemma split_on_app (sep : ascii) (s t : string) :
  strings_Split_on sep (s +:+ String sep t)
  = strings_Split_on sep s ++ strings_Split_on sep t.
Proof.
  induction s as [|c s IH].
  - change (EmptyString +:+ String sep t) with (String sep t). simpl.
    now rewrite Ascii.eqb_refl.
  - change (String c s +:+ String sep t) with (String c (s +:+ String sep t)).
    simpl. destruct (Ascii.eqb c sep); [now rewrite IH|].
    rewrite IH. pose proof (split_on_nonempty sep s) as Hne.
    destruct (strings_Split_on sep s) as [|l ls]; [contradiction|reflexivity].
Qed.

Section ClassText.
Variable TrimSpace : string -> string.
Hypothesis TrimSpace_empty : TrimSpace EmptyString = EmptyString.

(** X24: a comma at the end of the class field makes a class of its own:
    the empty name gets the id after those of the pieces before the
    comma, the highest id of the map. *)
Theorem trailing_comma_adds_empty_class (text : string) :
  clsMap_of_text TrimSpace (text +:+ ",") !! EmptyString
  = Some (Z.of_nat (length (strings_Split_on comma text))) /\
  forall name id,
    clsMap_of_text TrimSpace (text +:+ ",") !! name = Some id ->
    0 <= id <= Z.of_nat (length (strings_Split_on comma text)).
Proof.
  unfold clsMap_of_text.
  change (text +:+ ",") with (text +:+ String comma EmptyString).
  rewrite split_on_app. simpl. split.
  - rewrite build_clsMap_snoc, TrimSpace_empty. apply lookup_insert_eq.
  - intros name id Hl. apply build_clsMap_lookup in Hl as (i & -> & Hi & _).
    apply lookup_lt_Some in Hi. rewrite length_fmap, length_app in Hi.
    simpl in Hi. lia.
Qed.

End ClassText.

Lemma trailing_comma_adds_empty_class_witness :
  clsMap_of_text ascii_TrimSpace ("cat, dog" +:+ ",") !! EmptyString
  = Some (Z.of_nat (length (strings_Split_on comma "cat, dog"))) /\
  forall name id,
    clsMap_of_text ascii_TrimSpace ("cat, dog" +:+ ",") !! name = Some id ->
    0 <= id <= Z.of_nat (length (strings_Split_on comma "cat, dog")).
Proof.
  exact (trailing_comma_adds_empty_class ascii_TrimSpace eq_refl "cat, dog").
Defined.

(** ** More on the conversion *)

Section BoxFacts.

Lemma exact_ltb_true (x y : Q) : exact_ltb x y = true -> (x < y)%Q.
Proof.
  unfold exact_ltb. intros H. apply negb_true_iff in H.
  apply Qnot_le_lt. intros Hle. apply Qle_bool_iff in Hle. congruence.
Qed.

Lemma exact_ltb_false (x y : Q) : exact_ltb x y = false -> (y <= x)%Q.
Proof.
  unfold exact_ltb. intros H. apply negb_false_iff in H.
  now apply Qle_bool_iff.
Qed.

(** One round of the polygon loop: the box only grows, and it holds the
    point just seen. *)
Lemma scan_point_grows (b : Q * Q * Q * Q) (p : list Q) :
  let '(minX, minY, maxX, maxY) := b in
  let '(minX', minY', maxX', maxY') := scan_point b p in
  (minX' <= minX /\ minY' <= minY /\ maxX <= maxX' /\ maxY <= maxY')%Q /\
  (forall p0 p1 rest, p = p0 :: p1 :: rest ->
     (minX' <= p0 <= maxX' /\ minY' <= p1 <= maxY')%Q) /\
  ((minX' = minX \/ exists p0 p1 rest, p = p0 :: p1 :: rest /\ minX' = p0) /\
   (minY' = minY \/ exists p0 p1 rest, p = p0 :: p1 :: rest /\ minY' = p1) /\
   (maxX' = maxX \/ exists p0 p1 rest, p = p0 :: p1 :: rest /\ maxX' = p0) /\
   (maxY' = maxY \/ exists p0 p1 rest, p = p0 :: p1 :: rest /\ maxY' = p1)).
Proof.
  destruct b as [[[minX minY] maxX] maxY].
  destruct p as [|p0 [|p1 rest]]; simpl.
  - repeat split; try apply Qle_refl; try discriminate; auto.
  - repeat split; try apply Qle_refl; try discriminate; auto.
  - change (@f_ltb Q exact_float64) with exact_ltb.
    destruct (exact_ltb p0 minX) eqn:H1; destruct (exact_ltb p1 minY) eqn:H2;
      destruct (exact_ltb maxX p0) eqn:H3; destruct (exact_ltb maxY p1) eqn:H4;
      try apply exact_ltb_true in H1; try apply exact_ltb_false in H1;
      try apply exact_ltb_true in H2; try apply exact_ltb_false in H2;
      try apply exact_ltb_true in H3; try apply exact_ltb_false in H3;
      try apply exact_ltb_true in H4; try apply exact_ltb_false in H4;
      (split; [repeat split; lra|]);
      (split; [intros q0 q1 r [= <- <- <-]; repeat split; lra|]);
      repeat split; solve [left; reflexivity | right; eauto].
Qed.

Lemma scan_fold_encloses (points : list (list Q)) (b : Q * Q * Q * Q) :
  let '(minX, minY, maxX, maxY) := b in
  let '(minX', minY', maxX', maxY') := fold_left scan_point points b in
  (minX' <= minX /\ minY' <= minY /\ maxX <= maxX' /\ maxY <= maxY')%Q /\
  (forall p0 p1 rest, In (p0 :: p1 :: rest) points ->
     (minX' <= p0 <= maxX' /\ minY' <= p1 <= maxY')%Q).
Proof.
  revert b. induction points as [|p points IH]; intros b.
  - destruct b as [[[minX minY] maxX] maxY]. simpl.
    split; [repeat split; apply Qle_refl|]. intros ? ? ? [].
  - simpl. pose proof (scan_point_grows b p) as Hstep.
    specialize (IH (scan_point b p)).
    destruct b as [[[minX minY] maxX] maxY].
    destruct (scan_point (minX, minY, maxX, maxY) p) as [[[a1 a2] a3] a4].
    destruct (fold_left scan_point points (a1, a2, a3, a4)) as [[[r1 r2] r3] r4].
    destruct Hstep as [(G1 & G2 & G3 & G4) [Hp _]].
    destruct IH as [(I1 & I2 & I3 & I4) Hrest].
    split; [repeat split; lra|].
    intros p0 p1 rest [->|Hin].
    + destruct (Hp p0 p1 rest eq_refl) as [[? ?] [? ?]]. repeat split; lra.
    + exact (Hrest p0 p1 rest Hin).
Qed.

Lemma scan_fold_attained (points : list (list Q)) (b : Q * Q * Q * Q) :
  let '(minX, minY, maxX, maxY) := b in
  let '(minX', minY', maxX', maxY') := fold_left scan_point points b in
  (minX' = minX \/ exists p0 p1 rest, In (p0 :: p1 :: rest) points /\ minX' = p0) /\
  (minY' = minY \/ exists p0 p1 rest, In (p0 :: p1 :: rest) points /\ minY' = p1) /\
  (maxX' = maxX \/ exists p0 p1 rest, In (p0 :: p1 :: rest) points /\ maxX' = p0) /\
  (maxY' = maxY \/ exists p0 p1 rest, In (p0 :: p1 :: rest) points /\ maxY' = p1).
Proof.
  revert b. induction points as [|p points IH]; intros b.
  - destruct b as [[[minX minY] maxX] maxY]. simpl. auto.
  - simpl. pose proof (scan_point_grows b p) as Hstep.
    specialize (IH (scan_point b p)).
    destruct b as [[[minX minY] maxX] maxY].
    destruct (scan_point (minX, minY, maxX, maxY) p) as [[[a1 a2] a3] a4].
    destruct (fold_left scan_point points (a1, a2, a3, a4)) as [[[r1 r2] r3] r4].
    destruct Hstep as [_ [_ (S1 & S2 & S3 & S4)]].
    destruct IH as (I1 & I2 & I3 & I4).
    repeat split.
    + destruct I1 as [->|(q0 & q1 & r & Hin & ->)];
        [|right; exists q0, q1, r; split; [now right|reflexivity]].
      destruct S1 as [->|(q0 & q1 & r & -> & ->)];
        [now left|right; exists q0, q1, r; split; [now left|reflexivity]].
    + destruct I2 as [->|(q0 & q1 & r & Hin & ->)];
        [|right; exists q0, q1, r; split; [now right|reflexivity]].
      destruct S2 as [->|(q0 & q1 & r & -> & ->)];
        [now left|right; exists q0, q1, r; split; [now left|reflexivity]].
    + destruct I3 as [->|(q0 & q1 & r & Hin & ->)];
        [|right; exists q0, q1, r; split; [now right|reflexivity]].
      destruct S3 as [->|(q0 & q1 & r & -> & ->)];
        [now left|right; exists q0, q1, r; split; [now left|reflexivity]].
    + destruct I4 as [->|(q0 & q1 & r & Hin & ->)];
        [|right; exists q0, q1, r; split; [now right|reflexivity]].
      destruct S4 as [->|(q0 & q1 & r & -> & ->)];
        [now left|right; exists q0, q1, r; split; [now left|reflexivity]].
Qed.

(** X14: in exact arithmetic the box computed for a polygon encloses every
    point that has two coordinates: the point's first coordinate lies
    between minX and maxX and its second between minY and maxY.  Points
    with fewer coordinates are passed over. *)
Theorem polygon_box_encloses_points (points : list (list Q)) :
  let '(minX, minY, maxX, maxY) := fold_left scan_point points sentinel in
  forall p0 p1 rest, In (p0 :: p1 :: rest) points ->
    (minX <= p0 <= maxX /\ minY <= p1 <= maxY)%Q.
Proof.
  pose proof (scan_fold_encloses points sentinel) as H.
  unfold sentinel in *. simpl in H.
  destruct (fold_left scan_point points _) as [[[r1 r2] r3] r4].
  exact (proj2 H).
Qed.

(** X15: in exact arithmetic, for a polygon with at least one point of two
    coordinates and all coordinates within the finite [float64] range, the
    box is the tightest one: each of its four sides touches a point of
    the polygon. *)
Theorem polygon_box_is_tight (points : list (list Q)) (q0 q1 : Q) (more : list Q) :
  In (q0 :: q1 :: more) points ->
  Forall in_float_range points ->
  let '(minX, minY, maxX, maxY) := fold_left scan_point points sentinel in
  (exists p0 p1 rest, In (p0 :: p1 :: rest) points /\ minX == p0)%Q /\
  (exists p0 p1 rest, In (p0 :: p1 :: rest) points /\ minY == p1)%Q /\
  (exists p0 p1 rest, In (p0 :: p1 :: rest) points /\ maxX == p0)%Q /\
  (exists p0 p1 rest, In (p0 :: p1 :: rest) points /\ maxY == p1)%Q.
Proof.
  intros Hin Hrange.
  pose proof (scan_fold_encloses points sentinel) as He.
  pose proof (scan_fold_attained points sentinel) as Ha.
  unfold sentinel in *. simpl in He, Ha.
  destruct (fold_left scan_point points _) as [[[r1 r2] r3] r4].
  destruct He as [_ He]. destruct (He q0 q1 more Hin) as [[E1 E2] [E3 E4]].
  rewrite List.Forall_forall in Hrange. specialize (Hrange _ Hin).
  unfold in_float_range in Hrange.
  apply Forall_cons in Hrange as [[R1 R2] Hrange].
  apply Forall_cons in Hrange as [[R3 R4] _].
  destruct Ha as (A1 & A2 & A3 & A4).
  repeat split.
  - destruct A1 as [->|(p0 & p1 & r & Hp & ->)];
      [exists q0, q1, more; split; [exact Hin|lra]
      |exists p0, p1, r; split; [exact Hp|reflexivity]].
  - destruct A2 as [->|(p0 & p1 & r & Hp & ->)];
      [exists q0, q1, more; split; [exact Hin|lra]
      |exists p0, p1, r; split; [exact Hp|reflexivity]].
  - destruct A3 as [->|(p0 & p1 & r & Hp & ->)];
      [exists q0, q1, more; split; [exact Hin|lra]
      |exists p0, p1, r; split; [exact Hp|reflexivity]].
  - destruct A4 as [->|(p0 & p1 & r & Hp & ->)];
      [exists q0, q1, more; split; [exact Hin|lra]
      |exists p0, p1, r; split; [exact Hp|reflexivity]].
Qed.

End BoxFacts.

Lemma polygon_box_is_tight_witness :
  let '(minX, minY, maxX, maxY) := fold_left scan_point example_polygon sentinel in
  (exists p0 p1 rest, In (p0 :: p1 :: rest) example_polygon /\ minX == p0)%Q /\
  (exists p0 p1 rest, In (p0 :: p1 :: rest) example_polygon /\ minY == p1)%Q /\
  (exists p0 p1 rest, In (p0 :: p1 :: rest) example_polygon /\ maxX == p0)%Q /\
  (exists p0 p1 rest, In (p0 :: p1 :: rest) example_polygon /\ maxY == p1)%Q.
Proof.
  refine (polygon_box_is_tight example_polygon (3 # 1) (4 # 1) [] _ _).
  - left. reflexivity.
  - repeat constructor; vm_compute; discriminate.
Defined.

Section LineCount.
Context {F : Type} {FA : Float64 F}.
Variable Sprintf_line : Z -> F -> F -> F -> F -> string.

Lemma shape_lines_length imgW imgH classMap (shape : LabelMeShape F) :
  length (shape_lines Sprintf_line imgW imgH classMap shape)
  = if shape_counts classMap shape then 1%nat else 0%nat.
Proof.
  unfold shape_lines, convert_shape, shape_counts.
  destruct (classMap !! Label shape) as [id|].
  - rewrite bool_decide_eq_true_2 by eauto. simpl.
    destruct (0 <? Z.of_nat (length (Points shape))); [|reflexivity].
    now destruct (fold_left scan_point (Points shape) sentinel) as [[[? ?] ?] ?].
  - rewrite bool_decide_eq_false_2; [reflexivity|]. intros [x Hx]. discriminate.
Qed.

Lemma rect_lines_length imgW imgH classMap (lbl : LabelMeRect F) :
  length (rect_lines Sprintf_line imgW imgH classMap lbl)
  = if rect_counts classMap lbl then 1%nat else 0%nat.
Proof.
  unfold rect_lines, convert_label, rect_counts.
  destruct (classMap !! Name lbl) as [id|].
  - now rewrite bool_decide_eq_true_2 by eauto.
  - rewrite bool_decide_eq_false_2; [reflexivity|]. intros [x Hx]. discriminate.
Qed.

Lemma flat_map_count {A B : Type} (g : A -> list B) (keep : A -> bool) (l : list A) :
  (forall x, length (g x) = if keep x then 1%nat else 0%nat) ->
  length (flat_map g l) = length (List.filter keep l).
Proof.
  intros Hg. induction l as [|x l IH]; simpl; [reflexivity|].
  rewrite length_app, Hg, IH. now destruct (keep x).
Qed.

(** X16: the conversion gives one line for each polygon of a known class
    that has at least one point, in document order, followed by one line
    for each rectangle of a known class, in document order, and no other
    line. *)
Theorem conversion_line_count (imgW imgH : Z) (classMap : gmap string Z)
  (data : LabelMeJSON F) :
  convert_document Sprintf_line imgW imgH classMap data
  = flat_map (shape_lines Sprintf_line imgW imgH classMap) (Shapes data)
    ++ flat_map (rect_lines Sprintf_line imgW imgH classMap) (Labels data) /\
  length (flat_map (shape_lines Sprintf_line imgW imgH classMap) (Shapes data))
  = length (List.filter (shape_counts classMap) (Shapes data)) /\
  length (flat_map (rect_lines Sprintf_line imgW imgH classMap) (Labels data))
  = length (List.filter (rect_counts classMap) (Labels data)) /\
  (length (convert_document Sprintf_line imgW imgH classMap data)
   <= length (Shapes data) + length (Labels data))%nat.
Proof.
  assert (H1 := flat_map_count (shape_lines Sprintf_line imgW imgH classMap)
                  (shape_counts classMap) (Shapes data)
                  (shape_lines_length imgW imgH classMap)).
  assert (H2 := flat_map_count (rect_lines Sprintf_line imgW imgH classMap)
                  (rect_counts classMap) (Labels data)
                  (rect_lines_length imgW imgH classMap)).
  split; [apply convert_document_flat|]. split; [exact H1|]. split; [exact H2|].
  rewrite convert_document_flat, length_app, H1, H2.
  pose proof (List.filter_length_le (shape_counts classMap) (Shapes data)).
  pose proof (List.filter_length_le (rect_counts classMap) (Labels data)).
  lia.
Qed.

End LineCount.




(** ** More on the label file *)

Lemma split_no_newline (s : string) :
  Forall (fun l => no_newline l = true) (strings_Split_nl s).
Proof.
  induction s as [|c s IH]; simpl.
  - constructor; [reflexivity|constructor].
  - destruct (Ascii.eqb c newline) eqn:Hc.
    + constructor; [reflexivity|exact IH].
    + destruct (strings_Split_nl s) as [|l ls].
      * constructor; [|constructor]. simpl. now rewrite Hc.
      * inversion IH as [|? ? Hl Hls]; subst. constructor; auto.
        simpl. now rewrite Hc, Hl.
Qed.

Lemma split_app_nl (s t : string) :
  strings_Split_nl (s +:+ nl +:+ t) = strings_Split_nl s ++ strings_Split_nl t.
Proof.
  induction s as [|c s IH].
  - change (EmptyString +:+ nl +:+ t) with (String newline t). reflexivity.
  - change (String c s +:+ nl +:+ t) with (String c (s +:+ nl +:+ t)). simpl.
    destruct (Ascii.eqb c newline); [now rewrite IH|].
    rewrite IH. pose proof (split_nonempty s) as Hne.
    destruct (strings_Split_nl s) as [|l ls]; [contradiction|reflexivity].
Qed.

Lemma split_line (l : string) :
  no_newline l = true -> strings_Split_nl l = [l].
Proof.
  induction l as [|c l IH]; simpl; [reflexivity|].
  intros H. apply andb_true_iff in H as [Hc Hl].
  apply negb_true_iff in Hc. rewrite Hc, (IH Hl). reflexivity.
Qed.

Lemma split_join (lines : list string) :
  lines <> [] -> Forall (fun l => no_newline l = true) lines ->
  strings_Split_nl (strings_Join lines nl) = lines.
Proof.
  induction lines as [|a rest IH]; intros Hne Hall; [contradiction|].
  inversion Hall as [|? ? Ha Hrest]; subst.
  destruct rest as [|b rest']; [now apply split_line|].
  change (strings_Join (a :: b :: rest') nl)
    with (a +:+ nl +:+ strings_Join (b :: rest') nl).
  rewrite split_app_nl, (split_line a Ha), IH; [reflexivity|discriminate|exact Hrest].
Qed.

Lemma join_cons (a : string) (rest : list string) :
  rest <> [] -> strings_Join (a :: rest) nl = a +:+ nl +:+ strings_Join rest nl.
Proof. destruct rest; [contradiction|reflexivity]. Qed.

Lemma join_split (s : string) : strings_Join (strings_Split_nl s) nl = s.
Proof.
  induction s as [|c s IH]; [reflexivity|]. simpl.
  pose proof (split_nonempty s) as Hne.
  destruct (Ascii.eqb c newline) eqn:Hc.
  - apply Ascii.eqb_eq in Hc. subst c.
    rewrite join_cons by exact Hne. now rewrite IH.
  - destruct (strings_Split_nl s) as [|l ls]; [contradiction|].
    destruct ls as [|l' ls'].
    + simpl in *. now rewrite IH.
    + change (strings_Join (String c l :: l' :: ls') nl)
        with (String c (l +:+ nl +:+ strings_Join (l' :: ls') nl)).
      change (strings_Join (l :: l' :: ls') nl)
        with (l +:+ nl +:+ strings_Join (l' :: ls') nl) in IH.
      now rewrite IH.
Qed.

Lemma written_same (fs : FileSystem) (name data : string) :
  os_ReadFile fs name = Some data -> written fs name data = fs.
Proof.
  intros Hread. unfold written. destruct fs as [files locked]. simpl in *.
  f_equal. now apply insert_id.
Qed.

Lemma label_content_written (fs : FileSystem) (name data : string) :
  label_content (written fs name data) name = data.
Proof.
  unfold label_content, os_ReadFile.
  change (fs_files (written fs name data) !! name)
    with (file_at (written fs name data) name).
  now rewrite written_at.
Qed.

Section LabelFileMore.
Variable TrimSpace : string -> string.
Hypothesis TrimSpace_empty : TrimSpace EmptyString = EmptyString.

Lemma delete_first_match_none targetRaw lines :
  Forall (fun l => matches TrimSpace targetRaw l = false) lines ->
  delete_first_match TrimSpace targetRaw lines = lines.
Proof.
  induction 1 as [|l rest Hl _ IH]; simpl; [reflexivity|].
  now rewrite Hl, IH.
Qed.

Lemma delete_first_match_last targetRaw lines :
  Forall (fun l => matches TrimSpace targetRaw l = false) lines ->
  delete_first_match TrimSpace targetRaw (lines ++ [targetRaw]) = lines.
Proof.
  induction 1 as [|l rest Hl _ IH]; simpl.
  - unfold matches. now rewrite String.eqb_refl.
  - now rewrite Hl, IH.
Qed.

Lemma drop_blank_none lines :
  Forall (fun l => is_blank TrimSpace l = false) lines ->
  drop_blank TrimSpace lines = lines.
Proof.
  induction 1 as [|l rest Hl _ IH]; simpl; [reflexivity|].
  unfold drop_blank in *. simpl. now rewrite Hl, IH.
Qed.

Lemma removeLabelFromFile_content labelPath targetRaw fs :
  labelPath ∉ fs_locked fs ->
  removeLabelFromFile TrimSpace labelPath targetRaw fs
  = written fs labelPath
      (strings_Join
         (drop_blank TrimSpace
            (delete_first_match TrimSpace targetRaw
               (strings_Split_nl (label_content fs labelPath)))) nl).
Proof.
  intros Hlock. unfold removeLabelFromFile. rewrite remove_line_refines.
  now rewrite os_WriteFile_unlocked by exact Hlock.
Qed.

(** X17: reading the label file back after a removal gives the lines that
    were kept: splitting the new content at newlines returns exactly the
    lines that are not blank and were not the one deleted, in their old
    order; when no line is kept the file is empty. *)
Theorem removal_can_be_read_back (labelPath targetRaw : string) (fs : FileSystem) :
  labelPath ∉ fs_locked fs ->
  let kept := drop_blank TrimSpace
                (delete_first_match TrimSpace targetRaw
                   (strings_Split_nl (label_content fs labelPath))) in
  let out := label_content (removeLabelFromFile TrimSpace labelPath targetRaw fs)
               labelPath in
  (kept = [] -> out = EmptyString) /\
  (kept <> [] -> strings_Split_nl out = kept).
Proof.
  intros Hlock kept out. subst out.
  rewrite removeLabelFromFile_content by exact Hlock. fold kept.
  rewrite label_content_written. split.
  - now intros ->.
  - intros Hne. apply split_join; [exact Hne|].
    apply List.Forall_forall. intros l Hin. unfold kept, drop_blank in Hin.
    apply List.filter_In in Hin as [Hin _].
    apply delete_first_match_incl in Hin.
    pose proof (split_no_newline (label_content fs labelPath)) as Hall.
    rewrite List.Forall_forall in Hall. now apply Hall.
Qed.

(** X18: removing a label that is not in the file leaves a file without
    blank lines exactly as it was, byte for byte. *)
Theorem removing_absent_label_changes_nothing (labelPath targetRaw content : string)
  (fs : FileSystem) :
  os_ReadFile fs labelPath = Some content ->
  Forall (fun l => matches TrimSpace targetRaw l = false) (strings_Split_nl content) ->
  Forall (fun l => is_blank TrimSpace l = false) (strings_Split_nl content) ->
  removeLabelFromFile TrimSpace labelPath targetRaw fs = fs.
Proof.
  intros Hread Hno Hnb. unfold removeLabelFromFile.
  rewrite remove_line_refines. unfold spec_remove_line. rewrite Hread. simpl.
  rewrite delete_first_match_none by exact Hno.
  rewrite drop_blank_none by exact Hnb. rewrite join_split.
  destruct (os_WriteFile_cases fs labelPath content) as [-> | ->];
    [|reflexivity].
  simpl. now apply written_same.
Qed.

(** X19: removing a label from a label file that does not exist creates
    the file, empty. *)
Theorem removal_creates_missing_file (labelPath targetRaw : string)
  (fs : FileSystem) :
  os_ReadFile fs labelPath = None ->
  labelPath ∉ fs_locked fs ->
  file_at (removeLabelFromFile TrimSpace labelPath targetRaw fs) labelPath
  = Some EmptyString.
Proof.
  intros Hread Hlock. rewrite removeLabelFromFile_content by exact Hlock.
  rewrite written_at. unfold label_content. rewrite Hread. simpl.
  unfold matches. destruct (String.eqb _ _); simpl; [reflexivity|].
  unfold drop_blank, is_blank. simpl.
  now rewrite TrimSpace_empty.
Qed.

End LabelFileMore.

Section AppendLabel.
Context {F : Type} {FA : Float64 F}.
Variable Sprintf_line : Z -> F -> F -> F -> F -> string.
Variable TrimSpace : string -> string.
Hypothesis TrimSpace_empty : TrimSpace EmptyString = EmptyString.

Lemma appendLabelToFile_content labelPath origW origH cls x y w h fs :
  labelPath ∉ fs_locked fs ->
  appendLabelToFile Sprintf_line labelPath origW origH cls x y w h fs
  = written fs labelPath
      (label_content fs labelPath +:+ nl
       +:+ appended_line Sprintf_line origW origH cls x y w h).
Proof.
  intros Hlock. unfold appendLabelToFile, os_AppendString.
  destruct (decide _) as [Hin|_]; [contradiction|]. simpl.
  reflexivity.
Qed.

(** X20: a box drawn in the review window becomes the last line of the
    label file, after a newline, with every earlier line unchanged; a
    missing file is created and, like an empty one, then starts with an
    empty line.  A file that cannot be opened is left alone. *)
Theorem appended_label_is_last_line (labelPath : string) (origW origH : F)
  (cls : Z) (x y w h : F) (fs : FileSystem) :
  no_newline (appended_line Sprintf_line origW origH cls x y w h) = true ->
  let fs' := appendLabelToFile Sprintf_line labelPath origW origH cls x y w h fs in
  (labelPath ∈ fs_locked fs -> fs' = fs) /\
  (labelPath ∉ fs_locked fs ->
     strings_Split_nl (label_content fs' labelPath)
     = strings_Split_nl (label_content fs labelPath)
       ++ [appended_line Sprintf_line origW origH cls x y w h] /\
     forall p, p <> labelPath -> file_at fs' p = file_at fs p).
Proof.
  intros Hnl fs'. subst fs'. split.
  - intros Hlock. unfold appendLabelToFile, os_AppendString.
    destruct (decide _) as [_|Hn]; [reflexivity|contradiction].
  - intros Hlock. rewrite appendLabelToFile_content by exact Hlock. split.
    + rewrite label_content_written.
      rewrite split_app_nl. now rewrite (split_line _ Hnl).
    + intros p Hp. now apply written_frame.
Qed.

(** X21: deleting a box right after drawing it undoes the drawing: when
    the formatted line has no newline, is not blank, and no line already
    in the file equals it after trimming, the file then holds its former
    lines without the blank ones, and exactly its former content when it
    had no blank line or was empty or missing. *)
Theorem append_then_remove_restores (labelPath : string) (origW origH : F)
  (cls : Z) (x y w h : F) (fs : FileSystem) :
  let line := appended_line Sprintf_line origW origH cls x y w h in
  let old := label_content fs labelPath in
  labelPath ∉ fs_locked fs ->
  no_newline line = true ->
  is_blank TrimSpace line = false ->
  Forall (fun l => matches TrimSpace line l = false) (strings_Split_nl old) ->
  let fs' := removeLabelFromFile TrimSpace labelPath line
               (appendLabelToFile Sprintf_line labelPath origW origH cls x y w h fs) in
  file_at fs' labelPath
  = Some (strings_Join (drop_blank TrimSpace (strings_Split_nl old)) nl) /\
  (old = EmptyString \/
   Forall (fun l => is_blank TrimSpace l = false) (strings_Split_nl old) ->
   file_at fs' labelPath = Some old).
Proof.
  intros line old Hlock Hnl Hnb Hno fs'.
  assert (Hmain : file_at fs' labelPath
                  = Some (strings_Join (drop_blank TrimSpace (strings_Split_nl old)) nl)).
  { subst fs'. rewrite appendLabelToFile_content by exact Hlock.
    rewrite removeLabelFromFile_content by exact Hlock.
    rewrite written_at. do 2 f_equal.
    rewrite label_content_written. fold old. fold line.
    rewrite split_app_nl, (split_line _ Hnl).
    now rewrite delete_first_match_last. }
  split; [exact Hmain|].
  intros [Hempty|Hclean]; rewrite Hmain; f_equal.
  - rewrite Hempty. simpl. unfold drop_blank, is_blank. simpl.
    now rewrite TrimSpace_empty.
  - rewrite drop_blank_none by exact Hclean. apply join_split.
Qed.

End AppendLabel.

Lemma removal_can_be_read_back_witness :
  let kept := drop_blank ascii_TrimSpace
                (delete_first_match ascii_TrimSpace "1 0.3 0.3 0.1 0.1"
                   (strings_Split_nl (label_content example_boxes_fs "a.txt"))) in
  let out := label_content
               (removeLabelFromFile ascii_TrimSpace "a.txt" "1 0.3 0.3 0.1 0.1"
                  example_boxes_fs) "a.txt" in
  (kept = [] -> out = EmptyString) /\
  (kept <> [] -> strings_Split_nl out = kept).
Proof.
  apply (removal_can_be_read_back ascii_TrimSpace "a.txt" "1 0.3 0.3 0.1 0.1"
           example_boxes_fs).
  apply not_elem_of_empty.
Defined.

Lemma removing_absent_label_changes_nothing_witness :
  removeLabelFromFile ascii_TrimSpace "a.txt" "7 0.9 0.9 0.1 0.1" example_boxes_fs
  = example_boxes_fs.
Proof.
  refine (removing_absent_label_changes_nothing ascii_TrimSpace "a.txt"
            "7 0.9 0.9 0.1 0.1"
            ("0 0.1 0.1 0.1 0.1" +:+ nl +:+ "1 0.3 0.3 0.1 0.1")
            example_boxes_fs _ _ _).
  - vm_compute. reflexivity.
  - vm_compute. repeat constructor.
  - vm_compute. repeat constructor.
Defined.

Lemma removal_creates_missing_file_witness :
  file_at (removeLabelFromFile ascii_TrimSpace "b.txt" "7 0.9 0.9 0.1 0.1"
             example_boxes_fs) "b.txt"
  = Some EmptyString.
Proof.
  refine (removal_creates_missing_file ascii_TrimSpace eq_refl "b.txt"
            "7 0.9 0.9 0.1 0.1" example_boxes_fs _ _).
  - vm_compute. reflexivity.
  - apply not_elem_of_empty.
Defined.

Lemma appended_label_is_last_line_witness :
  let fs' := appendLabelToFile (F:=float) example_format "a.txt" 100%float 50%float
               2 10%float 10%float 20%float 10%float example_boxes_fs in
  ("a.txt" ∈ fs_locked example_boxes_fs -> fs' = example_boxes_fs) /\
  ("a.txt" ∉ fs_locked example_boxes_fs ->
     strings_Split_nl (label_content fs' "a.txt")
     = strings_Split_nl (label_content example_boxes_fs "a.txt")
       ++ [appended_line (F:=float) example_format 100%float 50%float
             2 10%float 10%float 20%float 10%float] /\
     forall p, p <> "a.txt" -> file_at fs' p = file_at example_boxes_fs p).
Proof.
  refine (appended_label_is_last_line (F:=float) example_format "a.txt"
            100%float 50%float 2 10%float 10%float 20%float 10%float
            example_boxes_fs _).
  vm_compute. reflexivity.
Defined.

Lemma append_then_remove_restores_witness :
  let line := appended_line (F:=float) example_format 100%float 50%float
                2 10%float 10%float 20%float 10%float in
  let old := label_content example_boxes_fs "a.txt" in
  let fs' := removeLabelFromFile ascii_TrimSpace "a.txt" line
               (appendLabelToFile (F:=float) example_format "a.txt"
                  100%float 50%float 2 10%float 10%float 20%float 10%float
                  example_boxes_fs) in
  file_at fs' "a.txt"
  = Some (strings_Join (drop_blank ascii_TrimSpace (strings_Split_nl old)) nl) /\
  (old = EmptyString \/
   Forall (fun l => is_blank ascii_TrimSpace l = false) (strings_Split_nl old) ->
   file_at fs' "a.txt" = Some old).
Proof.
  refine (append_then_remove_restores (F:=float) example_format ascii_TrimSpace
            eq_refl "a.txt" 100%float 50%float 2 10%float 10%float 20%float
            10%float example_boxes_fs _ _ _ _).
  - apply not_elem_of_empty.
  - vm_compute. reflexivity.
  - vm_compute. reflexivity.
  - vm_compute. repeat constructor.
Defined.

(** ** Tasks do not interfere *)

Lemma opt_write_same_at (name : string) (ow : option string)
  (fs fs' : FileSystem) (p : string) :
  fs_locked fs' = fs_locked fs ->
  file_at fs' p = file_at fs p ->
  file_at (opt_write name ow fs') p = file_at (opt_write name ow fs) p.
Proof.
  intros Hl Hp. destruct ow as [data|]; [|exact Hp]. simpl.
  unfold os_WriteFile. rewrite Hl.
  destruct (decide (name ∈ fs_locked fs)); [exact Hp|]. simpl.
  unfold file_at in *. simpl.
  destruct (decide (name = p)) as [->|Hne].
  - now rewrite !lookup_insert_eq.
  - now rewrite !lookup_insert_ne.
Qed.

Section Isolation.
Context {F : Type} {FA : Float64 F} {RT : Runtime F}.
Variable cfg : Config F.
Variable parts : list (FilePair * string).
Variable fs0 : FileSystem.

Hypothesis image_dsts : NoDup (map (fun p => image_dst cfg (fst p) (snd p)) parts).
Hypothesis label_dsts : NoDup (map (fun p => label_dst cfg (fst p) (snd p)) parts).
Hypothesis sources : forall t sub, In (t, sub) parts -> sources_outside (outDir cfg) t.

Lemma dsts_differ (i j : nat) t sub t' sub' :
  i <> j -> parts !! i = Some (t, sub) -> parts !! j = Some (t', sub') ->
  image_dst cfg t sub <> image_dst cfg t' sub' /\
  label_dst cfg t sub <> label_dst cfg t' sub'.
Proof.
  intros Hij Hi Hj. split; intros Heq; apply Hij.
  - apply (NoDup_lookup _ i j (image_dst cfg t sub) image_dsts).
    + change (map ?f parts) with (f <$> parts). now rewrite list_lookup_fmap, Hi.
    + change (map ?f parts) with (f <$> parts).
      rewrite list_lookup_fmap, Hj. simpl. now rewrite Heq.
  - apply (NoDup_lookup _ i j (label_dst cfg t sub) label_dsts).
    + change (map ?f parts) with (f <$> parts). now rewrite list_lookup_fmap, Hi.
    + change (map ?f parts) with (f <$> parts).
      rewrite list_lookup_fmap, Hj. simpl. now rewrite Heq.
Qed.

Lemma run_task_frame (fs : FileSystem) (j : nat) :
  fs_locked (run_task cfg parts fs j) = fs_locked fs /\
  forall p,
    (forall t sub, parts !! j = Some (t, sub) ->
       p <> image_dst cfg t sub /\ p <> label_dst cfg t sub) ->
    file_at (run_task cfg parts fs j) p = file_at fs p.
Proof.
  unfold run_task. destruct (parts !! j) as [[t sub]|]; [|auto].
  destruct (process_task_frame cfg (length parts) j t sub fs) as [Hl Hf].
  split; [exact Hl|]. intros p Hp.
  destruct (Hp t sub eq_refl). now apply Hf.
Qed.

(** Running a task on a file system that agrees with the initial one on
    the task's sources and destinations leaves at its destinations what it
    leaves when run on the initial one. *)
Lemma process_task_same_at (i : nat) t sub (fs : FileSystem) (p : string) :
  In (t, sub) parts ->
  fs_locked fs = fs_locked fs0 ->
  os_ReadFile fs (ImgPath t) = os_ReadFile fs0 (ImgPath t) ->
  os_ReadFile fs (JsonPath t) = os_ReadFile fs0 (JsonPath t) ->
  file_at fs p = file_at fs0 p ->
  file_at (fst (process_task cfg (length parts) i t sub fs)) p
  = file_at (fst (process_task cfg (length parts) i t sub fs0)) p.
Proof.
  intros Hin Hl Hri Hrj Hp.
  destruct (sources t sub Hin) as [_ Hj].
  destruct (process_task_patch cfg (length parts) i t sub
              (os_ReadFile fs0 (ImgPath t)) (os_ReadFile fs0 (JsonPath t))
              (outside_not_image_dst cfg _ t sub Hj)) as (oi & ol & Hpatch).
  rewrite (Hpatch fs Hri Hrj), (Hpatch fs0 eq_refl eq_refl).
  apply opt_write_same_at.
  - now rewrite !opt_write_locked.
  - now apply opt_write_same_at.
Qed.

Lemma fold_isolated (order : list nat) :
  NoDup order ->
  let fs := fold_left (run_task cfg parts) order fs0 in
  fs_locked fs = fs_locked fs0 /\
  (forall p,
     (forall j t sub, In j order -> parts !! j = Some (t, sub) ->
        p <> image_dst cfg t sub /\ p <> label_dst cfg t sub) ->
     file_at fs p = file_at fs0 p) /\
  (forall i t sub, In i order -> parts !! i = Some (t, sub) ->
     file_at fs (image_dst cfg t sub)
     = file_at (fst (process_task cfg (length parts) i t sub fs0)) (image_dst cfg t sub) /\
     file_at fs (label_dst cfg t sub)
     = file_at (fst (process_task cfg (length parts) i t sub fs0)) (label_dst cfg t sub)).
Proof.
  induction order as [|j order IH] using rev_ind; intros Hnd fs.
  - subst fs. simpl. split; [reflexivity|]. split; [auto|]. intros ? ? ? [].
  - apply NoDup_app in Hnd as (Hnd & Hdisj & _).
    assert (Hj : ~ In j order).
    { intros Hin. apply (Hdisj j); [now apply list_elem_of_In|].
      apply list_elem_of_In. now left. }
    specialize (IH Hnd). cbv zeta in IH. destruct IH as (IHl & IHf & IHd).
    subst fs. rewrite fold_left_app. simpl.
    set (fs1 := fold_left (run_task cfg parts) order fs0) in *.
    destruct (run_task_frame fs1 j) as [Hl Hf].
    split; [now rewrite Hl|]. split.
    + intros p Hp. rewrite Hf.
      * apply IHf. intros k t sub Hk. apply Hp. apply in_app_iff. now left.
      * intros t sub Hlook. apply (Hp j t sub); [|exact Hlook].
        apply in_app_iff. right. now left.
    + intros i t sub Hi Hlook. apply in_app_iff in Hi as [Hi|[<-|[]]].
      * assert (Hij : i <> j) by (intros ->; contradiction).
        rewrite !Hf; [now apply IHd| |].
        -- intros t' sub' Hlook'.
           destruct (dsts_differ i j t sub t' sub' Hij Hlook Hlook') as [_ Hll].
           split; [|exact Hll]. intros Heq. symmetry in Heq.
           exact (image_label_dst_differ cfg t' sub' t sub Heq).
        -- intros t' sub' Hlook'.
           destruct (dsts_differ i j t sub t' sub' Hij Hlook Hlook') as [Hii _].
           split; [exact Hii|]. apply image_label_dst_differ.
      * unfold run_task. rewrite Hlook.
        assert (Hin : In (t, sub) parts).
        { apply list_elem_of_In. eapply list_elem_of_lookup_2; exact Hlook. }
        destruct (sources t sub Hin) as [Hsi Hsj].
        assert (Hfree : forall p,
                  p = image_dst cfg t sub \/ p = label_dst cfg t sub ->
                  file_at fs1 p = file_at fs0 p).
        { intros p Hp. apply IHf. intros k t' sub' Hk Hlook'.
          assert (Hik : j <> k) by (intros ->; contradiction).
          destruct (dsts_differ j k t sub t' sub' Hik Hlook Hlook') as [Hii Hll].
          destruct Hp as [-> | ->]; split; auto.
          - apply image_label_dst_differ.
          - intros Heq. symmetry in Heq.
            exact (image_label_dst_differ cfg t' sub' t sub Heq). }
        assert (Hsrc : forall p, in_output_tree (outDir cfg) p = false ->
                  os_ReadFile fs1 p = os_ReadFile fs0 p).
        { intros p Hp. apply IHf. intros k t' sub' _ _. split.
          - now apply outside_not_image_dst.
          - now apply outside_not_label_dst. }
        split; apply process_task_same_at; auto.
Qed.

End Isolation.

Section IsolationClaim.
Context {F : Type} {FA : Float64 F} {RT : Runtime F}.

(** X25: tasks do not interfere.  When the sources lie outside the output
    tree and no two tasks share an image destination or a label
    destination, a completed run leaves at each task's two destinations
    exactly what the task's goroutine leaves there when it runs alone on
    the initial files, whatever the other tasks did and in whatever order
    they finished. *)
Theorem tasks_do_not_interfere (cfg : Config F) (now : Z)
  (tasks : list FilePair) (fs : FileSystem) (s : RunState F)
  (i : nat) (t : FilePair) (sub : string) :
  NoDup (map (fun p => image_dst cfg (fst p) (snd p)) (Partition cfg now tasks)) ->
  NoDup (map (fun p => label_dst cfg (fst p) (snd p)) (Partition cfg now tasks)) ->
  Forall (sources_outside (outDir cfg)) tasks ->
  reachable cfg now tasks fs s ->
  rs_returned s = true ->
  Partition cfg now tasks !! i = Some (t, sub) ->
  file_at (rs_fs s) (image_dst cfg t sub)
  = file_at (fst (process_task cfg (length tasks) i t sub fs)) (image_dst cfg t sub) /\
  file_at (rs_fs s) (label_dst cfg t sub)
  = file_at (fst (process_task cfg (length tasks) i t sub fs)) (label_dst cfg t sub).
Proof.
  intros Himg Hlbl Hsrc [_ Hsteps] Hret Hlook.
  set (parts := Partition cfg now tasks) in *.
  pose proof (run_inv_steps cfg parts fs s Hsteps) as Hinv.
  pose proof (inv_effects cfg parts fs s Hinv) as Heff.
  destruct (completed_positions cfg parts fs s Hinv) as (Hnd & _ & Hperm).
  specialize (Hperm Hret).
  apply (f_equal fst) in Heff. simpl in Heff.
  rewrite replay_run_task in Heff. rewrite Heff.
  assert (Hout : forall u v, In (u, v) parts -> sources_outside (outDir cfg) u).
  { intros u v Hin. apply Partition_In in Hin.
    rewrite List.Forall_forall in Hsrc. now apply Hsrc. }
  destruct (fold_isolated cfg parts fs Himg Hlbl Hout (rs_completed s) Hnd)
    as (_ & _ & Hd).
  replace (length tasks) with (length parts) by apply Partition_length.
  apply Hd; [|exact Hlook].
  eapply Permutation_in; [symmetry; exact Hperm|].
  apply in_seq. apply lookup_lt_Some in Hlook. lia.
Qed.

End IsolationClaim.

Lemma tasks_do_not_interfere_witness :
  let s := scheduled example_cfg 2 example_tasks example_run_fs example_schedule in
  file_at (rs_fs s) (image_dst example_cfg (mkPair "a.jpg" "a.json") "train")
  = file_at (fst (process_task example_cfg (length example_tasks) 0
                    (mkPair "a.jpg" "a.json") "train" example_run_fs))
      (image_dst example_cfg (mkPair "a.jpg" "a.json") "train") /\
  file_at (rs_fs s) (label_dst example_cfg (mkPair "a.jpg" "a.json") "train")
  = file_at (fst (process_task example_cfg (length example_tasks) 0
                    (mkPair "a.jpg" "a.json") "train" example_run_fs))
      (label_dst example_cfg (mkPair "a.jpg" "a.json") "train").
Proof.
  refine (tasks_do_not_interfere example_cfg 2 example_tasks example_run_fs
            (scheduled example_cfg 2 example_tasks example_run_fs example_schedule)
            0 (mkPair "a.jpg" "a.json") "train" _ _ _ _ _ _).
  - apply (@bool_decide_unpack _ (NoDup_dec _)). vm_compute. exact I.
  - apply (@bool_decide_unpack _ (NoDup_dec _)). vm_compute. exact I.
  - repeat constructor.
  - apply scheduled_reachable. discriminate.
  - vm_compute. reflexivity.
  - vm_compute. reflexivity.
Defined.
